(** * bmcbutler: the connection-and-dispatch engine

    A shallow embedding of the vendor discovery prober
    ([discover.ScanAndConnect], [swapProbe]), the login engine
    ([bmclogin.Params.Login], [attemptLogin]), the chassis configuration
    apply engine ([configure.Cmc.Apply]), the dispatcher
    ([butler.msgHandler], [butler.configureAsset]), the receive loop of
    the butler pool ([butler.Runner]) and the Dora inventory
    ([inventory.Dora.setLocation], [AssetIterBySerial], [AssetIter]).

    Conventions.
    - A Go [error] is its message; [None] is the nil error.
    - A Go slice is a list; the nil slice and the empty slice are both [[]].
    - Everything the program learns from the network (probe answers,
      credential checks, configuration calls) is read from an explicit
      environment, so that every function below is a total, executable
      function of its arguments and of that environment.
    - The log lines of the apply engine and of the dispatcher, and the
      metrics, are kept as data in the state that the functions thread, in
      the order in which the program emits them; the log lines of the
      prober are left out.
    - A field or type whose Go name is taken in Rocq carries a trailing
      underscore ([Type_], [Asset_], [Config_], [LdapGroups_]). *)

From stdpp Require Import base strings list gmap.
From Stdlib Require Import ZArith Lia.

Local Open Scope string_scope.
Local Open Scope list_scope.

Definition error := string.

(** ** Logging (logrus), reduced to level and message *)

Inductive Level := Trace | Debug | Info | Warn.

Record LogEntry := { level : Level; message : string }.

Definition Log := list LogEntry.

Definition logAt (lv : Level) (msg : string) (l : Log) : Log :=
  l ++ [{| level := lv; message := msg |}].

(** ** bmclib [cfgresources]: the rendered resource configuration

    The engine only tests the sections for nil and hands them to the
    device, so a section body is kept as its rendered text. *)

Module Cfgresources.

Definition Section_ := string.

Record LdapGroups := { Groups : list Section_ }.

Record ResourcesConfig := {
  User : option Section_;
  Syslog : option Section_;
  Ntp : option Section_;
  Ldap : option Section_;
  LdapGroups_ : option LdapGroups;
  License : option Section_;
  Network : option Section_;
  SetupChassis : option Section_;
}.

End Cfgresources.

(** ** bmclib [devices]: what a connection answers *)

Module Devices.

Import Cfgresources.

(** The calls of [devices.Configure] that the apply engine makes. *)
Inductive Call :=
| CallUser (cfg : Section_)
| CallSyslog (cfg : Section_)
| CallNtp (cfg : Section_)
| CallLdap (cfg : Section_)
| CallLdapGroups (groups : list Section_) (ldap : Section_)
| CallSetLicense (cfg : Section_)
| CallNetwork (cfg : Section_).

(** [answer history call] is the error the device returns to [call]
    after the calls of [history] (oldest first) were made on it. *)
Record Configure := {
  Resources : list string;
  answer : list Call -> Call -> option error;
}.

(** The dynamic type found by the type switches
    [case devices.Bmc: ... case devices.BmcChassis: ... default:]. *)
Inductive DeviceType := Bmc | BmcChassis | OtherDevice.

Record Connection := {
  dynType : DeviceType;
  CheckCredentials : option error;
  IsActive : bool;
  BmcType : string;
  Vendor : string;
  Serial : string;
  configure : Configure;
}.

End Devices.

(** ** Package [discover] *)

Module Discover.

Import Devices.

Definition ProbeHpIlo := "hpilo".
Definition ProbeIdrac8 := "idrac8".
Definition ProbeIdrac9 := "idrac9".
Definition ProbeSupermicrox := "supermicrox".
Definition ProbeSupermicrox11 := "supermicrox11".
Definition ProbeHpC7000 := "hpc7000".
Definition ProbeM1000e := "m1000e".
Definition ProbeQuanta := "quanta".
Definition ProbeHpCl100 := "hpcl100".

(** [errors.ErrVendorUnknown] of bmclib; only its being an error matters. *)
Definition ErrVendorUnknown : error := "unable to identify the vendor".

(** A probe returns [(interface{}, error)]. *)
Definition ProbeResult : Type := option Connection * option error.

(** What one call of [ScanAndConnect] finds outside the program: the
    [BMCLIB_TEST] variable and the dummy device, the outcome of
    [httpclient.Build], and the answer of each vendor probe. *)
Record ScanEnv := {
  bmclibTest : bool;
  dummy : ProbeResult;
  httpBuild : option error;
  devices : string -> ProbeResult;
}.

Record Options := {
  Hint : string;
  HintCallback : string -> option error;
}.

(** [opts := &Options{HintCallback: func(_ string) error { return nil }}] *)
Definition defaultOptions : Options :=
  {| Hint := ""; HintCallback := fun _ => None |}.

Definition WithProbeHint (hint : string) (args : Options) : Options :=
  {| Hint := hint; HintCallback := HintCallback args |}.

Definition WithHintCallBack (fn : string -> option error) (args : Options) : Options :=
  {| Hint := Hint args; HintCallback := fn |}.

Definition order : list string :=
  [ ProbeHpIlo; ProbeIdrac8; ProbeIdrac9; ProbeSupermicrox11; ProbeSupermicrox;
    ProbeHpC7000; ProbeM1000e; ProbeQuanta; ProbeHpCl100 ].

(** [order[0], order[i] = order[i], order[0]]: both right-hand sides are
    read first, then [order[0]] and [order[i]] are written in turn. *)
Definition swap0 (order : list string) (i : nat) : list string :=
  match order !! i, order !! 0 with
  | Some oi, Some o0 => <[i := o0]> (<[0 := oi]> order)
  | _, _ => order
  end.

(** [for i := range order { if order[i] == hint { swap; break } }],
    the indices still to visit being [idx]. *)
Fixpoint swapProbeFrom (idx : list nat) (order : list string) (hint : string)
  : list string :=
  match idx with
  | [] => order
  | i :: idx' =>
      if bool_decide (order !! i = Some hint) then swap0 order i
      else swapProbeFrom idx' order hint
  end.

(** The slice is updated in place; the model returns its new contents. *)
Definition swapProbe (order : list string) (hint : string) : list string :=
  swapProbeFrom (seq 0 (length order)) order hint.

(** [if opts.Hint != "" { swapProbe(order, opts.Hint) }] *)
Definition tryOrder (catalog : list string) (opts : Options) : list string :=
  if bool_decide (Hint opts = "") then catalog else swapProbe catalog (Hint opts).

(** The result of a scan, with the probes that were run, in order. *)
Record Scan := {
  bmcConnection : option Connection;
  err : option error;
  probed : list string;
}.

(** [for _, probeID := range order { ... }] and the final
    [return nil, errors.ErrVendorUnknown]. *)
Fixpoint probeLoop (env : ScanEnv) (opts : Options) (order : list string)
    (done : list string) : Scan :=
  match order with
  | [] => {| bmcConnection := None; err := Some ErrVendorUnknown; probed := done |}
  | probeID :: rest =>
      let '(conn, e) := devices env probeID in
      let done' := done ++ [probeID] in
      match e with
      | Some _ => probeLoop env opts rest done'
      | None =>
          match HintCallback opts probeID with
          | Some hintErr =>
              {| bmcConnection := None; err := Some hintErr; probed := done' |}
          | None =>
              match conn with
              | Some c => {| bmcConnection := Some c; err := None; probed := done' |}
              | None => probeLoop env opts rest done'
              end
          end
      end
  end.

(** The body of [ScanAndConnect] for a given catalog of probes. *)
Definition scanCatalog (catalog : list string) (env : ScanEnv) (opts : Options) : Scan :=
  if bmclibTest env then
    {| bmcConnection := fst (dummy env); err := snd (dummy env); probed := [] |}
  else
    match httpBuild env with
    | Some e => {| bmcConnection := None; err := Some e; probed := [] |}
    | None => probeLoop env opts (tryOrder catalog opts) []
    end.

(** [options] are applied in turn to the default options. *)
Definition ScanAndConnect (env : ScanEnv) (options : list (Options -> Options)) : Scan :=
  scanCatalog order env (foldl (fun o f => f o) defaultOptions options).

End Discover.

(** A loop body either falls through to the next iteration with a new
    state, or leaves the enclosing function with a result. *)
Inductive Flow (S R : Type) :=
| Next (s : S)
| Return (r : R).
Arguments Next {S R} s.
Arguments Return {S R} r.

(** ** Package [bmclogin] *)

Module Bmclogin.

Import Devices.

(** A credential map [map[string]string] is ranged over in an order the
    Go runtime chooses; it is represented by its entries in the order
    in which [for user, pass := range credentials] visits them. *)
Definition Credential : Type := list (string * string).

Record Params := {
  IpAddresses : list string;
  Credentials : list Credential;
  CheckCredential : bool;
  Retries : Z;
}.

Record LoginInfo := {
  FailedCredentials : list (gmap string string);
  WorkingCredentials : gmap string string;
  ActiveIpAddress : string;
  Attempts : nat;
}.

(** The zero value of the named result [loginInfo]. *)
Definition zeroLoginInfo : LoginInfo :=
  {| FailedCredentials := []; WorkingCredentials := ∅;
     ActiveIpAddress := ""; Attempts := 0 |}.

(** [net k ip user pass] is what [discover.ScanAndConnect(ip, user, pass)]
    finds when it is called after [k] earlier attempts of this login. *)
Definition Net : Type := nat -> string -> string -> string -> Discover.ScanEnv.

(** One call of [attemptLogin], as recorded for the properties below. *)
Record Attempt := { at_ip : string; at_user : string; at_pass : string }.

Record LoginResult := {
  connection : option Connection;
  loginInfo : LoginInfo;
  err : option error;
  tried : list Attempt;
}.

Section Login.

Variable net : Net.
Variable p : Params.

(** [(connection, ipInactive, err)] *)
Definition attemptLogin (k : nat) (ip user pass : string)
  : option Connection * bool * option error :=
  let scan := Discover.ScanAndConnect (net k ip user pass) [] in
  match Discover.err scan with
  | Some _ =>
      (Discover.bmcConnection scan, false, Some "ScanAndConnect attempt unsuccessful.")
  | None =>
      if negb (CheckCredential p) then (Discover.bmcConnection scan, false, None)
      else
        match Discover.bmcConnection scan with
        | None => (None, false, Some "Unrecognized device type.")
        | Some c =>
            match dynType c with
            | Bmc =>
                match CheckCredentials c with
                | Some _ =>
                    (Some c, false, Some ("BMC login attempt failed, account: " +:+ user))
                | None => (Some c, false, None)
                end
            | BmcChassis =>
                match CheckCredentials c with
                | Some _ =>
                    (Some c, false, Some ("Chassis login attempt failed, account: " +:+ user))
                | None =>
                    if negb (IsActive c) then (Some c, true, None)
                    else (Some c, false, None)
                end
            | OtherDevice => (Some c, false, Some "Unrecognized device type.")
            end
        end
  end.

(** The state of the loops: [loginInfo] and the attempts made so far. *)
Record LoopState := { info : LoginInfo; made : list Attempt }.

Definition withAttempt (st : LoopState) (a : Attempt) : LoopState :=
  {| info := {| FailedCredentials := FailedCredentials (info st);
                WorkingCredentials := WorkingCredentials (info st);
                ActiveIpAddress := ActiveIpAddress (info st);
                Attempts := Attempts (info st) + 1 |};
     made := made st ++ [a] |}.

Definition withFailed (st : LoopState) (user pass : string) : LoopState :=
  {| info := {| FailedCredentials := FailedCredentials (info st) ++ [{[ user := pass ]}];
                WorkingCredentials := WorkingCredentials (info st);
                ActiveIpAddress := ActiveIpAddress (info st);
                Attempts := Attempts (info st) |};
     made := made st |}.

Definition withWorking (i : LoginInfo) (user pass : string) : LoginInfo :=
  {| FailedCredentials := FailedCredentials i;
     WorkingCredentials := {[ user := pass ]};
     ActiveIpAddress := ActiveIpAddress i;
     Attempts := Attempts i |}.

Definition withActive (i : LoginInfo) (ip : string) : LoginInfo :=
  {| FailedCredentials := FailedCredentials i;
     WorkingCredentials := WorkingCredentials i;
     ActiveIpAddress := ip;
     Attempts := Attempts i |}.

(** [for t := 0; t <= p.Retries; t++ { ... }] with [n] iterations left.
    Falling out of the loop and [break] both resume the loop over the
    IP addresses. *)
Fixpoint retryLoop (n : nat) (ip user pass : string) (st : LoopState)
  : Flow LoopState LoginResult :=
  match n with
  | O => Next st
  | S n' =>
      let st1 := withAttempt st {| at_ip := ip; at_user := user; at_pass := pass |} in
      let '(conn, ipInactive, e) := attemptLogin (Attempts (info st)) ip user pass in
      if ipInactive then
        if bool_decide (length (IpAddresses p) = 1) then
          Return {| connection := conn;
                    loginInfo := withWorking (info st1) user pass;
                    err := e; tried := made st1 |}
        else Next st1
      else
        match e with
        | None =>
            Return {| connection := conn;
                      loginInfo := withWorking (withActive (info st1) ip) user pass;
                      err := None; tried := made st1 |}
        | Some _ => retryLoop n' ip user pass (withFailed st1 user pass)
        end
  end.

(** The number of iterations of the retry loop: [t] runs from [0] to
    [retries] inclusive, and not at all when [retries] is negative. *)
Definition iterations (retries : Z) : nat := Z.to_nat (retries + 1).

(** [for _, ip := range p.IpAddresses { if ip == "" { continue } ... }] *)
Fixpoint ipLoop (retries : Z) (ips : list string) (user pass : string) (st : LoopState)
  : Flow LoopState LoginResult :=
  match ips with
  | [] => Next st
  | ip :: ips' =>
      if bool_decide (ip = "") then ipLoop retries ips' user pass st
      else
        match retryLoop (iterations retries) ip user pass st with
        | Return r => Return r
        | Next st' => ipLoop retries ips' user pass st'
        end
  end.

(** [for user, pass := range credentials { ... }] *)
Fixpoint entryLoop (retries : Z) (entries : Credential) (st : LoopState)
  : Flow LoopState LoginResult :=
  match entries with
  | [] => Next st
  | (user, pass) :: entries' =>
      match ipLoop retries (IpAddresses p) user pass st with
      | Return r => Return r
      | Next st' => entryLoop retries entries' st'
      end
  end.

(** [for _, credentials := range p.Credentials { ... }] *)
Fixpoint credentialLoop (retries : Z) (creds : list Credential) (st : LoopState)
  : Flow LoopState LoginResult :=
  match creds with
  | [] => Next st
  | credentials :: creds' =>
      match entryLoop retries credentials st with
      | Return r => Return r
      | Next st' => credentialLoop retries creds' st'
      end
  end.

(** [if p.Retries == 0 { p.Retries = 1 }] *)
Definition effectiveRetries : Z :=
  if bool_decide (Retries p = 0%Z) then 1%Z else Retries p.

(** The loop counter [t] and [p.Retries] are Go [int]s; the model is
    exact as long as [p.Retries] is below the largest [int], where
    [t <= p.Retries] could never turn false. The inner [connection]
    and [err] shadow the named results, so that the final [return]
    hands back the nil connection. *)
Definition Login : LoginResult :=
  match credentialLoop effectiveRetries (Credentials p)
          {| info := zeroLoginInfo; made := [] |} with
  | Return r => r
  | Next st =>
      {| connection := None; loginInfo := info st;
         err := Some "All attempts to login failed."; tried := made st |}
  end.

End Login.

End Bmclogin.

(** ** Package [asset] *)

Module Asset.

Record Asset := {
  IPAddresses : list string;
  IPAddress : string;
  Serial : string;
  Vendor : string;
  HardwareType : string;
  Type_ : string;
  Model : string; (* written by [configureAsset] *)
  Location : string;
  Setup : bool;
  Configure : bool;
  Execute : bool;
  Extra : gmap string string;
}.

End Asset.

(** ** Package [configure]: the chassis configurator *)

Module Configure.

Import Cfgresources Devices.

(** What [Apply] meets outside the program.
    - [interrupt i] is the value of the flag [interrupt] read at the top
      of iteration [i] (from 0) of the loop over the resources; the flag
      is set by the goroutine that waits on [stopChan].
    - [GetExtraGroups] is the method of [cfgresources.LdapGroups]; it
      returns its output and error, and the groups it leaves in the
      section. *)
Record ApplyEnv := {
  interrupt : nat -> bool;
  GetExtraGroups : LdapGroups -> string -> string -> string * option error * LdapGroups;
}.

Record Cmc := {
  asset : Asset.Asset;
  resources : list string;
  configure : Configure;
  config : ResourcesConfig;
}.

(** The locals [success] and [failed] of [Apply], the calls made on the
    device so far, the log, and the configuration (the [LdapGroups]
    section is reached through a pointer). *)
Record ApplyState := {
  success : list string;
  failed : list string;
  calls : list Call;
  log : Log;
  cfg : ResourcesConfig;
}.

Definition withLog (lv : Level) (msg : string) (st : ApplyState) : ApplyState :=
  {| success := success st; failed := failed st; calls := calls st;
     log := logAt lv msg (log st); cfg := cfg st |}.

Definition withSuccess (resource : string) (st : ApplyState) : ApplyState :=
  {| success := success st ++ [resource]; failed := failed st; calls := calls st;
     log := log st; cfg := cfg st |}.

Definition withFailed (resource : string) (st : ApplyState) : ApplyState :=
  {| success := success st; failed := failed st ++ [resource]; calls := calls st;
     log := log st; cfg := cfg st |}.

Definition withGroups (lg : LdapGroups) (st : ApplyState) : ApplyState :=
  {| success := success st; failed := failed st; calls := calls st;
     log := log st;
     cfg := {| User := User (cfg st); Syslog := Syslog (cfg st); Ntp := Ntp (cfg st);
               Ldap := Ldap (cfg st); LdapGroups_ := Some lg;
               License := License (cfg st); Network := Network (cfg st);
               SetupChassis := SetupChassis (cfg st) |} |}.

Section Apply.

Variable env : ApplyEnv.
Variable b : Cmc.

(** A call on [b.configure]: the device answers and the call is recorded. *)
Definition call (c : Call) (st : ApplyState) : option error * ApplyState :=
  (answer (configure b) (calls st) c,
   {| success := success st; failed := failed st; calls := calls st ++ [c];
      log := log st; cfg := cfg st |}).

(** [if section != nil { err = b.configure.X(section) }] *)
Definition applySection (section : option Section_) (mk : Section_ -> Call)
    (st : ApplyState) : option error * ApplyState :=
  match section with
  | Some s => call (mk s) st
  | None => (None, st)
  end.

(** [switch resource { ... }]: the value of the loop's [err] after the
    switch, and the new state.

    In the ["ldap_group"] case, [o, err := ...GetExtraGroups(...)]
    declares a new [err] in the block of the [if]; the assignment
    [err = b.configure.LdapGroups(...)] that follows is in that block
    and writes this inner [err]. The [err] declared at the top of the
    loop body, which is the one tested after the switch, keeps its
    zero value. *)
Definition applyResource (resource : string) (st : ApplyState)
  : option error * ApplyState :=
  if String.eqb resource "user" then applySection (User (cfg st)) CallUser st
  else if String.eqb resource "syslog" then applySection (Syslog (cfg st)) CallSyslog st
  else if String.eqb resource "ntp" then applySection (Ntp (cfg st)) CallNtp st
  else if String.eqb resource "ldap" then applySection (Ldap (cfg st)) CallLdap st
  else if String.eqb resource "ldap_group" then
    match LdapGroups_ (cfg st), Ldap (cfg st) with
    | Some lg, Some ldap =>
        let '(o, innerErr, lg') :=
          GetExtraGroups env lg (Asset.Serial (asset b)) (Asset.Vendor (asset b)) in
        let st1 := withGroups lg' st in
        let st2 :=
          match innerErr with
          | Some _ => withLog Warn "Trying to fetch more LDAP groups has failed." st1
          | None => st1
          end in
        let '(innerErr', st3) := call (CallLdapGroups (Groups lg') ldap) st2 in
        (None, st3)
    | _, _ => (None, st)
    end
  else if String.eqb resource "license" then
    applySection (License (cfg st)) CallSetLicense st
  else if String.eqb resource "network" then
    applySection (Network (cfg st)) CallNetwork st
  else (None, withLog Warn "Unknown resource." st).

(** The ["ldap_group"] case of the earlier revision of [Apply] that the
    same file keeps:
    [if b.config.LdapGroup != nil && b.config.Ldap != nil
       { err = b.configure.LdapGroup(b.config.LdapGroup, b.config.Ldap) }].
    No variable is declared in the block, and the loop's [err] is the one
    assigned. *)
Definition applyLdapGroupEarlier (st : ApplyState) : option error * ApplyState :=
  match LdapGroups_ (cfg st), Ldap (cfg st) with
  | Some lg, Some ldap => call (CallLdapGroups (Groups lg) ldap) st
  | _, _ => (None, st)
  end.

(** The part of the loop body after the switch. *)
Definition classify (resource : string) (e : option error) (st : ApplyState)
  : ApplyState :=
  withLog Trace "Resource configuration applied."
    match e with
    | Some _ =>
        withLog Warn "Resource configuration returned errors." (withFailed resource st)
    | None => withSuccess resource st
    end.

(** The loop body below the interrupt check: the switch, then the
    classification of its [err]. *)
Definition turn (resource : string) (st : ApplyState) : ApplyState :=
  let '(e, st1) := applyResource resource st in classify resource e st1.

(** [for _, resource := range resources { ... }], at iteration [i]. *)
Fixpoint applyLoop (i : nat) (resources : list string) (st : ApplyState)
  : ApplyState :=
  match resources with
  | [] => st
  | resource :: rest =>
      if interrupt env i then withLog Debug "Received interrupt." st
      else applyLoop (S i) rest (turn resource st)
  end.

(** [if len(b.resources) > 0 { resources = b.resources } else
    { resources = b.configure.Resources() }] *)
Definition applyList : list string :=
  if bool_decide (0 < length (resources b)) then resources b
  else Resources (configure b).

Definition initialState : ApplyState :=
  withLog Trace "Configuration resources to be applied."
    {| success := []; failed := []; calls := []; log := []; cfg := config b |}.

(** [Apply] returns nothing in Go; the model returns its locals
    [success] and [failed] with the calls made and the log written. *)
Definition Apply : ApplyState :=
  let st := applyLoop 0 applyList initialState in
  if bool_decide (0 < length (failed st)) then
    withLog Warn "One or more resources failed to apply." st
  else withLog Info "CMC configuration actions successful." st.

End Apply.

End Configure.

(** ** Package [config]: the run parameters the dispatcher reads *)

Module Config.

Record Params := {
  Locations : list string;
  IgnoreLocation : bool;
  DryRun : bool;
  Credentials : list Bmclogin.Credential;
  Resources : list string;
}.

End Config.

(** ** Package [butler] *)

Module Butler.

Import Devices.

Record Msg := {
  Asset_ : Asset.Asset;
  AssetConfig : string;
  AssetSetup : string;
  AssetExecute : string;
}.

Record Butler := {
  Config_ : Config.Params;
  interrupt : bool;
}.

(** What the handler starts outside itself, in order. *)
Inductive Invocation :=
| ExecuteCommand (command : string) (a : Asset.Asset)
| ConfigureAsset (a : Asset.Asset)
| LoginCall (params : Bmclogin.Params) (tried : list Bmclogin.Attempt)
| BmcApply (a : Asset.Asset) (rendered : Cfgresources.ResourcesConfig)
| ChassisSetup (a : Asset.Asset) (setup : Cfgresources.Section_)
| CmcApply (succeeded failed : list string) (calls : list Call)
| Close
| MeasureRuntime.

Abbreviation Metrics := (gmap (list string) nat).

Definition counter (m : Metrics) (key : list string) : nat := default 0 (m !! key).

(** [metrics.IncrCounter(key, n)] *)
Definition IncrCounter (key : list string) (n : nat) (m : Metrics) : Metrics :=
  <[ key := counter m key + n ]> m.

Record State := {
  metrics : Metrics;
  log : Log;
  invoked : list Invocation;
}.

Definition incr (key : list string) (st : State) : State :=
  {| metrics := IncrCounter key 1 (metrics st); log := log st; invoked := invoked st |}.

Definition logged (lv : Level) (msg : string) (st : State) : State :=
  {| metrics := metrics st; log := logAt lv msg (log st); invoked := invoked st |}.

Definition invoke (i : Invocation) (st : State) : State :=
  {| metrics := metrics st; log := log st; invoked := invoked st ++ [i] |}.

(** The collaborators of the dispatcher.
    - [executeCommand] and the configurators for servers and for the
      chassis setup stage are not part of the sources at hand: the first
      is a parameter, the other two are recorded as invocations.
    - [LoadConfigResources] renders the configuration of an asset, or
      returns nil. *)
Record World := {
  net : Bmclogin.Net;
  applyEnv : Configure.ApplyEnv;
  LoadConfigResources : string -> Asset.Asset -> option Cfgresources.ResourcesConfig;
  executeCommand : string -> Asset.Asset -> option error;
}.

Section Handler.

Variable w : World.
Variable b : Butler.

Definition myLocation (location : string) : bool :=
  (fix range (ls : list string) : bool :=
     match ls with
     | [] => false
     | l :: ls' => if bool_decide (l = location) then true else range ls'
     end) (Config.Locations (Config_ b)).

(** The [bmclogin.Params] literal of [configureAsset]. *)
Definition bmcConn (asset : Asset.Asset) : Bmclogin.Params :=
  {| Bmclogin.IpAddresses := Asset.IPAddresses asset;
     Bmclogin.Credentials := Config.Credentials (Config_ b);
     Bmclogin.CheckCredential := true;
     Bmclogin.Retries := 1 |}.

Definition setIPAddress (ip : string) (a : Asset.Asset) : Asset.Asset :=
  {| Asset.IPAddresses := Asset.IPAddresses a; Asset.IPAddress := ip;
     Asset.Serial := Asset.Serial a; Asset.Vendor := Asset.Vendor a;
     Asset.HardwareType := Asset.HardwareType a; Asset.Type_ := Asset.Type_ a;
     Asset.Model := Asset.Model a; Asset.Location := Asset.Location a;
     Asset.Setup := Asset.Setup a; Asset.Configure := Asset.Configure a;
     Asset.Execute := Asset.Execute a; Asset.Extra := Asset.Extra a |}.

(** [asset.Type = ty; asset.Model = c.BmcType(); asset.Vendor = c.Vendor();
    asset.Serial, _ = c.Serial()] *)
Definition identify (ty : string) (c : Connection) (a : Asset.Asset) : Asset.Asset :=
  {| Asset.IPAddresses := Asset.IPAddresses a; Asset.IPAddress := Asset.IPAddress a;
     Asset.Serial := Serial c; Asset.Vendor := Vendor c;
     Asset.HardwareType := Asset.HardwareType a; Asset.Type_ := ty;
     Asset.Model := BmcType c; Asset.Location := Asset.Location a;
     Asset.Setup := Asset.Setup a; Asset.Configure := Asset.Configure a;
     Asset.Execute := Asset.Execute a; Asset.Extra := Asset.Extra a |}.

(** The part of [configureAsset] after a successful login:
    [asset.IPAddress = loginInfo.ActiveIpAddress] and the type switch. *)
Definition afterLogin (config : string) (r : Bmclogin.LoginResult)
    (asset : Asset.Asset) (st : State) : option error * Asset.Asset * State :=
  let asset1 := setIPAddress (Bmclogin.ActiveIpAddress (Bmclogin.loginInfo r)) asset in
  let unknown :=
    (Some "Unknown asset type", asset1, logged Warn "Unknown device type." st) in
  match Bmclogin.connection r with
  | None => unknown
  | Some client =>
      match dynType client with
      | Bmc =>
          let asset2 := identify "server" client asset1 in
          match LoadConfigResources w config asset2 with
          | None => (Some "No BMC configuration to be applied", asset2, st)
          | Some renderedConfig =>
              (None, asset2, invoke Close (invoke (BmcApply asset2 renderedConfig) st))
          end
      | BmcChassis =>
          let asset2 := identify "chassis" client asset1 in
          match LoadConfigResources w config asset2 with
          | None => (Some "No BMC configuration to be applied", asset2, st)
          | Some renderedConfig =>
              let st1 :=
                match Cfgresources.SetupChassis renderedConfig with
                | Some setup => invoke (ChassisSetup asset2 setup) st
                | None => st
                end in
              let c := {| Configure.asset := asset2;
                          Configure.resources := Config.Resources (Config_ b);
                          Configure.configure := configure client;
                          Configure.config := renderedConfig |} in
              let out := Configure.Apply (applyEnv w) c in
              (None, asset2,
               invoke Close
                 (invoke (CmcApply (Configure.success out) (Configure.failed out)
                            (Configure.calls out)) st1))
          end
      | OtherDevice => unknown
      end
  end.

(** [asset] is a pointer; the asset it points to on return is the
    second component of the result. *)
Definition configureAsset (config : string) (asset : Asset.Asset) (st : State)
  : option error * Asset.Asset * State :=
  if Config.DryRun (Config_ b) then
    (None, asset, logged Info "Dry run, asset configuration will be skipped." st)
  else
    let st1 := logged Debug "Connecting to asset." st in
    let r := Bmclogin.Login (net w) (bmcConn asset) in
    let st2 := invoke (LoginCall (bmcConn asset) (Bmclogin.tried r)) st1 in
    let '(e, asset', st3) :=
      match Bmclogin.err r with
      | Some e => (Some e, asset, st2)
      | None => afterLogin config r asset st2
      end in
    (* defer metric.MeasureRuntime(...) *)
    (e, asset', invoke MeasureRuntime st3).

(** [len(ips) == 0 || len(ips) == 1 && ips[0] == "0.0.0.0"] *)
Definition noIP (ips : list string) : bool :=
  bool_decide (length ips = 0)
  || (bool_decide (length ips = 1) && bool_decide (ips !! 0 = Some "0.0.0.0")).

(** The [switch] of [msgHandler] on the action flags. *)
Definition dispatch (msg : Msg) (st : State) : State :=
  let a := Asset_ msg in
  if Asset.Execute a then
    let st1 := invoke (ExecuteCommand (AssetExecute msg) a) st in
    match executeCommand w (AssetExecute msg) a with
    | Some _ =>
        incr ["butler"; "execute_fail"] (logged Warn "Execute action returned error." st1)
    | None =>
        incr ["butler"; "execute_success"] (logged Info "Execute action succeeded." st1)
    end
  else if Asset.Configure a then
    let '(e, _, st1) := configureAsset (AssetConfig msg) a (invoke (ConfigureAsset a) st) in
    match e with
    | Some _ =>
        incr ["butler"; "configure_fail"]
          (logged Warn "Configure action returned error." st1)
    | None =>
        incr ["butler"; "configure_success"]
          (logged Info "Configure action succeeded." st1)
    end
  else logged Warn "Unknown action request on asset." st.

Definition msgHandler (msg : Msg) (st : State) : State :=
  if interrupt b then st
  else
    let st1 := incr ["butler"; "asset_recvd"] st in
    if noIP (Asset.IPAddresses (Asset_ msg)) then
      incr ["butler"; "asset_recvd_noip"]
        (logged Warn "Asset was received by butler without any IP(s) info, skipped." st1)
    else if negb (bool_decide (Asset.Location (Asset_ msg) = ""))
            && (negb (myLocation (Asset.Location (Asset_ msg)))
                && negb (Config.IgnoreLocation (Config_ b))) then
      incr ["butler"; "asset_recvd_location_unmanaged"]
        (logged Warn "Butler won't manage asset based on its current location." st1)
    else dispatch msg st1.

End Handler.

End Butler.

(** ** Vocabulary of the properties of [Login] *)

Module LoginTerms.

Import Devices Bmclogin.

(** How the retry loop reads the answer of [attemptLogin]: the attempt is
    accepted ([err == nil]), the controller is on standby ([ipInactive]),
    or the attempt is rejected ([err != nil]). *)
Inductive Outcome :=
| Accepted (c : option Connection)
| Standby (c : option Connection)
| Rejected.

Definition outcome (net : Net) (p : Params) (k : nat) (a : Attempt) : Outcome :=
  let '(conn, ipInactive, e) := attemptLogin net p k (at_ip a) (at_user a) (at_pass a) in
  if ipInactive then Standby conn
  else match e with
       | None => Accepted conn
       | Some _ => Rejected
       end.

(** The scan of attempt [k] finds the device [c]. *)
Definition finds (net : Net) (k : nat) (a : Attempt) (c : Connection) : Prop :=
  let scan := Discover.ScanAndConnect (net k (at_ip a) (at_user a) (at_pass a)) [] in
  Discover.bmcConnection scan = Some c /\ Discover.err scan = None.

(** A chassis controller that takes the credentials. *)
Definition chassisController (c : Connection) (active : bool) : Prop :=
  dynType c = BmcChassis /\ CheckCredentials c = None /\ IsActive c = active.

(** Attempt [k] neither ended the login nor was accepted: it was rejected,
    or it met a standby controller of an asset with several addresses. *)
Definition passedOver (net : Net) (p : Params) (k : nat) (a : Attempt) : Prop :=
  outcome net p k a = Rejected
  \/ exists c, outcome net p k a = Standby c /\ length (IpAddresses p) <> 1.

(** The failed-credential records that the attempts [tr], the first of
    which is attempt [k], leave behind: one for each rejected attempt. *)
Fixpoint failedFrom (net : Net) (p : Params) (k : nat) (tr : list Attempt)
  : list (gmap string string) :=
  match tr with
  | [] => []
  | a :: tr' =>
      match outcome net p k a with
      | Rejected => {[ at_user a := at_pass a ]} :: failedFrom net p (S k) tr'
      | _ => failedFrom net p (S k) tr'
      end
  end.

(** What holds of the loop state as long as the loops run. *)
Definition searching (net : Net) (p : Params) (st : LoopState) : Prop :=
  Attempts (info st) = length (made st)
  /\ WorkingCredentials (info st) = ∅
  /\ ActiveIpAddress (info st) = ""
  /\ FailedCredentials (info st) = failedFrom net p 0 (made st)
  /\ forall k a, made st !! k = Some a -> passedOver net p k a.

(** What holds of a result that leaves the loops early: its last attempt
    was accepted, or met the standby controller of a single address; all
    attempts before were passed over. *)
Definition found (net : Net) (p : Params) (r : LoginResult) : Prop :=
  exists tr a,
    tried r = tr ++ [a]
    /\ (forall k x, tr !! k = Some x -> passedOver net p k x)
    /\ Attempts (loginInfo r) = length (tried r)
    /\ FailedCredentials (loginInfo r) = failedFrom net p 0 (tried r)
    /\ err r = None
    /\ WorkingCredentials (loginInfo r) = {[ at_user a := at_pass a ]}
    /\ ((outcome net p (length tr) a = Accepted (connection r)
         /\ ActiveIpAddress (loginInfo r) = at_ip a)
        \/ (outcome net p (length tr) a = Standby (connection r)
            /\ length (IpAddresses p) = 1
            /\ ActiveIpAddress (loginInfo r) = "")).

(** The whole matrix of attempts, in the order of the loops: for each
    credential map, for each of its entries, for each address that is not
    the empty string, as many attempts as the retry loop has iterations. *)
Definition matrix (p : Params) : list Attempt :=
  flat_map (fun credentials : Credential =>
    flat_map (fun entry : string * string =>
      flat_map (fun ip : string =>
        replicate (iterations (effectiveRetries p))
          {| at_ip := ip; at_user := fst entry; at_pass := snd entry |})
        (filter (fun ip : string => ip <> "") (IpAddresses p)))
      credentials)
    (Credentials p).

(** The pairs of a credential and an address that [Login] goes through,
    in the order of its loops: for each credential map, for each of its
    entries, each address that is not the empty string. *)
Definition pairs (p : Params) : list Attempt :=
  flat_map (fun credentials : Credential =>
    flat_map (fun entry : string * string =>
      map (fun ip : string =>
             {| at_ip := ip; at_user := fst entry; at_pass := snd entry |})
        (filter (fun ip : string => ip <> "") (IpAddresses p)))
      credentials)
    (Credentials p).

(** Attempt [k] ends the login: it is accepted, or it meets the standby
    controller of an asset with a single address. *)
Definition ends (net : Net) (p : Params) (k : nat) (a : Attempt) : bool :=
  match outcome net p k a with
  | Accepted _ => true
  | Standby _ => bool_decide (length (IpAddresses p) = 1)
  | Rejected => false
  end.

(** The search that the amended claim describes, written along the list
    of pairs and not as the loops of the source, with which the theorem
    of the claim compares it.

    [triesOn n k a] are the attempts on the pair [a], the first of which
    is attempt [k] of the login: the pair is tried again only after a
    rejected attempt, and [n] times at most; an attempt that is accepted
    or that meets a standby controller is the last one on the pair. The
    flag tells whether that last attempt ends the login. *)
Fixpoint triesOn (net : Net) (p : Params) (n k : nat) (a : Attempt)
  : list Attempt * bool :=
  match n with
  | O => ([], false)
  | S n' =>
      match outcome net p k a with
      | Rejected => let '(t, ended) := triesOn net p n' (S k) a in (a :: t, ended)
      | _ => ([a], ends net p k a)
      end
  end.

(** [search n k l] are the attempts of a search that goes through the
    pairs [l] in order, from attempt [k] on, with [n] tries for a pair; it
    stops at the attempt that ends the login. The flag tells whether
    there was one. *)
Fixpoint search (net : Net) (p : Params) (n k : nat) (l : list Attempt)
  : list Attempt * bool :=
  match l with
  | [] => ([], false)
  | a :: rest =>
      let '(t, ended) := triesOn net p n k a in
      if ended then (t, true)
      else let '(t', ended') := search net p n (k + length t) rest in (t ++ t', ended')
  end.

(** A loop of [Login] started in [st] makes the attempts of the search
    along the pairs [l], and leaves with a nil error exactly when that
    search has an attempt that ends the login. *)
Definition follows (net : Net) (p : Params) (n : nat) (l : list Attempt)
    (st : LoopState) (f : Flow LoopState LoginResult) : Prop :=
  match f with
  | Return r =>
      exists t, search net p n (length (made st)) l = (t, true)
                /\ tried r = made st ++ t /\ err r = None
  | Next st' =>
      exists t, search net p n (length (made st)) l = (t, false)
                /\ made st' = made st ++ t
                /\ Attempts (info st') = length (made st')
  end.

(** A loop started in [st] either leaves early with a result that was
    found, or goes on searching, having made the attempts [cover] asks for. *)
Definition outcomeOf (net : Net) (p : Params) (cover : list Attempt -> Prop)
    (st : LoopState) (f : Flow LoopState LoginResult) : Prop :=
  match f with
  | Return r => found net p r
  | Next st' => searching net p st' /\ made st ⊆ made st' /\ cover (made st')
  end.

End LoginTerms.

(** ** Vocabulary of the properties of [Apply] *)

Module ApplyTerms.

Import Cfgresources.

(** The section that a resource name of the catalog stands for is nil. *)
Definition sectionNil (c : ResourcesConfig) (resource : string) : bool :=
  if String.eqb resource "user" then bool_decide (User c = None)
  else if String.eqb resource "syslog" then bool_decide (Syslog c = None)
  else if String.eqb resource "ntp" then bool_decide (Ntp c = None)
  else if String.eqb resource "ldap" then bool_decide (Ldap c = None)
  else if String.eqb resource "ldap_group" then bool_decide (LdapGroups_ c = None)
  else if String.eqb resource "license" then bool_decide (License c = None)
  else if String.eqb resource "network" then bool_decide (Network c = None)
  else false.

(** Every section that [Apply] reads is nil. *)
Definition allNil (c : ResourcesConfig) : Prop :=
  User c = None /\ Syslog c = None /\ Ntp c = None /\ Ldap c = None
  /\ LdapGroups_ c = None /\ License c = None /\ Network c = None.

(** The same surroundings, with a stop channel that never fires. *)
Definition uninterrupted (env : Configure.ApplyEnv) : Configure.ApplyEnv :=
  {| Configure.interrupt := fun _ => false;
     Configure.GetExtraGroups := Configure.GetExtraGroups env |}.

End ApplyTerms.

(** ** Concrete devices, networks and configurations

    Small closed instances on which the definitions above are run. *)

Module Fixtures.

Import Devices.

Definition silent : Configure :=
  {| Resources := ["user"; "syslog"; "ntp"; "ldap"; "ldap_group"; "license"; "network"];
     answer := fun _ _ => None |}.

(** A device that refuses every [LdapGroups] call and accepts the rest. *)
Definition refusesLdapGroups : Configure :=
  {| Resources := Resources silent;
     answer := fun _ c =>
       match c with
       | CallLdapGroups _ _ => Some "ldap groups rejected"
       | _ => None
       end |}.

(** A device that refuses every [Ntp] call and accepts the rest. *)
Definition refusesNtp : Configure :=
  {| Resources := Resources silent;
     answer := fun _ c =>
       match c with
       | CallNtp _ => Some "ntp rejected"
       | _ => None
       end |}.

Definition chassis (active : bool) : Connection :=
  {| dynType := BmcChassis; CheckCredentials := None; IsActive := active;
     BmcType := "m1000e"; Vendor := "dell"; Serial := "CH4SS1S"; configure := silent |}.

Definition server : Connection :=
  {| dynType := Bmc; CheckCredentials := None; IsActive := true;
     BmcType := "idrac9"; Vendor := "dell"; Serial := "ABC123"; configure := silent |}.

(** No probe recognises the host. *)
Definition unreachable : Discover.ScanEnv :=
  {| Discover.bmclibTest := false;
     Discover.dummy := (None, None);
     Discover.httpBuild := None;
     Discover.devices := fun _ => (None, Some "no match") |}.

(** Only the probe [probeID] recognises the host, as [c]. *)
Definition recognised (probeID : string) (c : Connection) : Discover.ScanEnv :=
  {| Discover.bmclibTest := false;
     Discover.dummy := (None, None);
     Discover.httpBuild := None;
     Discover.devices := fun id =>
       if String.eqb id probeID then (Some c, None) else (None, Some "no match") |}.

(** A chassis with a standby controller at 10.0.0.1 and its active
    controller at 10.0.0.2. *)
Definition twoControllers : Bmclogin.Net :=
  fun _ ip _ _ =>
    if String.eqb ip "10.0.0.1" then recognised Discover.ProbeM1000e (chassis false)
    else if String.eqb ip "10.0.0.2" then recognised Discover.ProbeM1000e (chassis true)
    else unreachable.

(** A chassis whose only controller, at 10.0.0.1, reports itself standby. *)
Definition standbyOnly : Bmclogin.Net :=
  fun _ ip _ _ =>
    if String.eqb ip "10.0.0.1" then recognised Discover.ProbeM1000e (chassis false)
    else unreachable.

(** A chassis whose two controllers, at 10.0.0.1 and 10.0.0.2, both
    report themselves standby. *)
Definition twoStandby : Bmclogin.Net :=
  fun _ ip _ _ =>
    if String.eqb ip "10.0.0.1" then recognised Discover.ProbeM1000e (chassis false)
    else if String.eqb ip "10.0.0.2" then recognised Discover.ProbeM1000e (chassis false)
    else unreachable.

Definition nobody : Bmclogin.Net := fun _ _ _ _ => unreachable.

Definition admin : Bmclogin.Credential := [("admin", "pass")].

Definition params (ips : list string) (retries : Z) : Bmclogin.Params :=
  {| Bmclogin.IpAddresses := ips; Bmclogin.Credentials := [admin];
     Bmclogin.CheckCredential := true; Bmclogin.Retries := retries |}.

Definition noSections : Cfgresources.ResourcesConfig :=
  {| Cfgresources.User := None; Cfgresources.Syslog := None; Cfgresources.Ntp := None;
     Cfgresources.Ldap := None; Cfgresources.LdapGroups_ := None;
     Cfgresources.License := None; Cfgresources.Network := None;
     Cfgresources.SetupChassis := None |}.

Definition ldapSections : Cfgresources.ResourcesConfig :=
  {| Cfgresources.User := None; Cfgresources.Syslog := None;
     Cfgresources.Ntp := Some "ntp.example.com";
     Cfgresources.Ldap := Some "ldap.example.com";
     Cfgresources.LdapGroups_ := Some {| Cfgresources.Groups := ["cn=admins"] |};
     Cfgresources.License := None; Cfgresources.Network := None;
     Cfgresources.SetupChassis := None |}.

Definition anAsset (ips : list string) (location : string) : Asset.Asset :=
  {| Asset.IPAddresses := ips; Asset.IPAddress := "10.0.0.1"; Asset.Serial := "CH4SS1S";
     Asset.Vendor := "dell"; Asset.HardwareType := "m1000e"; Asset.Type_ := "chassis";
     Asset.Model := ""; Asset.Location := location; Asset.Setup := false;
     Asset.Configure := true; Asset.Execute := false; Asset.Extra := ∅ |}.

Definition cmc (device : Configure) (names : list string)
    (rendered : Cfgresources.ResourcesConfig) : Configure.Cmc :=
  {| Configure.asset := anAsset ["10.0.0.1"] "ams1"; Configure.resources := names;
     Configure.configure := device; Configure.config := rendered |}.

(** The stop channel fires before iteration [k] and not earlier. *)
Definition stoppedAt (k : nat) : Configure.ApplyEnv :=
  {| Configure.interrupt := fun i => bool_decide (k ≤ i)%nat;
     Configure.GetExtraGroups := fun lg _ _ => ("", None, lg) |}.

Definition neverStopped : Configure.ApplyEnv :=
  {| Configure.interrupt := fun _ => false;
     Configure.GetExtraGroups := fun lg _ _ => ("", None, lg) |}.

(** As [neverStopped], but the lookup of extra groups fails. *)
Definition lookupFails : Configure.ApplyEnv :=
  {| Configure.interrupt := fun _ => false;
     Configure.GetExtraGroups := fun lg _ _ => ("", Some "lookup failed", lg) |}.

Definition world (n : Bmclogin.Net) : Butler.World :=
  {| Butler.net := n; Butler.applyEnv := neverStopped;
     Butler.LoadConfigResources := fun _ _ => Some ldapSections;
     Butler.executeCommand := fun _ _ => None |}.

Definition butlerAt (locations : list string) (ignore stop : bool) : Butler.Butler :=
  {| Butler.Config_ :=
       {| Config.Locations := locations; Config.IgnoreLocation := ignore;
          Config.DryRun := false; Config.Credentials := [admin];
          Config.Resources := [] |};
     Butler.interrupt := stop |}.

Definition message (ips : list string) (location : string) : Butler.Msg :=
  {| Butler.Asset_ := anAsset ips location; Butler.AssetConfig := "";
     Butler.AssetSetup := ""; Butler.AssetExecute := "" |}.

Definition start : Butler.State :=
  {| Butler.metrics := ∅; Butler.log := []; Butler.invoked := [] |}.

End Fixtures.

(** * Further vocabulary and code *)

(** ** Vocabulary of the further properties of the prober *)

Module DiscoverTerms.

Import Discover.

(** The probe [probeID] does not end the scan: it returns an error, or it
    returns neither an error nor a connection and the hint callback takes
    its name. *)
Definition misses (env : ScanEnv) (opts : Options) (probeID : string) : Prop :=
  is_Some (snd (devices env probeID))
  \/ (devices env probeID = (None, None) /\ HintCallback opts probeID = None).

End DiscoverTerms.

(** ** Vocabulary of the further properties of [Login] *)

Module LoginMoreTerms.

Import Bmclogin.

(** The attempts made when a loop is left, either way. *)
Definition attemptsOf (f : Flow LoopState LoginResult) : list Attempt :=
  match f with
  | Next st => made st
  | Return r => tried r
  end.

End LoginMoreTerms.

(** ** The earlier revision of the chassis configurator

    The file of the chassis configurator holds two revisions of [Apply].
    The earlier one differs from the later one in the ["ldap_group"] case
    of the switch and in the log line that ends the function. *)

Module ConfigureEarlier.

Import Cfgresources Devices Configure.

Section Apply.

Variable env : ApplyEnv.
Variable b : Cmc.

(** [switch resource { ... }] of the earlier revision. *)
Definition applyResource (resource : string) (st : ApplyState)
  : option error * ApplyState :=
  if String.eqb resource "user" then applySection b (User (cfg st)) CallUser st
  else if String.eqb resource "syslog" then applySection b (Syslog (cfg st)) CallSyslog st
  else if String.eqb resource "ntp" then applySection b (Ntp (cfg st)) CallNtp st
  else if String.eqb resource "ldap" then applySection b (Ldap (cfg st)) CallLdap st
  else if String.eqb resource "ldap_group" then applyLdapGroupEarlier b st
  else if String.eqb resource "license" then
    applySection b (License (cfg st)) CallSetLicense st
  else if String.eqb resource "network" then
    applySection b (Network (cfg st)) CallNetwork st
  else (None, withLog Warn "Unknown resource." st).

Definition turn (resource : string) (st : ApplyState) : ApplyState :=
  let '(e, st1) := applyResource resource st in classify resource e st1.

Fixpoint applyLoop (i : nat) (resources : list string) (st : ApplyState)
  : ApplyState :=
  match resources with
  | [] => st
  | resource :: rest =>
      if interrupt env i then withLog Debug "Received interrupt." st
      else applyLoop (S i) rest (turn resource st)
  end.

(** The earlier revision ends with one log line, whatever failed. *)
Definition Apply : ApplyState :=
  withLog Debug "Chassis BMC configuration actions done."
    (applyLoop 0 (applyList b) (initialState b)).

End Apply.

End ConfigureEarlier.

(** ** Vocabulary of the further properties of [Apply] *)

Module ApplyMoreTerms.

Import Cfgresources Devices.

(** The resource that a call on the device configures. *)
Definition callResource (c : Call) : string :=
  match c with
  | CallUser _ => "user"
  | CallSyslog _ => "syslog"
  | CallNtp _ => "ntp"
  | CallLdap _ => "ldap"
  | CallLdapGroups _ _ => "ldap_group"
  | CallSetLicense _ => "license"
  | CallNetwork _ => "network"
  end.

Definition isLdapGroups (c : Call) : bool :=
  match c with
  | CallLdapGroups _ _ => true
  | _ => false
  end.

(** Of the calls [cs], made on [device] one after the other once the calls
    of [history] were made, those that the device answered with an error. *)
Fixpoint refusedFrom (device : Configure) (history cs : list Call) : list Call :=
  match cs with
  | [] => []
  | c :: cs' =>
      match answer device history c with
      | Some _ => c :: refusedFrom device (history ++ [c]) cs'
      | None => refusedFrom device (history ++ [c]) cs'
      end
  end.

(** What the switch does for [resource], from [st] to [st1] with [e] as
    the loop's [err]: it leaves the two lists alone, and it either makes no
    call and hands over nil, or makes one call for that resource and hands
    over the answer of the device. With [dropsLdapGroups], the answer to an
    [LdapGroups] call is not handed over. *)
Definition switched (dropsLdapGroups : bool) (device : Configure) (resource : string)
    (st : Configure.ApplyState) (e : option error) (st1 : Configure.ApplyState) : Prop :=
  Configure.success st1 = Configure.success st
  /\ Configure.failed st1 = Configure.failed st
  /\ ((Configure.calls st1 = Configure.calls st /\ e = None)
      \/ exists c,
           Configure.calls st1 = Configure.calls st ++ [c]
           /\ callResource c = resource
           /\ e = if dropsLdapGroups && isLdapGroups c then None
                  else answer device (Configure.calls st) c).

(** The failed list names, in order, the calls answered with an error. *)
Definition failedAreRefused (dropsLdapGroups : bool) (device : Configure)
    (st : Configure.ApplyState) : Prop :=
  Configure.failed st
  = map callResource
      (filter (fun c => dropsLdapGroups && isLdapGroups c = false)
         (refusedFrom device [] (Configure.calls st))).

(** Two states of [Apply] that differ at most in their log. *)
Definition sameButLog (st st' : Configure.ApplyState) : Prop :=
  Configure.success st = Configure.success st'
  /\ Configure.failed st = Configure.failed st'
  /\ Configure.calls st = Configure.calls st'
  /\ Configure.cfg st = Configure.cfg st'.

(** The resource names that the switch of [Apply] has a case for. *)
Definition caseNames : list string :=
  ["user"; "syslog"; "ntp"; "ldap"; "ldap_group"; "license"; "network"].

End ApplyMoreTerms.

(** ** Vocabulary of the further properties of the dispatcher *)

Module ButlerMoreTerms.

Import Butler.

(** The message passes the two filters of [msgHandler]: its asset has a
    usable address, and its location, if it has one, is managed or the
    locations are ignored. *)
Definition admitted (b : Butler) (msg : Msg) : Prop :=
  noIP (Asset.IPAddresses (Asset_ msg)) = false
  /\ (Asset.Location (Asset_ msg) = ""
      \/ Asset.Location (Asset_ msg) ∈ Config.Locations (Config_ b)
      \/ Config.IgnoreLocation (Config_ b) = true).

(** The counters by which [msgHandler] tells how it dealt with a message. *)
Definition outcomeKeys : list (list string) :=
  [ ["butler"; "asset_recvd_noip"];
    ["butler"; "asset_recvd_location_unmanaged"];
    ["butler"; "execute_fail"];
    ["butler"; "execute_success"];
    ["butler"; "configure_fail"];
    ["butler"; "configure_success"] ].

End ButlerMoreTerms.

(** ** [butler.Runner]

    The receive loop of the butler pool. What [select] hands to the loop
    is an explicit list of events, in the order in which the loop takes
    them; what the loop does to the worker pool and to the wait group is
    kept as a list of effects. A task handed to the pool is the closure
    [func() { b.msgHandler(msg) }]: it holds the message and the pointer
    [b], so it reads the interrupt flag that the butler has when the task
    runs. *)

Module ButlerRunner.

Import Butler.

Inductive Event :=
| Received (msg : Msg) (waits : nat)
  (** [msg, ok := <-b.ButlerChan] with [ok]; [waits] is the number of
      times the waiting queue of the pool is then found longer than the
      number of butlers *)
| ChannelClosed
  (** [msg, ok := <-b.ButlerChan] with [!ok] *)
| StopSignal.
  (** [<-b.StopChan] *)

Inductive Effect :=
| Submit (msg : Msg)   (** [b.WorkerPool.Submit(func() { b.msgHandler(msg) })] *)
| Stop                 (** [b.WorkerPool.Stop()] *)
| StopWait             (** [b.WorkerPool.StopWait()] *)
| Done.                (** [b.SyncWG.Done()] *)

Record RunnerState := {
  butler : Butler;
  log : Log;
  effects : list Effect;
}.

(** [for b.WorkerPool.WaitingQueueSize() > b.Config.ButlersToSpawn { ... }] *)
Fixpoint waitLoop (waits : nat) (l : Log) : Log :=
  match waits with
  | 0 => l
  | S n =>
      waitLoop n
        (logAt Trace "Waiting for workerpool queue size to drop below butler count" l)
  end.

(** [loop: for { select { ... } }]. With no event left the [select]
    blocks: the result is [None]. *)
Fixpoint loop (events : list Event) (rs : RunnerState) : option RunnerState :=
  match events with
  | [] => None
  | Received msg waits :: rest =>
      loop rest
        {| butler := butler rs; log := waitLoop waits (log rs);
           effects := effects rs ++ [Submit msg] |}
  | ChannelClosed :: _ =>
      Some {| butler := butler rs; log := logAt Trace "Butler channel closed." (log rs);
              effects := effects rs |}
  | StopSignal :: _ =>
      Some {| butler := {| Config_ := Config_ (butler rs); interrupt := true |};
              log := logAt Debug "Interrupt received." (log rs);
              effects := effects rs ++ [Stop] |}
  end.

Definition Runner (events : list Event) (b : Butler) : option RunnerState :=
  match loop events {| butler := b; log := []; effects := [] |} with
  | None => None
  | Some rs =>
      (* b.WorkerPool.StopWait(); the deferred b.SyncWG.Done() *)
      Some {| butler := butler rs; log := logAt Debug "All butlers exited." (log rs);
              effects := effects rs ++ [StopWait; Done] |}
  end.

End ButlerRunner.

(** ** Vocabulary of the properties of [Runner] *)

Module RunnerTerms.

Import Butler ButlerRunner.

Definition isReceived (e : Event) : bool :=
  match e with
  | Received _ _ => true
  | _ => false
  end.

(** The messages of the events, in order. *)
Definition messages (events : list Event) : list Msg :=
  flat_map (fun e => match e with Received msg _ => [msg] | _ => [] end) events.

End RunnerTerms.

From stdpp Require Import pretty.

(** ** Package [inventory]: the Dora inventory

    What the inventory meets outside the program is read from [Web]:
    - [Get n url] is what [http.Get(url)] returns as the request number
      [n] (from 0) of the run: the response, or nil, and the error;
    - [ReadAll] of a response is what [ioutil.ReadAll(resp.Body)] returns;
    - [Unmarshal body] is what [json.Unmarshal] leaves in a [DoraAsset]
      and returns;
    - [ToLower] is [strings.ToLower].
    The fields of [d.Config] that the inventory reads are kept in [Dora]
    itself. A [log...Fatal] ends the process before any deferred call; a
    nil pointer dereference panics, and deferred calls run. *)

Module Inventory.

Import Butler.

Record DoraAssetAttributes := {
  Serial : string;
  BmcAddress : string;
  Vendor : string;
  ScannedAddress : string;
  Site : string;
}.

Record DoraAssetData := { Attributes : DoraAssetAttributes }.

Record DoraLinks := { First : string; Last : string; Next_ : string }.

Record DoraAsset := { Data : list DoraAssetData; Links : DoraLinks }.

Record Response := {
  StatusCode : Z;
  ReadAll : string * option error;
}.

Record Web := {
  Get : nat -> string -> option Response * option error;
  Unmarshal : string -> DoraAsset * option error;
  ToLower : string -> string;
}.

Record Dora := {
  BatchSize : Z;
  URL : string;              (* d.Config.Inventory.Dora.URL *)
  Chassis : bool;            (* d.Config.FilterParams.Chassis *)
  Servers : bool;            (* d.Config.FilterParams.Servers *)
  Serials : string;          (* d.Config.FilterParams.Serials *)
  FilterAssetType : list string;
}.

(** The requests made so far, the log, the metrics, the batches sent over
    [d.AssetsChan] and whether that channel is closed. *)
Record State := {
  requests : list string;
  log : Log;
  metrics : Metrics;
  sent : list (list Asset.Asset);
  closed : bool;
}.

Inductive Outcome (A : Type) :=
| Returned (a : A)
| Exited (message : string)
| Panicked.
Arguments Returned {A} a.
Arguments Exited {A} message.
Arguments Panicked {A}.

Definition requested (url : string) (st : State) : State :=
  {| requests := requests st ++ [url]; log := log st; metrics := metrics st;
     sent := sent st; closed := closed st |}.

Definition logged (lv : Level) (msg : string) (st : State) : State :=
  {| requests := requests st; log := logAt lv msg (log st); metrics := metrics st;
     sent := sent st; closed := closed st |}.

Definition counted (key : list string) (n : nat) (st : State) : State :=
  {| requests := requests st; log := log st; metrics := IncrCounter key n (metrics st);
     sent := sent st; closed := closed st |}.

(** [d.AssetsChan <- assets] *)
Definition send (assets : list Asset.Asset) (st : State) : State :=
  {| requests := requests st; log := log st; metrics := metrics st;
     sent := sent st ++ [assets]; closed := closed st |}.

(** [close(d.AssetsChan)] *)
Definition close (st : State) : State :=
  {| requests := requests st; log := log st; metrics := metrics st;
     sent := sent st; closed := true |}.

Definition withLocation (site : string) (a : Asset.Asset) : Asset.Asset :=
  {| Asset.IPAddresses := Asset.IPAddresses a; Asset.IPAddress := Asset.IPAddress a;
     Asset.Serial := Asset.Serial a; Asset.Vendor := Asset.Vendor a;
     Asset.HardwareType := Asset.HardwareType a; Asset.Type_ := Asset.Type_ a;
     Asset.Model := Asset.Model a; Asset.Location := site;
     Asset.Setup := Asset.Setup a; Asset.Configure := Asset.Configure a;
     Asset.Execute := Asset.Execute a; Asset.Extra := Asset.Extra a |}.

(** [asset.Asset{IPAddress: item.Attributes.BmcAddress,
    Serial: item.Attributes.Serial, Vendor: item.Attributes.Vendor,
    Type: assetType}] *)
Definition fromItem (assetType : string) (item : DoraAssetData) : Asset.Asset :=
  {| Asset.IPAddresses := []; Asset.IPAddress := BmcAddress (Attributes item);
     Asset.Serial := Serial (Attributes item); Asset.Vendor := Vendor (Attributes item);
     Asset.HardwareType := ""; Asset.Type_ := assetType; Asset.Model := "";
     Asset.Location := ""; Asset.Setup := false; Asset.Configure := false;
     Asset.Execute := false; Asset.Extra := ∅ |}.

(** The path of an asset type in Dora: two of them are plural. *)
Definition path (assetType : string) : string :=
  if String.eqb assetType "blade" then "blades"
  else if String.eqb assetType "discrete" then "discretes"
  else assetType.

(** [for idx, inventoryAsset := range doraInventoryAssets { if
    scannedPortAsset.Attributes.ScannedAddress == inventoryAsset.IPAddress
    { doraInventoryAssets[idx].Location = scannedPortAsset.Attributes.Site } }] *)
Definition locate (scannedPortAsset : DoraAssetData) (assets : list Asset.Asset)
  : list Asset.Asset :=
  map (fun inventoryAsset =>
         if String.eqb (ScannedAddress (Attributes scannedPortAsset))
              (Asset.IPAddress inventoryAsset)
         then withLocation (Site (Attributes scannedPortAsset)) inventoryAsset
         else inventoryAsset) assets.

Section Dora.

Variable web : Web.
Variable d : Dora.

Definition get (url : string) (st : State) : option Response * option error * State :=
  (Get web (length (requests st)) url, requested url st).

(** The slice is updated in place: the assets on return are the second
    component of the result. *)
Definition setLocation (doraInventoryAssets : list Asset.Asset) (st : State)
  : Outcome (option error * list Asset.Asset) * State :=
  let queryURL :=
    URL d +:+ "/v1/scanned_ports?filter[port]=22&filter[ip]="
    +:+ String.concat "," (map Asset.IPAddress doraInventoryAssets) in
  let '(resp, err, st1) := get queryURL st in
  let refused := logged Warn "Unable to query Dora for IP location info." st1 in
  match err, resp with
  | Some e, Some _ => (Returned (Some e, doraInventoryAssets), refused)
  | Some _, None => (Panicked, st1)   (* resp.StatusCode, in the log fields *)
  | None, None => (Panicked, st1)     (* resp.StatusCode, in the condition *)
  | None, Some r =>
      if bool_decide (StatusCode r <> 200%Z) then
        (* return err, which is nil *)
        (Returned (None, doraInventoryAssets), refused)
      else
        let body := fst (ReadAll r) in
        let '(doraScannedPortAssets, err') := Unmarshal web body in
        match err' with
        | Some e =>
            (Returned (Some e, doraInventoryAssets),
             logged Warn "Unable to unmarshal Dora scanned IP info." st1)
        | None =>
            (Returned (None,
                       fold_left (fun assets scanned => locate scanned assets)
                         (Data doraScannedPortAssets) doraInventoryAssets),
             st1)
        end
  end.

(** The items of [AssetIterBySerial] that become assets: an item without
    address is logged and left out. *)
Fixpoint collectBySerial (assetType : string) (items : list DoraAssetData)
    (assets : list Asset.Asset) (st : State) : list Asset.Asset * State :=
  match items with
  | [] => (assets, st)
  | item :: rest =>
      if String.eqb (BmcAddress (Attributes item)) "" then
        collectBySerial assetType rest assets
          (logged Warn
             "Asset location could not be determined, since the asset has no IP." st)
      else collectBySerial assetType rest (assets ++ [fromItem assetType item]) st
  end.

(** The body of the loop of [AssetIterBySerial] over the asset types. *)
Definition bySerialTurn (assetType : string) (st : State)
  : Flow State (Outcome unit * State) :=
  let queryURL :=
    (URL d +:+ "/v1/" +:+ path assetType +:+ "?filter[serial]=")
    +:+ ToLower web (Serials d) in
  let '(resp, err, st1) := get queryURL st in
  match err, resp with
  | Some _, _ => Return (Exited "Failed to query dora for serial(s).", st1)
  | None, None => Return (Panicked, st1)   (* resp.Body *)
  | None, Some r =>
      let '(body, err1) := ReadAll r in
      match err1 with
      | Some _ => Return (Exited "Failed to query dora for serial(s).", st1)
      | None =>
          let '(doraAssets, err2) := Unmarshal web body in
          match err2 with
          | Some _ => Return (Exited "Unable to unmarshal data returned from dora.", st1)
          | None =>
              if bool_decide (length (Data doraAssets) = 0) then
                Next (logged Debug "Asset was not located in dora inventory." st1)
              else
                let st2 := logged Debug "Asset located in dora inventory." st1 in
                let '(assets, st3) := collectBySerial assetType (Data doraAssets) [] st2 in
                match setLocation assets st3 with
                | (Returned (Some _, _), st4) =>
                    Return (Returned tt,
                            logged Warn "Unable to determine location of assets." st4)
                | (Returned (None, assets'), st4) => Next (send assets' st4)
                | (Exited msg, st4) => Return (Exited msg, st4)
                | (Panicked, st4) => Return (Panicked, st4)
                end
          end
      end
  end.

Fixpoint bySerialLoop (types : list string) (st : State) : Outcome unit * State :=
  match types with
  | [] => (Returned tt, st)
  | assetType :: rest =>
      match bySerialTurn assetType st with
      | Next st' => bySerialLoop rest st'
      | Return r => r
      end
  end.

(** [defer close(d.AssetsChan)]: the channel is closed when the function
    returns and when it panics, not when the process exits. *)
Definition deferredClose (r : Outcome unit * State) : Outcome unit * State :=
  match r with
  | (Exited msg, st) => (Exited msg, st)
  | (o, st) => (o, close st)
  end.

Definition AssetIterBySerial (st : State) : Outcome unit * State :=
  deferredClose (bySerialLoop (FilterAssetType d) st).

(** The items of [AssetIter] that become assets: an item without address,
    or with the address 0.0.0.0, is logged, counted and left out. *)
Fixpoint collect (assetType : string) (items : list DoraAssetData)
    (assets : list Asset.Asset) (st : State) : list Asset.Asset * State :=
  match items with
  | [] => (assets, st)
  | item :: rest =>
      if String.eqb (BmcAddress (Attributes item)) ""
         || String.eqb (BmcAddress (Attributes item)) "0.0.0.0" then
        collect assetType rest assets
          (counted ["inventory"; "assets_noip_dora"] 1
             (logged Warn
                "Asset location could not be determined, since the asset has no IP." st))
      else collect assetType rest (assets ++ [fromItem assetType item]) st
  end.

(** The inner [for { ... }] of [AssetIter], which follows the pages of one
    asset type. The loop has no bound of its own: [fuel] bounds the number
    of its iterations, and [None] stands for a loop that is still running
    when the fuel is spent. *)
Fixpoint pages (fuel : nat) (assetType queryURL : string) (st : State)
  : option (Outcome unit * State) :=
  match fuel with
  | 0 => None
  | S fuel' =>
      let '(resp, err, st1) := get queryURL st in
      match err, resp with
      | Some _, _ => Some (Exited "Error querying Dora for assets.", st1)
      | None, None => Some (Panicked, st1)   (* resp.StatusCode *)
      | None, Some r =>
          if bool_decide (StatusCode r <> 200%Z) then
            Some (Exited "Error querying Dora for assets.", st1)
          else
            let '(body, err1) := ReadAll r in
            match err1 with
            | Some _ => Some (Exited "Error querying Dora for assets.", st1)
            | None =>
                let '(doraAssets, err2) := Unmarshal web body in
                match err2 with
                | Some _ =>
                    Some (Exited "Error unmarshaling data returned from Dora.", st1)
                | None =>
                    let st2 :=
                      counted ["inventory"; "assets_fetched_dora"]
                        (length (Data doraAssets)) st1 in
                    let '(assets, st3) := collect assetType (Data doraAssets) [] st2 in
                    match setLocation assets st3 with
                    | (Returned (Some _, _), st4) =>
                        (* continue: the same page is asked for again *)
                        pages fuel' assetType queryURL
                          (counted ["inventory"; "assets_nolocation_dora"] 1
                             (logged Warn
                                "Asset location could not be determined, ignoring assets"
                                st4))
                    | (Returned (None, assets'), st4) =>
                        let st5 :=
                          send assets'
                            (counted ["inventory"; "assets_returned_dora"]
                               (length assets') st4) in
                        if String.eqb (Next_ (Links doraAssets)) "" then
                          Some (Returned tt,
                                logged Info "Reached end of assets in dora" st5)
                        else
                          pages fuel' assetType (URL d +:+ Next_ (Links doraAssets)) st5
                    | (Exited msg, st4) => Some (Exited msg, st4)
                    | (Panicked, st4) => Some (Panicked, st4)
                    end
                end
            end
      end
  end.

(** The loop of [AssetIter] over the asset types; each type has [fuel]
    iterations for its pages. *)
Fixpoint iterLoop (fuel : nat) (types : list string) (st : State)
  : option (Outcome unit * State) :=
  match types with
  | [] => Some (Returned tt, st)
  | assetType :: rest =>
      let queryURL :=
        URL d +:+ "/v1/" +:+ path assetType +:+ "?page[offset]=" +:+ pretty 0%Z
        +:+ "&page[limit]=" +:+ pretty (BatchSize d) in
      match pages fuel assetType queryURL st with
      | Some (Returned _, st') => iterLoop fuel rest st'
      | other => other
      end
  end.

Definition AssetIter (fuel : nat) (st : State) : option (Outcome unit * State) :=
  option_map deferredClose (iterLoop fuel (FilterAssetType d) st).

End Dora.

End Inventory.

(** ** Vocabulary of the properties of the inventory *)

Module InventoryTerms.

Import Inventory.

(** The URL of the location lookup for a list of assets. *)
Definition locationURL (d : Dora) (assets : list Asset.Asset) : string :=
  URL d +:+ "/v1/scanned_ports?filter[port]=22&filter[ip]="
  +:+ String.concat "," (map Asset.IPAddress assets).

(** The URL of the first page of an asset type. *)
Definition firstPage (d : Dora) (assetType : string) : string :=
  URL d +:+ "/v1/" +:+ path assetType +:+ "?page[offset]=" +:+ pretty 0%Z
  +:+ "&page[limit]=" +:+ pretty (BatchSize d).

(** The site of the last entry of [scanned] for the address [ip]. *)
Fixpoint lastSite (scanned : list DoraAssetData) (ip : string) : option string :=
  match scanned with
  | [] => None
  | entry :: rest =>
      match lastSite rest ip with
      | Some site => Some site
      | None =>
          if String.eqb (ScannedAddress (Attributes entry)) ip
          then Some (Site (Attributes entry)) else None
      end
  end.

(** The asset with the location that [scanned] gives for its address, if
    it gives one. *)
Definition located (scanned : list DoraAssetData) (a : Asset.Asset) : Asset.Asset :=
  match lastSite scanned (Asset.IPAddress a) with
  | Some site => withLocation site a
  | None => a
  end.

(** [a'] is [a] but for its location. *)
Definition sameButLocation (a a' : Asset.Asset) : Prop :=
  a' = withLocation (Asset.Location a') a.

(** An asset as the iterators make it for the asset type [assetType]: it
    has that type and an address in [IPAddress], and nothing in
    [IPAddresses]. *)
Definition madeFor (assetType : string) (a : Asset.Asset) : Prop :=
  Asset.Type_ a = assetType /\ Asset.IPAddress a <> "" /\ Asset.IPAddresses a = [].

(** The answer to a location lookup is one that [setLocation] turns into
    an error: it holds a response, and either the request has an error,
    or the status is 200 and the body does not decode. *)
Definition lookupFails (web : Web) (answer : option Response * option error) : Prop :=
  exists r,
    fst answer = Some r
    /\ (snd answer <> None
        \/ (StatusCode r = 200%Z /\ snd (Unmarshal web (fst (ReadAll r))) <> None)).

(** The assets that [AssetIter] makes of the items of a page. *)
Definition usableItems (assetType : string) (items : list DoraAssetData)
  : list Asset.Asset :=
  map (fromItem assetType)
    (filter (fun item => BmcAddress (Attributes item) <> ""
                         /\ BmcAddress (Attributes item) <> "0.0.0.0") items).

(** An asset of one of the asset types [types], with an address other
    than 0.0.0.0. *)
Definition goodIn (types : list string) (a : Asset.Asset) : Prop :=
  exists assetType,
    assetType ∈ types /\ madeFor assetType a /\ Asset.IPAddress a <> "0.0.0.0".

Definition fetchedKey : list string := ["inventory"; "assets_fetched_dora"].
Definition noipKey : list string := ["inventory"; "assets_noip_dora"].
Definition nolocationKey : list string := ["inventory"; "assets_nolocation_dora"].
Definition returnedKey : list string := ["inventory"; "assets_returned_dora"].

(** From [st] to [st'], [AssetIter] has sent batches of assets of the
    types [types], has counted as returned the assets it has sent, and has
    counted as fetched at least the assets it has counted as returned or as
    without address. *)
Definition progress (types : list string) (st st' : State) : Prop :=
  exists batches,
    sent st' = sent st ++ batches
    /\ Forall (Forall (goodIn types)) batches
    /\ Butler.counter (metrics st') returnedKey
       = Butler.counter (metrics st) returnedKey + length (concat batches)
    /\ Butler.counter (metrics st') noipKey + Butler.counter (metrics st') returnedKey
       + Butler.counter (metrics st) fetchedKey
       <= Butler.counter (metrics st') fetchedKey + Butler.counter (metrics st) noipKey
          + Butler.counter (metrics st) returnedKey.

End InventoryTerms.

(** ** Sample answers of Dora *)

Module InventoryFixtures.

Import Inventory.

Definition dora : Dora :=
  {| BatchSize := 10; URL := "http://dora"; Chassis := false; Servers := false;
     Serials := ""; FilterAssetType := ["chassis"] |}.

Definition item (address serial : string) : DoraAssetData :=
  {| Attributes := {| Serial := serial; BmcAddress := address; Vendor := "dell";
                      ScannedAddress := ""; Site := "" |} |}.

Definition scannedAt (address site : string) : DoraAssetData :=
  {| Attributes := {| Serial := ""; BmcAddress := ""; Vendor := "";
                      ScannedAddress := address; Site := site |} |}.

Definition noLinks : DoraLinks := {| First := ""; Last := ""; Next_ := "" |}.

(** The body ["assets"] is a last page of four items, the body ["ports"]
    a list of scanned addresses; any other body is not JSON. *)
Definition decode (body : string) : DoraAsset * option error :=
  if String.eqb body "assets" then
    ({| Data := [item "10.0.0.1" "S1"; item "" "S2"; item "0.0.0.0" "S3";
                 item "10.0.0.4" "S4"];
        Links := noLinks |}, None)
  else if String.eqb body "ports" then
    ({| Data := [scannedAt "10.0.0.1" "ams1"; scannedAt "10.9.9.9" "fra3";
                 scannedAt "10.0.0.1" "lhr2"];
        Links := noLinks |}, None)
  else ({| Data := []; Links := noLinks |}, Some "invalid character").

Definition answer (status : Z) (body : string) : option Response :=
  Some {| StatusCode := status; ReadAll := (body, None) |}.

(** Dora answers the location lookups with [lookup] and the other
    requests with the page of assets. *)
Definition webWith (lookup : option Response * option error) : Web :=
  {| Get := fun _ url =>
       if String.prefix "http://dora/v1/scanned_ports" url then lookup
       else (answer 200 "assets", None);
     Unmarshal := decode;
     ToLower := fun s => s |}.

Definition web : Web := webWith (answer 200 "ports", None).

(** The location lookups are answered with status 500. *)
Definition webRefusing : Web := webWith (answer 500 "", None).

(** The location lookups come back with a response and an error. *)
Definition webFailing : Web := webWith (answer 500 "", Some "timeout").

(** The location lookups are answered with status 200 and a body that is
    not JSON. *)
Definition webGarbled : Web := webWith (answer 200 "<html>", None).

(** The location lookups fail and leave no response. *)
Definition webDown : Web := webWith (None, Some "connection refused").

Definition start : State :=
  {| requests := []; log := []; metrics := ∅; sent := []; closed := false |}.

Definition assetAt (address : string) : Asset.Asset :=
  fromItem "chassis" (item address "S1").

End InventoryFixtures.

(** * Properties *)

(** ** The discovery prober *)

Section DiscoverFacts.

Import Discover.

Lemma swap0_head (order : list string) : swap0 order 0 = order.
Proof.
  unfold swap0. destruct order as [|x l]; reflexivity.
Qed.

Lemma swap0_middle (x hint : string) (l1 l2 : list string) :
  swap0 (x :: l1 ++ hint :: l2) (S (length l1)) = hint :: l1 ++ x :: l2.
Proof.
  unfold swap0. simpl.
  rewrite (list_lookup_middle l1 l2 hint (length l1) eq_refl). simpl.
  f_equal.
  replace (length l1) with (length l1 + 0) at 1 by lia.
  rewrite insert_app_r. reflexivity.
Qed.

(** The loop stops at the first index that holds the hint. *)
Lemma swapProbeFrom_first (pre post : list nat) (k : nat) (order : list string)
    (hint : string) :
  (forall j, j ∈ pre -> order !! j <> Some hint) ->
  order !! k = Some hint ->
  swapProbeFrom (pre ++ k :: post) order hint = swap0 order k.
Proof.
  intros Hpre Hk. induction pre as [|j pre IH]; simpl.
  - rewrite bool_decide_eq_true_2 by exact Hk. reflexivity.
  - rewrite bool_decide_eq_false_2 by (apply Hpre; left).
    apply IH. intros j' Hj'. apply Hpre. right. exact Hj'.
Qed.

Lemma swapProbeFrom_absent (idx : list nat) (order : list string) (hint : string) :
  hint ∉ order -> swapProbeFrom idx order hint = order.
Proof.
  intros Hno. induction idx as [|i idx IH]; simpl; [reflexivity|].
  rewrite bool_decide_eq_false_2; [exact IH|].
  intros Hi. apply Hno. eapply list_elem_of_lookup_2. exact Hi.
Qed.

Lemma swapProbe_absent (order : list string) (hint : string) :
  hint ∉ order -> swapProbe order hint = order.
Proof. apply swapProbeFrom_absent. Qed.

Lemma swapProbe_at_head (hint : string) (l : list string) :
  swapProbe (hint :: l) hint = hint :: l.
Proof.
  unfold swapProbe. simpl. rewrite bool_decide_eq_true_2 by reflexivity.
  reflexivity.
Qed.

(** The hint and the first probe change places; nothing else moves. *)
Lemma swapProbe_exchange (x hint : string) (l1 l2 : list string) :
  hint <> x -> hint ∉ l1 ->
  swapProbe (x :: l1 ++ hint :: l2) hint = hint :: l1 ++ x :: l2.
Proof.
  intros Hx Hl1. unfold swapProbe.
  replace (length (x :: l1 ++ hint :: l2)) with (S (length l1) + S (length l2))
    by (simpl; rewrite length_app; simpl; lia).
  rewrite seq_app. change (seq (0 + S (length l1)) (S (length l2)))
    with (S (length l1) :: seq (S (S (length l1))) (length l2)).
  rewrite swapProbeFrom_first.
  - apply swap0_middle.
  - intros j Hj. apply elem_of_seq in Hj. destruct j as [|j]; simpl.
    + congruence.
    + intros Hlk. rewrite lookup_app_l in Hlk by lia.
      apply Hl1. eapply list_elem_of_lookup_2. exact Hlk.
  - simpl. apply list_lookup_middle. reflexivity.
Qed.

Lemma swapProbe_Permutation (order : list string) (hint : string) :
  swapProbe order hint ≡ₚ order.
Proof.
  destruct (decide (hint ∈ order)) as [Hin|Hno].
  - apply list_elem_of_split_l in Hin as (l1 & l2 & -> & Hl1).
    destruct l1 as [|x l1]; simpl.
    + rewrite swapProbe_at_head. reflexivity.
    + rewrite swapProbe_exchange.
      * rewrite <- !Permutation_middle. apply perm_swap.
      * intros ->. apply Hl1. left.
      * intros H. apply Hl1. right. exact H.
  - rewrite swapProbe_absent by exact Hno. reflexivity.
Qed.

Lemma swapProbe_hint_first (order : list string) (hint : string) :
  hint ∈ order -> head (swapProbe order hint) = Some hint.
Proof.
  intros Hin. apply list_elem_of_split_l in Hin as (l1 & l2 & -> & Hl1).
  destruct l1 as [|x l1]; simpl.
  - rewrite swapProbe_at_head. reflexivity.
  - rewrite swapProbe_exchange; [reflexivity| |].
    + intros ->. apply Hl1. left.
    + intros H. apply Hl1. right. exact H.
Qed.

(** A probe that returns an error is passed over. *)
Lemma probeLoop_skip (env : ScanEnv) (opts : Options) (probeID : string)
    (rest done : list string) :
  is_Some (snd (devices env probeID)) ->
  probeLoop env opts (probeID :: rest) done = probeLoop env opts rest (done ++ [probeID]).
Proof.
  intros [e He]. simpl. destruct (devices env probeID) as [conn e']. simpl in He.
  subst e'. reflexivity.
Qed.

(** Every probe of [order] is run, in order, when all of them fail. *)
Lemma probeLoop_all_fail (env : ScanEnv) (opts : Options) (order done : list string) :
  (forall probeID, probeID ∈ order -> is_Some (snd (devices env probeID))) ->
  probeLoop env opts order done =
    {| bmcConnection := None; err := Some ErrVendorUnknown; probed := done ++ order |}.
Proof.
  revert done. induction order as [|probeID rest IH]; intros done Hall.
  - simpl. rewrite app_nil_r. reflexivity.
  - rewrite probeLoop_skip by (apply Hall; left).
    rewrite IH by (intros q Hq; apply Hall; right; exact Hq).
    rewrite <- app_assoc. reflexivity.
Qed.




End DiscoverFacts.

(** ** The chassis configuration apply engine *)

Section ApplyFacts.

Import Cfgresources Devices Configure ApplyTerms.

Variable env : ApplyEnv.
Variable b : Cmc.

Ltac by_resource resource :=
  repeat match goal with
    | |- context [String.eqb resource ?s] => destruct (String.eqb resource s) eqn:?
    end.

Ltac by_ldap_group st :=
  destruct (LdapGroups_ (cfg st)) as [lg|] eqn:Hlg, (Ldap (cfg st)) as [ldap|] eqn:Hldap;
  simpl;
  try match goal with
    | |- context [GetExtraGroups ?e ?l ?s ?v] =>
        destruct (GetExtraGroups e l s v) as [[o [innerErr|]] lg']
    end;
  simpl.

Lemma applySection_frame (section : option Section_) (mk : Section_ -> Call)
    (st : ApplyState) :
  success (snd (applySection b section mk st)) = success st
  /\ failed (snd (applySection b section mk st)) = failed st
  /\ cfg (snd (applySection b section mk st)) = cfg st.
Proof. destruct section; simpl; auto. Qed.

(** The switch leaves the two outcome lists alone. *)
Lemma applyResource_lists (resource : string) (st : ApplyState) :
  success (snd (applyResource env b resource st)) = success st
  /\ failed (snd (applyResource env b resource st)) = failed st.
Proof.
  unfold applyResource. by_resource resource;
    try match goal with
      | |- context [applySection b ?s ?mk st] =>
          destruct (applySection_frame s mk st) as (? & ? & ?); split; assumption
      end.
  - by_ldap_group st; auto.
  - simpl. auto.
Qed.

(** The switch never turns a section into nil or a nil section into one. *)
Lemma applyResource_sectionNil (resource r : string) (st : ApplyState) :
  sectionNil (cfg (snd (applyResource env b resource st))) r = sectionNil (cfg st) r.
Proof.
  unfold applyResource. by_resource resource;
    try match goal with
      | |- context [applySection b ?s ?mk st] =>
          destruct (applySection_frame s mk st) as (_ & _ & ->); reflexivity
      end.
  - by_ldap_group st; try reflexivity; unfold sectionNil; simpl; rewrite Hlg; reflexivity.
  - reflexivity.
Qed.

(** A resource whose section is nil is passed over: no call is made on the
    device and the loop's [err] stays nil. *)
Lemma applyResource_nil (resource : string) (st : ApplyState) :
  sectionNil (cfg st) resource = true ->
  applyResource env b resource st = (None, st).
Proof.
  unfold sectionNil, applyResource. by_resource resource; intros Hnil;
    try discriminate Hnil;
    apply bool_decide_eq_true_1 in Hnil; rewrite Hnil; reflexivity.
Qed.

(** The switch hands an error to the loop only for a section that is there. *)
Lemma applyResource_error (resource : string) (st : ApplyState) (e : error) :
  fst (applyResource env b resource st) = Some e ->
  sectionNil (cfg st) resource = false.
Proof.
  destruct (sectionNil (cfg st) resource) eqn:Hnil; [|reflexivity].
  rewrite applyResource_nil by exact Hnil. discriminate.
Qed.

(** The ["ldap_group"] case never hands an error to the loop. *)
Lemma applyResource_ldap_group (st : ApplyState) :
  fst (applyResource env b "ldap_group" st) = None.
Proof.
  unfold applyResource. simpl. by_ldap_group st; reflexivity.
Qed.

Lemma classify_lists (resource : string) (e : option error) (st : ApplyState) :
  success (classify resource e st)
    = match e with Some _ => success st | None => success st ++ [resource] end
  /\ failed (classify resource e st)
    = match e with Some _ => failed st ++ [resource] | None => failed st end
  /\ calls (classify resource e st) = calls st
  /\ cfg (classify resource e st) = cfg st.
Proof. destruct e; simpl; auto. Qed.

Lemma turn_unfold (resource : string) (st : ApplyState) :
  turn env b resource st
  = classify resource (fst (applyResource env b resource st))
      (snd (applyResource env b resource st)).
Proof.
  unfold turn. destruct (applyResource env b resource st) as [e st1]. reflexivity.
Qed.

Lemma applyLoop_cons (i : nat) (resource : string) (rest : list string)
    (st : ApplyState) :
  applyLoop env b i (resource :: rest) st =
    if interrupt env i then withLog Debug "Received interrupt." st
    else applyLoop env b (S i) rest (turn env b resource st).
Proof. reflexivity. Qed.

Lemma turn_sectionNil (resource r : string) (st : ApplyState) :
  sectionNil (cfg (turn env b resource st)) r = sectionNil (cfg st) r.
Proof.
  rewrite turn_unfold. destruct (classify_lists resource
    (fst (applyResource env b resource st)) (snd (applyResource env b resource st)))
    as (_ & _ & _ & ->).
  apply applyResource_sectionNil.
Qed.

Lemma turn_success (resource : string) (st : ApplyState) :
  success (turn env b resource st)
    = match fst (applyResource env b resource st) with
      | Some _ => success st
      | None => success st ++ [resource]
      end.
Proof.
  rewrite turn_unfold. destruct (classify_lists resource
    (fst (applyResource env b resource st)) (snd (applyResource env b resource st)))
    as (-> & _). destruct (applyResource_lists resource st) as [-> _]. reflexivity.
Qed.

Lemma turn_failed (resource : string) (st : ApplyState) :
  failed (turn env b resource st)
    = match fst (applyResource env b resource st) with
      | Some _ => failed st ++ [resource]
      | None => failed st
      end.
Proof.
  rewrite turn_unfold. destruct (classify_lists resource
    (fst (applyResource env b resource st)) (snd (applyResource env b resource st)))
    as (_ & -> & _). destruct (applyResource_lists resource st) as [_ ->]. reflexivity.
Qed.

Lemma applyLoop_sectionNil (i : nat) (resources : list string) (st : ApplyState)
    (r : string) :
  sectionNil (cfg (applyLoop env b i resources st)) r = sectionNil (cfg st) r.
Proof.
  revert i st. induction resources as [|resource rest IH]; intros i st.
  - reflexivity.
  - rewrite applyLoop_cons. destruct (interrupt env i); [reflexivity|].
    rewrite IH. apply turn_sectionNil.
Qed.

(** Whatever is recorded as failed had its section in the configuration. *)
Lemma applyLoop_failed_present (i : nat) (resources : list string) (st : ApplyState) :
  (forall r, r ∈ failed st -> sectionNil (cfg st) r = false) ->
  forall r, r ∈ failed (applyLoop env b i resources st) -> sectionNil (cfg st) r = false.
Proof.
  revert i st. induction resources as [|resource rest IH]; intros i st Hst r.
  - apply Hst.
  - rewrite applyLoop_cons. destruct (interrupt env i); [apply Hst|].
    intros Hr. rewrite <- (turn_sectionNil resource r st).
    apply (IH (S i) (turn env b resource st)); [|exact Hr].
    intros r' Hr'. rewrite turn_sectionNil. rewrite turn_failed in Hr'.
    destruct (fst (applyResource env b resource st)) as [e|] eqn:He.
    + apply elem_of_app in Hr' as [Hr'|Hr'].
      * apply Hst, Hr'.
      * apply list_elem_of_singleton in Hr'. subst r'.
        eapply applyResource_error. exact He.
    + apply Hst, Hr'.
Qed.

(** What is in one of the lists stays there. *)
Lemma applyLoop_success_mono (i : nat) (resources : list string) (st : ApplyState)
    (r : string) :
  r ∈ success st -> r ∈ success (applyLoop env b i resources st).
Proof.
  revert i st. induction resources as [|resource rest IH]; intros i st Hr.
  - exact Hr.
  - rewrite applyLoop_cons. destruct (interrupt env i); [exact Hr|].
    apply IH. rewrite turn_success.
    destruct (fst (applyResource env b resource st)); [exact Hr|].
    apply elem_of_app. left. exact Hr.
Qed.

(** Without an interrupt, a resource of the list whose section is nil ends
    up in [success]. *)
Lemma applyLoop_nil_succeeds (i : nat) (resources : list string) (st : ApplyState)
    (r : string) :
  (forall j, interrupt env j = false) ->
  r ∈ resources -> sectionNil (cfg st) r = true ->
  r ∈ success (applyLoop env b i resources st).
Proof.
  intros Hrun. revert i st.
  induction resources as [|resource rest IH]; intros i st Hin Hnil.
  - inversion Hin.
  - rewrite applyLoop_cons, Hrun.
    apply elem_of_cons in Hin as [->|Hin].
    + apply applyLoop_success_mono. rewrite turn_success.
      rewrite applyResource_nil by exact Hnil. simpl.
      apply elem_of_app. right. left.
    + apply IH; [exact Hin|]. rewrite turn_sectionNil. exact Hnil.
Qed.

Lemma allNil_turn (resource : string) (st : ApplyState) :
  allNil (cfg st) ->
  success (turn env b resource st) = success st ++ [resource]
  /\ failed (turn env b resource st) = failed st
  /\ calls (turn env b resource st) = calls st
  /\ cfg (turn env b resource st) = cfg st.
Proof.
  intros (HU & HS & HN & HL & HG & HLi & HNe).
  assert (Hstep : exists l, applyResource env b resource st
                            = (None, {| success := success st; failed := failed st;
                                        calls := calls st; log := l; cfg := cfg st |})).
  { unfold applyResource. rewrite HU, HS, HN, HL, HG, HLi, HNe.
    destruct st as [su fa ca lo cf]. simpl.
    by_resource resource; eexists; reflexivity. }
  destruct Hstep as [l Hstep]. rewrite turn_unfold, Hstep. simpl. auto.
Qed.

(** With every section nil, each turn of the loop appends the resource to
    [success] and does nothing else to the lists or to the device. *)
Lemma applyLoop_allNil (i : nat) (resources : list string) (st : ApplyState) :
  (forall j, interrupt env j = false) -> allNil (cfg st) ->
  success (applyLoop env b i resources st) = success st ++ resources
  /\ failed (applyLoop env b i resources st) = failed st
  /\ calls (applyLoop env b i resources st) = calls st.
Proof.
  intros Hrun. revert i st.
  induction resources as [|resource rest IH]; intros i st Hnil.
  - simpl. rewrite app_nil_r. auto.
  - rewrite applyLoop_cons, Hrun.
    destruct (allNil_turn resource st Hnil) as (Hs & Hf & Hc & Hcfg).
    destruct (IH (S i) (turn env b resource st)) as (Hs' & Hf' & Hc').
    { rewrite Hcfg. exact Hnil. }
    rewrite Hs', Hf', Hc', Hs, Hf, Hc, <- app_assoc. auto.
Qed.

(** The lists of [Apply] are those the loop leaves. *)
Lemma Apply_lists :
  success (Apply env b) = success (applyLoop env b 0 (applyList b) (initialState b))
  /\ failed (Apply env b) = failed (applyLoop env b 0 (applyList b) (initialState b))
  /\ calls (Apply env b) = calls (applyLoop env b 0 (applyList b) (initialState b)).
Proof. unfold Apply. destruct (bool_decide _); simpl; auto. Qed.

End ApplyFacts.

Section ApplyClaims.

Import Cfgresources Devices Configure ApplyTerms.

Lemma applyLoop_ldap_group (env : ApplyEnv) (b : Cmc) (i : nat)
    (resources : list string) (st : ApplyState) :
  "ldap_group" ∉ failed st -> "ldap_group" ∉ failed (applyLoop env b i resources st).
Proof.
  revert i st. induction resources as [|resource rest IH]; intros i st Hst.
  - exact Hst.
  - rewrite applyLoop_cons. destruct (interrupt env i); [exact Hst|].
    apply IH. rewrite turn_failed.
    destruct (fst (applyResource env b resource st)) as [e|] eqn:He; [|exact Hst].
    intros Hin. apply elem_of_app in Hin as [Hin|Hin]; [exact (Hst Hin)|].
    apply list_elem_of_singleton in Hin. subst resource.
    rewrite applyResource_ldap_group in He. discriminate He.
Qed.

(** Whatever the device answers to [LdapGroups], [Apply] never records
    ["ldap_group"] as failed. *)
Lemma ldap_group_never_failed (env : ApplyEnv) (b : Cmc) :
  "ldap_group" ∉ failed (Apply env b).
Proof.
  destruct (Apply_lists env b) as (_ & -> & _).
  apply applyLoop_ldap_group. simpl. apply not_elem_of_nil.
Qed.

(** The loop stops at the first iteration that sees the interrupt: what it
    leaves is what the uninterrupted loop leaves on the resources before. *)
Lemma applyLoop_interrupted (env : ApplyEnv) (b : Cmc) (pre : list string)
    (resource : string) (post : list string) :
  forall (i : nat) (st : ApplyState),
  (forall j, j < length pre -> interrupt env (i + j) = false) ->
  interrupt env (i + length pre) = true ->
  applyLoop env b i (pre ++ resource :: post) st
  = withLog Debug "Received interrupt." (applyLoop (uninterrupted env) b i pre st).
Proof.
  induction pre as [|a pre IH]; intros i st Hrun Hstop.
  - simpl in *. rewrite Nat.add_0_r in Hstop. rewrite Hstop. reflexivity.
  - change ((a :: pre) ++ resource :: post) with (a :: (pre ++ resource :: post)).
    rewrite applyLoop_cons.
    assert (H0 : interrupt env i = false).
    { rewrite <- (Nat.add_0_r i). apply Hrun. simpl. lia. }
    rewrite H0.
    change (applyLoop (uninterrupted env) b i (a :: pre) st)
      with (applyLoop (uninterrupted env) b (S i) pre (turn env b a st)).
    apply IH.
    + intros j Hj. replace (S i + j) with (i + S j) by lia. apply Hrun. simpl. lia.
    + replace (S i + length pre) with (i + length (a :: pre)) by (simpl; lia).
      exact Hstop.
Qed.

(** Without an interrupt every resource of the list lands in exactly one
    of the two lists. *)
Lemma applyLoop_partition (env : ApplyEnv) (b : Cmc) (resources : list string) :
  forall (i : nat) (st : ApplyState),
  (forall j, interrupt env j = false) ->
  success (applyLoop env b i resources st) ++ failed (applyLoop env b i resources st)
  ≡ₚ (success st ++ failed st) ++ resources.
Proof.
  induction resources as [|resource rest IH]; intros i st Hrun.
  - simpl. rewrite app_nil_r. reflexivity.
  - rewrite applyLoop_cons, Hrun, IH by exact Hrun.
    rewrite turn_success, turn_failed.
    destruct (fst (applyResource env b resource st)); solve_Permutation.
Qed.

(** C1, as stated, fails: with every section nil, the resource ["ntp"] of
    the apply list is recorded as succeeded, and the succeeded list is not
    empty. *)
Lemma nil_section_counterexample :
  allNil Fixtures.noSections
  /\ sectionNil Fixtures.noSections "ntp" = true
  /\ "ntp" ∈ success (Apply Fixtures.neverStopped
                        (Fixtures.cmc Fixtures.silent ["ntp"] Fixtures.noSections))
  /\ success (Apply Fixtures.neverStopped
                (Fixtures.cmc Fixtures.silent ["ntp"] Fixtures.noSections)) <> [].
Proof.
  assert (H : success (Apply Fixtures.neverStopped
                         (Fixtures.cmc Fixtures.silent ["ntp"] Fixtures.noSections))
              = ["ntp"]) by (vm_compute; reflexivity).
  rewrite H. repeat split; try reflexivity; try discriminate. left.
Qed.

(** C1 (amended): a resource of the apply list whose section is nil is
    passed over without a call on the device and is never recorded as
    failed; when the loop is not interrupted it is recorded as succeeded.
    In particular, for a configuration in which every section is nil and
    a loop that is not interrupted, no call is made on the device, the
    failed list is empty and the succeeded list is the apply list. *)
Theorem nil_section_passed_over (env : ApplyEnv) (b : Cmc) :
  (forall resource st,
      sectionNil (cfg st) resource = true ->
      applyResource env b resource st = (None, st))
  /\ (forall resource,
      sectionNil (config b) resource = true -> resource ∉ failed (Apply env b))
  /\ ((forall j, interrupt env j = false) ->
      (forall resource,
          resource ∈ applyList b -> sectionNil (config b) resource = true ->
          resource ∈ success (Apply env b))
      /\ (allNil (config b) ->
          success (Apply env b) = applyList b
          /\ failed (Apply env b) = []
          /\ calls (Apply env b) = [])).
Proof.
  destruct (Apply_lists env b) as (Hs & Hf & Hc). rewrite Hs, Hf, Hc.
  split; [|split].
  - intros resource st. apply applyResource_nil.
  - intros resource Hnil Hin.
    apply (applyLoop_failed_present env b 0 (applyList b) (initialState b)) in Hin.
    + simpl in Hin. congruence.
    + intros r Hr. inversion Hr.
  - intros Hrun. split.
    + intros resource Hin Hnil. apply applyLoop_nil_succeeds; assumption.
    + intros Hnil.
      destruct (applyLoop_allNil env b 0 (applyList b) (initialState b) Hrun Hnil)
        as (-> & -> & ->). auto.
Qed.

Lemma nil_section_passed_over_witness :
  let b := Fixtures.cmc Fixtures.silent ["ntp"; "ldap_group"] Fixtures.noSections in
  ("ntp" ∉ failed (Apply Fixtures.neverStopped b))
  /\ ("ntp" ∈ success (Apply Fixtures.neverStopped b))
  /\ success (Apply Fixtures.neverStopped b) = ["ntp"; "ldap_group"]
  /\ failed (Apply Fixtures.neverStopped b) = []
  /\ calls (Apply Fixtures.neverStopped b) = [].
Proof.
  intros b.
  destruct (nil_section_passed_over Fixtures.neverStopped b) as (_ & Hfailed & Hrun).
  destruct Hrun as [Hsucc Hall]; [reflexivity|].
  split; [apply Hfailed; reflexivity|].
  split; [apply Hsucc; [left | reflexivity]|].
  apply Hall. repeat split.
Defined.

(** C6, at the failing input: both sections are present, the lookup of
    extra groups succeeds and the device answers the [LdapGroups] call
    with an error; [Apply] records ["ldap_group"] as succeeded and
    nothing as failed. *)
Theorem ldap_group_error_not_recorded :
  let b := Fixtures.cmc Fixtures.refusesLdapGroups ["ldap_group"] Fixtures.ldapSections in
  let out := Apply Fixtures.neverStopped b in
  calls out = [CallLdapGroups ["cn=admins"] "ldap.example.com"]
  /\ answer (configure b) [] (CallLdapGroups ["cn=admins"] "ldap.example.com")
     = Some "ldap groups rejected"
  /\ success out = ["ldap_group"]
  /\ failed out = [].
Proof. vm_compute. repeat split. Qed.

(** C7: when the interrupt is first seen at the top of the iteration for
    resource [k] (here the resource that follows [pre]), the lists and the
    calls made are those of the uninterrupted loop over the resources
    before it, and the two lists hold those resources and nothing else. *)
Theorem interrupt_stops_apply (env : ApplyEnv) (b : Cmc) (pre : list string)
    (resource : string) (post : list string) :
  applyList b = pre ++ resource :: post ->
  (forall j, j < length pre -> interrupt env j = false) ->
  interrupt env (length pre) = true ->
  let out := Apply env b in
  let before := applyLoop (uninterrupted env) b 0 pre (initialState b) in
  success out = success before
  /\ failed out = failed before
  /\ calls out = calls before
  /\ success out ++ failed out ≡ₚ pre.
Proof.
  intros Hlist Hrun Hstop out before. subst out before.
  destruct (Apply_lists env b) as (-> & -> & ->). rewrite Hlist.
  rewrite (applyLoop_interrupted env b pre resource post 0 (initialState b))
    by assumption.
  simpl. repeat split.
  rewrite (applyLoop_partition (uninterrupted env) b pre 0 (initialState b))
    by reflexivity.
  reflexivity.
Qed.

Lemma interrupt_stops_apply_witness :
  let b := Fixtures.cmc Fixtures.refusesNtp ["ldap"; "ntp"; "ldap_group"; "user"]
             Fixtures.ldapSections in
  success (Apply (Fixtures.stoppedAt 2) b) = ["ldap"]
  /\ failed (Apply (Fixtures.stoppedAt 2) b) = ["ntp"]
  /\ calls (Apply (Fixtures.stoppedAt 2) b)
     = [CallLdap "ldap.example.com"; CallNtp "ntp.example.com"]
  /\ success (Apply (Fixtures.stoppedAt 2) b) ++ failed (Apply (Fixtures.stoppedAt 2) b)
     ≡ₚ ["ldap"; "ntp"].
Proof.
  intros b.
  apply (interrupt_stops_apply (Fixtures.stoppedAt 2) b ["ldap"; "ntp"] "ldap_group" ["user"]).
  - reflexivity.
  - intros j Hj. simpl in Hj. apply bool_decide_eq_false_2. lia.
  - reflexivity.
Defined.

End ApplyClaims.

(** ** The login engine *)

Section LoginFacts.

Import Devices Bmclogin LoginTerms.

Variable net : Net.
Variable p : Params.

Abbreviation attempt ip user pass := {| at_ip := ip; at_user := user; at_pass := pass |}.

(** [ipInactive] is only ever returned with a connection and a nil error. *)
Lemma attemptLogin_inactive (k : nat) (ip user pass : string)
    (conn : option Connection) (e : option error) :
  attemptLogin net p k ip user pass = (conn, true, e) -> e = None.
Proof.
  unfold attemptLogin.
  destruct (Discover.err _); [intros [= _ _]; discriminate|].
  destruct (negb (CheckCredential p)); [discriminate|].
  destruct (Discover.bmcConnection _) as [c|]; [|discriminate].
  destruct (dynType c); destruct (CheckCredentials c); try discriminate.
  destruct (negb (IsActive c)); [|discriminate].
  intros [= _ <-]. reflexivity.
Qed.

(** With the credential check on, a standby chassis controller that takes
    the credentials is reported as inactive. *)
Lemma attemptLogin_standby (k : nat) (ip user pass : string) (c : Connection) :
  CheckCredential p = true ->
  finds net k (attempt ip user pass) c -> chassisController c false ->
  attemptLogin net p k ip user pass = (Some c, true, None).
Proof.
  intros Hcheck [Hconn Herr] (Hty & Hcred & Hact). simpl in Hconn, Herr.
  unfold attemptLogin. rewrite Herr, Hcheck, Hconn, Hty, Hcred, Hact. reflexivity.
Qed.

(** The active controller that takes the credentials is accepted. *)
Lemma attemptLogin_active (k : nat) (ip user pass : string) (c : Connection) :
  CheckCredential p = true ->
  finds net k (attempt ip user pass) c -> chassisController c true ->
  attemptLogin net p k ip user pass = (Some c, false, None).
Proof.
  intros Hcheck [Hconn Herr] (Hty & Hcred & Hact). simpl in Hconn, Herr.
  unfold attemptLogin. rewrite Herr, Hcheck, Hconn, Hty, Hcred, Hact. reflexivity.
Qed.

Lemma iterations_positive :
  (0 <= Retries p)%Z ->
  iterations (effectiveRetries p) = S (Z.to_nat (effectiveRetries p)).
Proof.
  intros Hpos. unfold iterations, effectiveRetries.
  destruct (bool_decide (Retries p = 0%Z)); lia.
Qed.

Lemma failedFrom_app (k : nat) (l1 l2 : list Attempt) :
  failedFrom net p k (l1 ++ l2)
  = failedFrom net p k l1 ++ failedFrom net p (k + length l1) l2.
Proof.
  revert k. induction l1 as [|a l1 IH]; intros k.
  - simpl. rewrite Nat.add_0_r. reflexivity.
  - simpl. rewrite IH. replace (S k + length l1) with (k + S (length l1)) by lia.
    destruct (outcome net p k a); reflexivity.
Qed.

(** The state after one more attempt that was not rejected. *)
Lemma failedFrom_snoc_kept (tr : list Attempt) (a : Attempt) :
  outcome net p (length tr) a <> Rejected ->
  failedFrom net p 0 (tr ++ [a]) = failedFrom net p 0 tr.
Proof.
  intros Hout. rewrite failedFrom_app. simpl.
  destruct (outcome net p (length tr) a); [| |contradiction];
    rewrite app_nil_r; reflexivity.
Qed.

Lemma failedFrom_snoc_rejected (tr : list Attempt) (a : Attempt) :
  outcome net p (length tr) a = Rejected ->
  failedFrom net p 0 (tr ++ [a])
  = failedFrom net p 0 tr ++ [{[ at_user a := at_pass a ]}].
Proof. intros Hout. rewrite failedFrom_app. simpl. rewrite Hout. reflexivity. Qed.

Lemma passedOver_snoc (tr : list Attempt) (a : Attempt) :
  (forall k x, tr !! k = Some x -> passedOver net p k x) ->
  passedOver net p (length tr) a ->
  forall k x, (tr ++ [a]) !! k = Some x -> passedOver net p k x.
Proof.
  intros Hpast Hnow k x Hk. apply lookup_snoc_Some in Hk as [[_ Hk]|[-> <-]].
  - exact (Hpast k x Hk).
  - exact Hnow.
Qed.

(** A standby controller of an asset with several addresses: the attempt
    is counted and nothing else is recorded. *)
Lemma searching_standby (st : LoopState) (a : Attempt) (c : option Connection) :
  searching net p st ->
  outcome net p (Attempts (info st)) a = Standby c ->
  length (IpAddresses p) <> 1 ->
  searching net p (withAttempt st a).
Proof.
  intros (Hn & Hw & Ha & Hf & Hpast) Hout Hlen. rewrite Hn in Hout.
  unfold searching. simpl. split; [rewrite length_app; simpl; lia|].
  split; [exact Hw|]. split; [exact Ha|]. split.
  - rewrite failedFrom_snoc_kept by (rewrite Hout; discriminate). exact Hf.
  - apply passedOver_snoc; [exact Hpast|]. right. exists c. auto.
Qed.

(** A rejected attempt: it is counted and its credential is appended to
    the failed ones. *)
Lemma searching_rejected (st : LoopState) (ip user pass : string) :
  searching net p st ->
  outcome net p (Attempts (info st)) (attempt ip user pass) = Rejected ->
  searching net p (Bmclogin.withFailed (withAttempt st (attempt ip user pass)) user pass).
Proof.
  intros (Hn & Hw & Ha & Hf & Hpast) Hout. rewrite Hn in Hout.
  unfold searching. simpl. split; [rewrite length_app; simpl; lia|].
  split; [exact Hw|]. split; [exact Ha|]. split.
  - rewrite failedFrom_snoc_rejected by exact Hout. rewrite Hf. reflexivity.
  - apply passedOver_snoc; [exact Hpast|]. left. exact Hout.
Qed.

(** The retry loop. *)
Lemma retryLoop_outcome (n : nat) (ip user pass : string) (st : LoopState) :
  searching net p st ->
  outcomeOf net p (fun tr => 0 < n -> attempt ip user pass ∈ tr) st
    (retryLoop net p n ip user pass st).
Proof.
  revert st. induction n as [|n IH]; intros st Hst.
  - simpl. split; [exact Hst|]. split; [reflexivity|lia].
  - cbn [retryLoop].
    pose proof (eq_refl (outcome net p (Attempts (info st)) (attempt ip user pass)))
      as Hout. unfold outcome at 2 in Hout. cbn [at_ip at_user at_pass] in Hout.
    destruct (attemptLogin net p (Attempts (info st)) ip user pass)
      as [[conn inactive] e] eqn:Hat.
    destruct inactive.
    + apply attemptLogin_inactive in Hat as ->.
      destruct (bool_decide (length (IpAddresses p) = 1)) eqn:Hone.
      * apply bool_decide_eq_true_1 in Hone.
        destruct Hst as (Hn & Hw & Ha & Hf & Hpast). rewrite Hn in Hout.
        exists (made st), (attempt ip user pass). simpl.
        split; [reflexivity|]. split; [exact Hpast|].
        split; [rewrite length_app; simpl; lia|].
        split; [rewrite failedFrom_snoc_kept by (rewrite Hout; discriminate); exact Hf|].
        split; [reflexivity|]. split; [reflexivity|].
        right. auto.
      * apply bool_decide_eq_false_1 in Hone.
        split; [exact (searching_standby st _ conn Hst Hout Hone)|]. split.
        -- intros x Hx. apply elem_of_app. left. exact Hx.
        -- intros _. apply elem_of_app. right. left.
    + destruct e as [e|].
      * specialize (IH _ (searching_rejected st ip user pass Hst Hout)).
        destruct (retryLoop net p n ip user pass _) as [st'|r]; [|exact IH].
        destruct IH as (Hst' & Hsub & _). simpl in Hsub.
        split; [exact Hst'|]. split.
        -- intros x Hx. apply Hsub, elem_of_app. left. exact Hx.
        -- intros _. apply Hsub, elem_of_app. right. left.
      * destruct Hst as (Hn & Hw & Ha & Hf & Hpast). rewrite Hn in Hout.
        exists (made st), (attempt ip user pass). simpl.
        split; [reflexivity|]. split; [exact Hpast|].
        split; [rewrite length_app; simpl; lia|].
        split; [rewrite failedFrom_snoc_kept by (rewrite Hout; discriminate); exact Hf|].
        split; [reflexivity|]. split; [reflexivity|].
        left. auto.
Qed.

(** The loop over the IP addresses. *)
Lemma ipLoop_outcome (retries : Z) (ips : list string) (user pass : string)
    (st : LoopState) :
  searching net p st ->
  outcomeOf net p
    (fun tr => 0 < iterations retries ->
               forall ip, ip ∈ ips -> ip <> "" -> attempt ip user pass ∈ tr)
    st (ipLoop net p retries ips user pass st).
Proof.
  revert st. induction ips as [|ip ips IH]; intros st Hst.
  - simpl. split; [exact Hst|]. split; [reflexivity|].
    intros _ ip Hin. inversion Hin.
  - simpl. destruct (bool_decide (ip = "")) eqn:Hip.
    + apply bool_decide_eq_true_1 in Hip.
      specialize (IH st Hst).
      destruct (ipLoop net p retries ips user pass st) as [st'|r]; [|exact IH].
      destruct IH as (Hst' & Hsub & Hcov).
      split; [exact Hst'|]. split; [exact Hsub|].
      intros Hit ip' Hin Hne. apply elem_of_cons in Hin as [->|Hin]; [contradiction|].
      apply Hcov; assumption.
    + pose proof (retryLoop_outcome (iterations retries) ip user pass st Hst) as Hretry.
      destruct (retryLoop net p (iterations retries) ip user pass st) as [st1|r];
        [|exact Hretry].
      destruct Hretry as (Hst1 & Hsub1 & Hcov1).
      specialize (IH st1 Hst1).
      destruct (ipLoop net p retries ips user pass st1) as [st'|r]; [|exact IH].
      destruct IH as (Hst' & Hsub & Hcov).
      split; [exact Hst'|]. split; [etrans; eassumption|].
      intros Hit ip' Hin Hne. apply elem_of_cons in Hin as [->|Hin].
      * apply Hsub, Hcov1, Hit.
      * apply Hcov; assumption.
Qed.

(** The loop over the entries of one credential map. *)
Lemma entryLoop_outcome (retries : Z) (entries : Credential) (st : LoopState) :
  searching net p st ->
  outcomeOf net p
    (fun tr => 0 < iterations retries ->
               forall user pass ip,
                 (user, pass) ∈ entries -> ip ∈ IpAddresses p -> ip <> "" ->
                 attempt ip user pass ∈ tr)
    st (entryLoop net p retries entries st).
Proof.
  revert st. induction entries as [|[user pass] entries IH]; intros st Hst.
  - simpl. split; [exact Hst|]. split; [reflexivity|].
    intros _ u pw ip Hin. inversion Hin.
  - simpl.
    pose proof (ipLoop_outcome retries (IpAddresses p) user pass st Hst) as Hips.
    destruct (ipLoop net p retries (IpAddresses p) user pass st) as [st1|r];
      [|exact Hips].
    destruct Hips as (Hst1 & Hsub1 & Hcov1).
    specialize (IH st1 Hst1).
    destruct (entryLoop net p retries entries st1) as [st'|r]; [|exact IH].
    destruct IH as (Hst' & Hsub & Hcov).
    split; [exact Hst'|]. split; [etrans; eassumption|].
    intros Hit u pw ip Hin Hip Hne. apply elem_of_cons in Hin as [[= -> ->]|Hin].
    + apply Hsub, Hcov1; assumption.
    + apply Hcov; assumption.
Qed.

(** The loop over the credential maps. *)
Lemma credentialLoop_outcome (retries : Z) (creds : list Credential) (st : LoopState) :
  searching net p st ->
  outcomeOf net p
    (fun tr => 0 < iterations retries ->
               forall credentials user pass ip,
                 credentials ∈ creds -> (user, pass) ∈ credentials ->
                 ip ∈ IpAddresses p -> ip <> "" ->
                 attempt ip user pass ∈ tr)
    st (credentialLoop net p retries creds st).
Proof.
  revert st. induction creds as [|credentials creds IH]; intros st Hst.
  - simpl. split; [exact Hst|]. split; [reflexivity|].
    intros _ c u pw ip Hin. inversion Hin.
  - simpl.
    pose proof (entryLoop_outcome retries credentials st Hst) as Hentries.
    destruct (entryLoop net p retries credentials st) as [st1|r]; [|exact Hentries].
    destruct Hentries as (Hst1 & Hsub1 & Hcov1).
    specialize (IH st1 Hst1).
    destruct (credentialLoop net p retries creds st1) as [st'|r]; [|exact IH].
    destruct IH as (Hst' & Hsub & Hcov).
    split; [exact Hst'|]. split; [etrans; eassumption|].
    intros Hit c u pw ip Hin Hu Hip Hne. apply elem_of_cons in Hin as [->|Hin].
    + apply Hsub, Hcov1; assumption.
    + apply (Hcov Hit c); assumption.
Qed.

(** When no controller answers as a standby, the loops that fall through
    have made every attempt of their part of the matrix. *)
Section Matrix.

Hypothesis no_standby : forall k a c, outcome net p k a <> Standby c.

Lemma retryLoop_matrix (n : nat) (ip user pass : string) (st : LoopState) :
  match retryLoop net p n ip user pass st with
  | Next st' => made st' = made st ++ replicate n (attempt ip user pass)
  | Return _ => True
  end.
Proof.
  revert st. induction n as [|n IH]; intros st.
  - simpl. rewrite app_nil_r. reflexivity.
  - cbn [retryLoop].
    pose proof (no_standby (Attempts (info st)) (attempt ip user pass)) as Hno.
    unfold outcome in Hno. simpl in Hno.
    destruct (attemptLogin net p (Attempts (info st)) ip user pass)
      as [[conn inactive] e].
    destruct inactive; [exfalso; exact (Hno conn eq_refl)|].
    destruct e as [e|]; [|exact I].
    specialize (IH (Bmclogin.withFailed (withAttempt st (attempt ip user pass)) user pass)).
    destruct (retryLoop net p n ip user pass _) as [st'|r]; [|exact I].
    rewrite IH. simpl. rewrite <- app_assoc. reflexivity.
Qed.

Lemma ipLoop_matrix (retries : Z) (ips : list string) (user pass : string)
    (st : LoopState) :
  match ipLoop net p retries ips user pass st with
  | Next st' =>
      made st' = made st ++
        flat_map (fun ip => replicate (iterations retries) (attempt ip user pass))
          (filter (fun ip : string => ip <> "") ips)
  | Return _ => True
  end.
Proof.
  revert st. induction ips as [|ip ips IH]; intros st.
  - simpl. rewrite app_nil_r. reflexivity.
  - cbn [ipLoop]. destruct (bool_decide (ip = "")) eqn:Hip.
    + apply bool_decide_eq_true_1 in Hip.
      rewrite filter_cons_False by (intros H; exact (H Hip)). apply IH.
    + apply bool_decide_eq_false_1 in Hip. rewrite filter_cons_True by exact Hip.
      pose proof (retryLoop_matrix (iterations retries) ip user pass st) as Hretry.
      destruct (retryLoop net p (iterations retries) ip user pass st) as [st1|r];
        [|exact I].
      specialize (IH st1).
      destruct (ipLoop net p retries ips user pass st1) as [st'|r]; [|exact I].
      rewrite IH, Hretry. simpl. rewrite <- app_assoc. reflexivity.
Qed.

Lemma entryLoop_matrix (retries : Z) (entries : Credential) (st : LoopState) :
  match entryLoop net p retries entries st with
  | Next st' =>
      made st' = made st ++
        flat_map (fun entry : string * string =>
          flat_map (fun ip => replicate (iterations retries)
                                (attempt ip (fst entry) (snd entry)))
            (filter (fun ip : string => ip <> "") (IpAddresses p)))
          entries
  | Return _ => True
  end.
Proof.
  revert st. induction entries as [|[user pass] entries IH]; intros st.
  - simpl. rewrite app_nil_r. reflexivity.
  - cbn [entryLoop].
    pose proof (ipLoop_matrix retries (IpAddresses p) user pass st) as Hips.
    destruct (ipLoop net p retries (IpAddresses p) user pass st) as [st1|r]; [|exact I].
    specialize (IH st1).
    destruct (entryLoop net p retries entries st1) as [st'|r]; [|exact I].
    rewrite IH, Hips. simpl. rewrite <- app_assoc. reflexivity.
Qed.

Lemma credentialLoop_matrix (retries : Z) (creds : list Credential) (st : LoopState) :
  match credentialLoop net p retries creds st with
  | Next st' =>
      made st' = made st ++
        flat_map (fun credentials : Credential =>
          flat_map (fun entry : string * string =>
            flat_map (fun ip => replicate (iterations retries)
                                  (attempt ip (fst entry) (snd entry)))
              (filter (fun ip : string => ip <> "") (IpAddresses p)))
            credentials)
          creds
  | Return _ => True
  end.
Proof.
  revert st. induction creds as [|credentials creds IH]; intros st.
  - simpl. rewrite app_nil_r. reflexivity.
  - cbn [credentialLoop].
    pose proof (entryLoop_matrix retries credentials st) as Hentries.
    destruct (entryLoop net p retries credentials st) as [st1|r]; [|exact I].
    specialize (IH st1).
    destruct (credentialLoop net p retries creds st1) as [st'|r]; [|exact I].
    rewrite IH, Hentries. simpl. rewrite <- app_assoc. reflexivity.
Qed.

End Matrix.

Lemma searching_start : searching net p {| info := zeroLoginInfo; made := [] |}.
Proof.
  repeat split. intros k a Hk. inversion Hk.
Qed.

(** An attempt that was passed over was not accepted, and did not meet
    the standby controller of a single address. *)
Lemma passedOver_not_accepted (k : nat) (a : Attempt) (c : option Connection) :
  passedOver net p k a -> outcome net p k a <> Accepted c.
Proof. intros [H|(c' & H & _)]; rewrite H; discriminate. Qed.

Lemma passedOver_not_last_resort (k : nat) (a : Attempt) (c : option Connection) :
  passedOver net p k a -> outcome net p k a = Standby c ->
  length (IpAddresses p) <> 1.
Proof. intros [H|(c' & H & Hlen)] Hs; [congruence|exact Hlen]. Qed.

(** [Login] either leaves the loops with a result that was found, or
    falls out of them still searching. *)
Lemma Login_cases :
  found net p (Login net p)
  \/ exists st,
       searching net p st
       /\ Login net p = {| connection := None; loginInfo := info st;
                           err := Some "All attempts to login failed.";
                           tried := made st |}.
Proof.
  unfold Login.
  pose proof (credentialLoop_outcome (effectiveRetries p) (Credentials p) _
                searching_start) as Hloop.
  destruct (credentialLoop net p (effectiveRetries p) (Credentials p) _) as [st|r].
  - right. exists st. split; [apply Hloop|reflexivity].
  - left. exact Hloop.
Qed.

(** With the credential check on, a standby chassis controller that takes
    the credentials is read as [Standby]. *)
Lemma outcome_standby (k : nat) (a : Attempt) (c : Connection) :
  CheckCredential p = true -> finds net k a c -> chassisController c false ->
  outcome net p k a = Standby (Some c).
Proof.
  intros Hcheck Hfinds Hchassis. unfold outcome. destruct a as [ip user pass].
  cbn [at_ip at_user at_pass].
  rewrite (attemptLogin_standby k ip user pass c Hcheck Hfinds Hchassis). reflexivity.
Qed.

(** Whenever [Login] makes an attempt that meets the standby controller of
    a single address, it returns there: nil error, that connection, the
    credential as working, and no active address. *)
Lemma Login_standby_single (k : nat) (a : Attempt) (c : option Connection) :
  length (IpAddresses p) = 1 ->
  tried (Login net p) !! k = Some a -> outcome net p k a = Standby c ->
  err (Login net p) = None
  /\ connection (Login net p) = c
  /\ WorkingCredentials (loginInfo (Login net p)) = {[ at_user a := at_pass a ]}
  /\ ActiveIpAddress (loginInfo (Login net p)) = "".
Proof.
  intros Hone Hk Hsb.
  destruct Login_cases as [Hfound|(st & (_ & _ & _ & _ & Hpast) & Heq)].
  - destruct Hfound as (tr & a0 & Htried & Hpast & Hn & Hf & Herr & Hw & Hlast).
    rewrite Htried in Hk.
    apply lookup_snoc_Some in Hk as [[_ Hk]|[-> <-]].
    + exfalso. exact (passedOver_not_last_resort k a c (Hpast k a Hk) Hsb Hone).
    + destruct Hlast as [[Hout _]|(Hout & _ & Hip)]; [congruence|].
      rewrite Hout in Hsb. injection Hsb as <-. auto.
  - rewrite Heq in Hk. simpl in Hk. exfalso.
    exact (passedOver_not_last_resort k a c (Hpast k a Hk) Hsb Hone).
Qed.

(** With the credential check on, the active chassis controller that
    takes the credentials is read as [Accepted]. *)
Lemma outcome_active (k : nat) (a : Attempt) (c : Connection) :
  CheckCredential p = true -> finds net k a c -> chassisController c true ->
  outcome net p k a = Accepted (Some c).
Proof.
  intros Hcheck Hfinds Hchassis. unfold outcome. destruct a as [ip user pass].
  cbn [at_ip at_user at_pass].
  rewrite (attemptLogin_active k ip user pass c Hcheck Hfinds Hchassis). reflexivity.
Qed.

(** Whenever [Login] makes an attempt that is accepted, it returns there:
    nil error, that connection, and the address of the attempt as the
    active one. *)
Lemma Login_accepted (k : nat) (a : Attempt) (c : option Connection) :
  tried (Login net p) !! k = Some a -> outcome net p k a = Accepted c ->
  err (Login net p) = None
  /\ connection (Login net p) = c
  /\ WorkingCredentials (loginInfo (Login net p)) = {[ at_user a := at_pass a ]}
  /\ ActiveIpAddress (loginInfo (Login net p)) = at_ip a.
Proof.
  intros Hk Hacc.
  destruct Login_cases as [Hfound|(st & (_ & _ & _ & _ & Hpast) & Heq)].
  - destruct Hfound as (tr & a0 & Htried & Hpast & Hn & Hf & Herr & Hw & Hlast).
    rewrite Htried in Hk.
    apply lookup_snoc_Some in Hk as [[_ Hk]|[-> <-]].
    + exfalso. exact (passedOver_not_accepted k a c (Hpast k a Hk) Hacc).
    + destruct Hlast as [[Hout Hip]|(Hout & _)]; [|congruence].
      rewrite Hout in Hacc. injection Hacc as <-. auto.
  - rewrite Heq in Hk. simpl in Hk. exfalso.
    exact (passedOver_not_accepted k a c (Hpast k a Hk) Hacc).
Qed.

(** The failed credentials of a login are the records of its rejected
    attempts. *)
Lemma Login_failed_records :
  FailedCredentials (loginInfo (Login net p)) = failedFrom net p 0 (tried (Login net p)).
Proof.
  destruct Login_cases as [Hfound|(st & (_ & _ & _ & Hf & _) & Heq)].
  - destruct Hfound as (tr & a0 & _ & _ & _ & Hf & _). exact Hf.
  - rewrite Heq. exact Hf.
Qed.

(** An attempt that was not rejected leaves no record among the failed
    credentials: they are the records of the attempts before it and of
    the attempts after it. *)
Lemma Login_failed_without (tr1 tr2 : list Attempt) (a : Attempt) :
  tried (Login net p) = tr1 ++ a :: tr2 ->
  outcome net p (length tr1) a <> Rejected ->
  FailedCredentials (loginInfo (Login net p))
  = failedFrom net p 0 tr1 ++ failedFrom net p (S (length tr1)) tr2.
Proof.
  intros Htried Hout. rewrite Login_failed_records, Htried, failedFrom_app.
  simpl. destruct (outcome net p (length tr1) a); [| |contradiction]; reflexivity.
Qed.

Lemma retryLoop_triesOn (n : nat) (ip user pass : string) (st : LoopState) :
  Attempts (info st) = length (made st) ->
  match retryLoop net p n ip user pass st with
  | Return r =>
      exists t, triesOn net p n (length (made st)) (attempt ip user pass) = (t, true)
                /\ tried r = made st ++ t /\ err r = None
  | Next st' =>
      exists t, triesOn net p n (length (made st)) (attempt ip user pass) = (t, false)
                /\ made st' = made st ++ t
                /\ Attempts (info st') = length (made st')
  end.
Proof.
  revert st. induction n as [|n IH]; intros st Hn.
  - simpl. exists []. rewrite app_nil_r. auto.
  - cbn [retryLoop triesOn]. unfold ends, outcome. cbn [at_ip at_user at_pass].
    rewrite Hn.
    destruct (attemptLogin net p (length (made st)) ip user pass)
      as [[conn inactive] e] eqn:Hat.
    destruct inactive.
    + apply attemptLogin_inactive in Hat as ->.
      destruct (bool_decide (length (IpAddresses p) = 1)).
      * exists [attempt ip user pass]. auto.
      * exists [attempt ip user pass]. simpl. rewrite length_app. simpl.
        split; [reflexivity|]. split; [reflexivity|lia].
    + destruct e as [e|].
      * specialize (IH (Bmclogin.withFailed (withAttempt st (attempt ip user pass))
                          user pass)).
        cbn [made info Attempts Bmclogin.withFailed withAttempt] in IH.
        rewrite length_app in IH. cbn [length] in IH.
        replace (length (made st) + 1) with (S (length (made st))) in IH by lia.
        specialize (IH ltac:(lia)).
        destruct (retryLoop net p n ip user pass _) as [st'|r].
        -- destruct IH as (t & -> & Hmade & Hn'). exists (attempt ip user pass :: t).
           split; [reflexivity|]. split; [|exact Hn'].
           rewrite Hmade, <- app_assoc. reflexivity.
        -- destruct IH as (t & -> & Htried & Herr). exists (attempt ip user pass :: t).
           rewrite Htried, <- app_assoc. split; [reflexivity|].
           split; [reflexivity|exact Herr].
      * exists [attempt ip user pass]. auto.
Qed.

Lemma search_app (n k : nat) (l1 l2 : list Attempt) :
  search net p n k (l1 ++ l2)
  = let '(t1, ended) := search net p n k l1 in
    if ended then (t1, true)
    else let '(t2, ended') := search net p n (k + length t1) l2 in (t1 ++ t2, ended').
Proof.
  revert k. induction l1 as [|a l1 IH]; intros k.
  - simpl. rewrite Nat.add_0_r. destruct (search net p n k l2). reflexivity.
  - cbn [app search]. destruct (triesOn net p n k a) as [t [|]]; [reflexivity|].
    rewrite IH. destruct (search net p n (k + length t) l1) as [t1 [|]]; [reflexivity|].
    rewrite length_app, Nat.add_assoc.
    destruct (search net p n (k + length t + length t1) l2) as [t2 e2].
    rewrite app_assoc. reflexivity.
Qed.

Lemma follows_nil (n : nat) (st : LoopState) :
  Attempts (info st) = length (made st) -> follows net p n [] st (Next st).
Proof. intros Hn. exists []. rewrite app_nil_r. auto. Qed.

(** One loop after another follows the pairs of the first, then those of
    the second. *)
Lemma follows_seq (n : nat) (l1 l2 : list Attempt) (st : LoopState)
    (f : Flow LoopState LoginResult) (g : LoopState -> Flow LoopState LoginResult) :
  follows net p n l1 st f ->
  (forall st1, Attempts (info st1) = length (made st1) -> follows net p n l2 st1 (g st1)) ->
  follows net p n (l1 ++ l2) st
    match f with
    | Return r => Return r
    | Next st1 => g st1
    end.
Proof.
  intros Hf Hg. destruct f as [st1|r].
  - destruct Hf as (t1 & H1 & Hmade & Hn1). specialize (Hg st1 Hn1).
    unfold follows in *. rewrite search_app, H1.
    destruct (g st1) as [st2|r].
    + destruct Hg as (t2 & Hs & Hmade2 & Hn2). exists (t1 ++ t2).
      rewrite Hmade, length_app in Hs. rewrite Hs.
      split; [reflexivity|]. split; [|exact Hn2].
      rewrite Hmade2, Hmade, <- app_assoc. reflexivity.
    + destruct Hg as (t2 & Hs & Htried & Herr). exists (t1 ++ t2).
      rewrite Hmade, length_app in Hs. rewrite Hs.
      split; [reflexivity|]. split; [|exact Herr].
      rewrite Htried, Hmade, <- app_assoc. reflexivity.
  - destruct Hf as (t1 & H1 & Htried & Herr). exists t1.
    rewrite search_app, H1. auto.
Qed.

Lemma ipLoop_follows (retries : Z) (ips : list string) (user pass : string)
    (st : LoopState) :
  Attempts (info st) = length (made st) ->
  follows net p (iterations retries)
    (map (fun ip => attempt ip user pass) (filter (fun ip : string => ip <> "") ips))
    st (ipLoop net p retries ips user pass st).
Proof.
  revert st. induction ips as [|ip ips IH]; intros st Hn.
  - apply follows_nil. exact Hn.
  - cbn [ipLoop]. destruct (bool_decide (ip = "")) eqn:Hip.
    + apply bool_decide_eq_true_1 in Hip.
      rewrite filter_cons_False by (intros H; exact (H Hip)). apply IH. exact Hn.
    + apply bool_decide_eq_false_1 in Hip. rewrite filter_cons_True by exact Hip.
      cbn [map].
      apply (follows_seq (iterations retries) [attempt ip user pass] _ st
               (retryLoop net p (iterations retries) ip user pass st)
               (fun st1 => ipLoop net p retries ips user pass st1)); [|exact IH].
      pose proof (retryLoop_triesOn (iterations retries) ip user pass st Hn) as Hretry.
      unfold follows. cbn [search].
      destruct (retryLoop net p (iterations retries) ip user pass st) as [st1|r].
      * destruct Hretry as (t & -> & Hmade & Hn1). exists t. cbn [search].
        rewrite app_nil_r. auto.
      * destruct Hretry as (t & -> & Htried & Herr). exists t. auto.
Qed.

Lemma entryLoop_follows (retries : Z) (entries : Credential) (st : LoopState) :
  Attempts (info st) = length (made st) ->
  follows net p (iterations retries)
    (flat_map (fun entry : string * string =>
       map (fun ip => attempt ip (fst entry) (snd entry))
         (filter (fun ip : string => ip <> "") (IpAddresses p)))
       entries)
    st (entryLoop net p retries entries st).
Proof.
  revert st. induction entries as [|[user pass] entries IH]; intros st Hn.
  - apply follows_nil. exact Hn.
  - cbn [entryLoop flat_map fst snd].
    apply (follows_seq (iterations retries) _ _ st
             (ipLoop net p retries (IpAddresses p) user pass st)
             (fun st1 => entryLoop net p retries entries st1)); [|exact IH].
    apply ipLoop_follows. exact Hn.
Qed.

Lemma credentialLoop_follows (retries : Z) (creds : list Credential) (st : LoopState) :
  Attempts (info st) = length (made st) ->
  follows net p (iterations retries)
    (flat_map (fun credentials : Credential =>
       flat_map (fun entry : string * string =>
         map (fun ip => attempt ip (fst entry) (snd entry))
           (filter (fun ip : string => ip <> "") (IpAddresses p)))
         credentials)
       creds)
    st (credentialLoop net p retries creds st).
Proof.
  revert st. induction creds as [|credentials creds IH]; intros st Hn.
  - apply follows_nil. exact Hn.
  - cbn [credentialLoop flat_map].
    apply (follows_seq (iterations retries) _ _ st
             (entryLoop net p retries credentials st)
             (fun st1 => credentialLoop net p retries creds st1)); [|exact IH].
    apply entryLoop_follows. exact Hn.
Qed.

(** The attempts that [Login] makes, and whether its error is nil, are
    those of the search along its pairs. *)
Lemma Login_follows_search :
  search net p (iterations (effectiveRetries p)) 0 (pairs p)
  = (tried (Login net p), bool_decide (err (Login net p) = None)).
Proof.
  unfold Login, pairs.
  pose proof (credentialLoop_follows (effectiveRetries p) (Credentials p)
                {| info := zeroLoginInfo; made := [] |} eq_refl) as Hloop.
  destruct (credentialLoop net p (effectiveRetries p) (Credentials p) _) as [st|r].
  - destruct Hloop as (t & Hs & Hmade & _). cbn [made length app] in Hs, Hmade.
    rewrite Hs, Hmade. reflexivity.
  - destruct Hloop as (t & Hs & Htried & Herr). cbn [made length app] in Hs, Htried.
    rewrite Hs, Htried, Herr. reflexivity.
Qed.

Lemma triesOn_same (n k : nat) (a x : Attempt) :
  x ∈ fst (triesOn net p n k a) -> x = a.
Proof.
  revert k. induction n as [|n IH]; intros k; cbn [triesOn].
  - intros H. inversion H.
  - destruct (outcome net p k a).
    + intros H. apply list_elem_of_singleton in H. exact H.
    + intros H. apply list_elem_of_singleton in H. exact H.
    + specialize (IH (S k)). destruct (triesOn net p n (S k) a) as [t e].
      cbn [fst] in *. intros H. apply elem_of_cons in H as [->|H]; auto.
Qed.

Lemma search_within (n : nat) (l : list Attempt) (x : Attempt) :
  forall k, x ∈ fst (search net p n k l) -> x ∈ l.
Proof.
  induction l as [|a l IH]; intros k; cbn [search].
  - intros H. inversion H.
  - pose proof (triesOn_same n k a x) as Hsame.
    destruct (triesOn net p n k a) as [t [|]]; cbn [fst] in *.
    + intros H. rewrite (Hsame H). left.
    + specialize (IH (k + length t)).
      destruct (search net p n (k + length t) l) as [t' e']. cbn [fst] in *.
      intros H. apply elem_of_app in H as [H|H].
      * rewrite (Hsame H). left.
      * right. exact (IH H).
Qed.

(** A pair of [Login] is made of an entry of a credential map and of an
    address of the list other than the empty string. *)
Lemma pairs_spec (a : Attempt) :
  a ∈ pairs p ->
  at_ip a <> "" /\ at_ip a ∈ IpAddresses p
  /\ exists credentials,
       credentials ∈ Credentials p /\ (at_user a, at_pass a) ∈ credentials.
Proof.
  unfold pairs. intros H.
  apply list_elem_of_In, in_flat_map in H as (credentials & Hc & H).
  apply in_flat_map in H as ([user pass] & He & H).
  apply in_map_iff in H as (ip & <- & Hip).
  apply list_elem_of_In, list_elem_of_filter in Hip as [Hne Hip].
  cbn [at_ip at_user at_pass fst snd].
  split; [exact Hne|]. split; [exact Hip|].
  exists credentials. split; apply list_elem_of_In; assumption.
Qed.

End LoginFacts.

Section LoginClaims.

Import Devices Bmclogin LoginTerms.

Abbreviation attempt ip user pass := {| at_ip := ip; at_user := user; at_pass := pass |}.

(** C2, as stated, fails in two ways. A single-address chassis whose
    controller is on standby passes the credential check and [Login]
    returns at once, but that address is not recorded as active. And for
    a list of addresses that holds the empty string, [Login] returns the
    error without having tried that address at all. *)
Lemma login_matrix_counterexample :
  (let r := Login Fixtures.standbyOnly (Fixtures.params ["10.0.0.1"] 1) in
   CheckCredentials (Fixtures.chassis false) = None
   /\ err r = None
   /\ connection r = Some (Fixtures.chassis false)
   /\ tried r = [attempt "10.0.0.1" "admin" "pass"]
   /\ WorkingCredentials (loginInfo r) = {[ "admin" := "pass" ]}
   /\ ActiveIpAddress (loginInfo r) <> "10.0.0.1")
  /\ (let r := Login Fixtures.nobody (Fixtures.params [""] 1) in
      err r = Some "All attempts to login failed."
      /\ tried r = []).
Proof. vm_compute. repeat split; discriminate. Qed.

Lemma Login_search_parts (net : Net) (p : Params) :
  let r := Login net p in
  Attempts (loginInfo r) = length (tried r)
  /\ FailedCredentials (loginInfo r) = failedFrom net p 0 (tried r)
  /\ (forall k a c,
        tried r !! k = Some a -> outcome net p k a = Accepted c ->
        S k = length (tried r) /\ err r = None /\ connection r = c
        /\ WorkingCredentials (loginInfo r) = {[ at_user a := at_pass a ]}
        /\ ActiveIpAddress (loginInfo r) = at_ip a)
  /\ (forall k a c,
        tried r !! k = Some a -> outcome net p k a = Standby c ->
        length (IpAddresses p) = 1 ->
        S k = length (tried r) /\ err r = None /\ connection r = c
        /\ WorkingCredentials (loginInfo r) = {[ at_user a := at_pass a ]}
        /\ ActiveIpAddress (loginInfo r) = "")
  /\ (err r <> None ->
        err r = Some "All attempts to login failed."
        /\ connection r = None
        /\ WorkingCredentials (loginInfo r) = ∅
        /\ ActiveIpAddress (loginInfo r) = ""
        /\ (forall k a, tried r !! k = Some a -> passedOver net p k a)
        /\ ((0 <= Retries p)%Z ->
            forall credentials user pass ip,
              credentials ∈ Credentials p -> (user, pass) ∈ credentials ->
              ip ∈ IpAddresses p -> ip <> "" ->
              attempt ip user pass ∈ tried r)
        /\ ((forall k a c, outcome net p k a <> Standby c) -> tried r = matrix p)).
Proof.
  unfold Login.
  pose proof (credentialLoop_outcome net p (effectiveRetries p) (Credentials p) _
                (searching_start net p)) as Hloop.
  destruct (credentialLoop net p (effectiveRetries p) (Credentials p) _)
    as [st|r] eqn:Hrun.
  - destruct Hloop as ((Hn & Hw & Ha & Hf & Hpast) & _ & Hcov). simpl.
    split; [exact Hn|]. split; [exact Hf|]. split; [|split].
    + intros k a c Hk Hacc. exfalso.
      exact (passedOver_not_accepted net p k a c (Hpast k a Hk) Hacc).
    + intros k a c Hk Hsb Hone. exfalso.
      exact (passedOver_not_last_resort net p k a c (Hpast k a Hk) Hsb Hone).
    + intros _. repeat split; try assumption.
      * intros Hpos. apply Hcov. rewrite iterations_positive by exact Hpos. lia.
      * intros Hno.
        pose proof (credentialLoop_matrix net p Hno (effectiveRetries p) (Credentials p)
                      {| info := zeroLoginInfo; made := [] |}) as Hm.
        rewrite Hrun in Hm. exact Hm.
  - destruct Hloop as (tr & a0 & Htried & Hpast & Hn & Hf & Herr & Hw & Hlast). simpl.
    split; [exact Hn|]. split; [exact Hf|]. split; [|split].
    + intros k a c Hk Hacc. rewrite Htried in Hk.
      apply lookup_snoc_Some in Hk as [[_ Hk]|[-> <-]].
      * exfalso. exact (passedOver_not_accepted net p k a c (Hpast k a Hk) Hacc).
      * rewrite Htried, length_app. simpl.
        destruct Hlast as [[Hout Hip]|[Hout _]]; [|congruence].
        rewrite Hout in Hacc. injection Hacc as <-.
        repeat split; try assumption. lia.
    + intros k a c Hk Hsb Hone. rewrite Htried in Hk.
      apply lookup_snoc_Some in Hk as [[_ Hk]|[-> <-]].
      * exfalso.
        exact (passedOver_not_last_resort net p k a c (Hpast k a Hk) Hsb Hone).
      * rewrite Htried, length_app. simpl.
        destruct Hlast as [[Hout _]|(Hout & _ & Hip)]; [congruence|].
        rewrite Hout in Hsb. injection Hsb as <-.
        repeat split; try assumption. lia.
    + intros Hne. congruence.
Qed.

(** C2 (amended): [Login] attempts pairs of a credential and an address,
    leaving out addresses that are the empty string; its failed-credential
    list holds one record for each rejected attempt and none for any
    other.
    - An attempt that is accepted (nil error, controller not on standby)
      is the last one made: [Login] returns there with a nil error, that
      connection, that credential as working and that address as active.
    - A standby controller of an asset with a single address also ends the
      login with a nil error and that credential as working, the active
      address being left empty.
    - The error is returned only when every attempt made was passed over
      (rejected, or a standby controller of an asset with several
      addresses, which ends the retries on that address), and then, for a
      retry count that is not negative, every pair of a credential and a
      non-empty address was tried at least once; when no controller
      answers as a standby, the attempts made are the whole matrix of
      credentials, non-empty addresses and retries.
    - A nil error is returned only in those two ways: the last attempt
      made was accepted, or met the standby controller of a single
      address, and the connection returned is the one of that attempt.
    - The attempts made, in their order, are those of the search along
      the pairs: a pair is tried again only after a rejected attempt, as
      often as the retry count allows; a standby controller ends the
      tries on its pair, and the search goes on with the next pair unless
      the login ends there; nothing is tried after the attempt that ends
      the login. The error is nil exactly when the search has such an
      attempt.
    - Every attempt made is on an address of the list other than the
      empty string, with an entry of one of the credential maps. *)
Theorem login_search (net : Net) (p : Params) :
  let r := Login net p in
  Attempts (loginInfo r) = length (tried r)
  /\ FailedCredentials (loginInfo r) = failedFrom net p 0 (tried r)
  /\ (forall k a c,
        tried r !! k = Some a -> outcome net p k a = Accepted c ->
        S k = length (tried r) /\ err r = None /\ connection r = c
        /\ WorkingCredentials (loginInfo r) = {[ at_user a := at_pass a ]}
        /\ ActiveIpAddress (loginInfo r) = at_ip a)
  /\ (forall k a c,
        tried r !! k = Some a -> outcome net p k a = Standby c ->
        length (IpAddresses p) = 1 ->
        S k = length (tried r) /\ err r = None /\ connection r = c
        /\ WorkingCredentials (loginInfo r) = {[ at_user a := at_pass a ]}
        /\ ActiveIpAddress (loginInfo r) = "")
  /\ (err r <> None ->
        err r = Some "All attempts to login failed."
        /\ connection r = None
        /\ WorkingCredentials (loginInfo r) = ∅
        /\ ActiveIpAddress (loginInfo r) = ""
        /\ (forall k a, tried r !! k = Some a -> passedOver net p k a)
        /\ ((0 <= Retries p)%Z ->
            forall credentials user pass ip,
              credentials ∈ Credentials p -> (user, pass) ∈ credentials ->
              ip ∈ IpAddresses p -> ip <> "" ->
              attempt ip user pass ∈ tried r)
        /\ ((forall k a c, outcome net p k a <> Standby c) -> tried r = matrix p))
  /\ (err r = None ->
        exists k a,
          tried r !! k = Some a /\ S k = length (tried r)
          /\ (outcome net p k a = Accepted (connection r)
              \/ (outcome net p k a = Standby (connection r)
                  /\ length (IpAddresses p) = 1)))
  /\ search net p (iterations (effectiveRetries p)) 0 (pairs p)
     = (tried r, bool_decide (err r = None))
  /\ (forall a,
        a ∈ tried r ->
        at_ip a <> "" /\ at_ip a ∈ IpAddresses p
        /\ exists credentials,
             credentials ∈ Credentials p /\ (at_user a, at_pass a) ∈ credentials).
Proof.
  intros r. subst r.
  destruct (Login_search_parts net p) as (Hn & Hf & Hacc & Hsb & Hfail).
  split; [exact Hn|]. split; [exact Hf|]. split; [exact Hacc|]. split; [exact Hsb|].
  split; [exact Hfail|]. split; [|split].
  - intros Hnil.
    destruct (Login_cases net p) as [Hfound|(st & _ & Heq)].
    + destruct Hfound as (tr & a & Htried & _ & _ & _ & _ & _ & Hlast).
      exists (length tr), a. rewrite Htried, length_app. cbn [length].
      split; [apply list_lookup_middle; reflexivity|]. split; [lia|].
      destruct Hlast as [[Hout _]|(Hout & Hone & _)]; [left|right]; auto.
    + rewrite Heq in Hnil. discriminate Hnil.
  - apply Login_follows_search.
  - intros a Hin. apply pairs_spec.
    apply (search_within net p (iterations (effectiveRetries p)) (pairs p) a 0).
    rewrite Login_follows_search. exact Hin.
Qed.

Lemma login_search_witness :
  (let r := Login Fixtures.twoControllers (Fixtures.params ["10.0.0.1"; "10.0.0.2"] 1) in
   Attempts (loginInfo r) = length (tried r)
   /\ 2 = length (tried r) /\ err r = None
   /\ connection r = Some (Fixtures.chassis true)
   /\ WorkingCredentials (loginInfo r) = {[ "admin" := "pass" ]}
   /\ ActiveIpAddress (loginInfo r) = "10.0.0.2")
  /\ (let r := Login Fixtures.standbyOnly (Fixtures.params ["10.0.0.1"] 1) in
      1 = length (tried r) /\ err r = None
      /\ connection r = Some (Fixtures.chassis false)
      /\ WorkingCredentials (loginInfo r) = {[ "admin" := "pass" ]}
      /\ ActiveIpAddress (loginInfo r) = "")
  /\ (let r := Login Fixtures.nobody (Fixtures.params ["10.0.0.1"; ""; "10.0.0.2"] 0) in
      err r = Some "All attempts to login failed."
      /\ connection r = None
      /\ WorkingCredentials (loginInfo r) = ∅
      /\ ActiveIpAddress (loginInfo r) = ""
      /\ attempt "10.0.0.2" "admin" "pass" ∈ tried r
      /\ tried r = matrix (Fixtures.params ["10.0.0.1"; ""; "10.0.0.2"] 0))
  /\ (let r := Login Fixtures.twoStandby (Fixtures.params ["10.0.0.1"; "10.0.0.2"] 1) in
      tried r = [attempt "10.0.0.1" "admin" "pass"; attempt "10.0.0.2" "admin" "pass"]
      /\ err r <> None
      /\ forall a, a ∈ tried r -> at_ip a <> "").
Proof.
  split; [|split; [|split]].
  - destruct (login_search Fixtures.twoControllers
                (Fixtures.params ["10.0.0.1"; "10.0.0.2"] 1)) as (Hn & _ & Hacc & _).
    split; [exact Hn|].
    apply (Hacc 1 (attempt "10.0.0.2" "admin" "pass") (Some (Fixtures.chassis true)));
      reflexivity.
  - destruct (login_search Fixtures.standbyOnly (Fixtures.params ["10.0.0.1"] 1))
      as (_ & _ & _ & Hsb & _).
    apply (Hsb 0 (attempt "10.0.0.1" "admin" "pass") (Some (Fixtures.chassis false)));
      reflexivity.
  - destruct (login_search Fixtures.nobody
                (Fixtures.params ["10.0.0.1"; ""; "10.0.0.2"] 0))
      as (_ & _ & _ & _ & Hfail & _).
    destruct Hfail as (He & Hc & Hw & Ha & _ & Hcov & Hall); [discriminate|].
    split; [exact He|]. split; [exact Hc|]. split; [exact Hw|]. split; [exact Ha|].
    split.
    + apply (Hcov ltac:(simpl; lia) Fixtures.admin "admin" "pass" "10.0.0.2").
      * left.
      * left.
      * right. right. left.
      * discriminate.
    + apply Hall. intros k a c. vm_compute. discriminate.
  - destruct (login_search Fixtures.twoStandby
                (Fixtures.params ["10.0.0.1"; "10.0.0.2"] 1))
      as (_ & _ & _ & _ & _ & _ & Hsearch & Hips).
    assert (Hrun : search Fixtures.twoStandby (Fixtures.params ["10.0.0.1"; "10.0.0.2"] 1)
                     (iterations
                        (effectiveRetries (Fixtures.params ["10.0.0.1"; "10.0.0.2"] 1)))
                     0 (pairs (Fixtures.params ["10.0.0.1"; "10.0.0.2"] 1))
                   = ([attempt "10.0.0.1" "admin" "pass";
                       attempt "10.0.0.2" "admin" "pass"], false))
      by (vm_compute; reflexivity).
    rewrite Hrun in Hsearch.
    pose proof (f_equal fst Hsearch) as Htried. pose proof (f_equal snd Hsearch) as Herr.
    cbn [fst snd] in Htried, Herr.
    split; [symmetry; exact Htried|]. split.
    + intros Hnil. rewrite Hnil in Herr.
      rewrite bool_decide_eq_true_2 in Herr by reflexivity. discriminate Herr.
    + intros a Hin. exact (proj1 (Hips a Hin)).
Defined.

Lemma retryLoop_standby (net : Net) (p : Params) (n : nat) (ip user pass : string)
    (st : LoopState) (c : Connection) :
  attemptLogin net p (Attempts (info st)) ip user pass = (Some c, true, None) ->
  retryLoop net p (S n) ip user pass st
  = if bool_decide (length (IpAddresses p) = 1) then
      Return {| connection := Some c;
                loginInfo :=
                  withWorking (info (withAttempt st (attempt ip user pass))) user pass;
                err := None;
                tried := made (withAttempt st (attempt ip user pass)) |}
    else Next (withAttempt st (attempt ip user pass)).
Proof. intros H. cbn [retryLoop]. rewrite H. reflexivity. Qed.

Lemma retryLoop_accepted (net : Net) (p : Params) (n : nat) (ip user pass : string)
    (st : LoopState) (c : Connection) :
  attemptLogin net p (Attempts (info st)) ip user pass = (Some c, false, None) ->
  retryLoop net p (S n) ip user pass st
  = Return {| connection := Some c;
              loginInfo :=
                withWorking
                  (withActive (info (withAttempt st (attempt ip user pass))) ip)
                  user pass;
              err := None;
              tried := made (withAttempt st (attempt ip user pass)) |}.
Proof. intros H. cbn [retryLoop]. rewrite H. reflexivity. Qed.

(** The whole result of a login that ends on the standby controller of a
    single address at its first attempt. *)
Lemma Login_last_resort (net : Net) (p : Params) (ip user pass : string)
    (more : Credential) (creds : list Credential) (c : Connection) :
  IpAddresses p = [ip] -> ip <> "" ->
  Credentials p = ((user, pass) :: more) :: creds ->
  CheckCredential p = true -> (0 <= Retries p)%Z ->
  finds net 0 (attempt ip user pass) c -> chassisController c false ->
  Login net p
  = {| connection := Some c;
       loginInfo := {| FailedCredentials := []; WorkingCredentials := {[ user := pass ]};
                       ActiveIpAddress := ""; Attempts := 1 |};
       err := None;
       tried := [attempt ip user pass] |}.
Proof.
  intros Hips Hip Hcreds Hcheck Hretries Hfinds Hchassis.
  unfold Login. rewrite Hcreds. cbn [credentialLoop entryLoop].
  rewrite Hips. cbn [ipLoop]. rewrite bool_decide_eq_false_2 by exact Hip.
  rewrite iterations_positive by exact Hretries.
  rewrite (retryLoop_standby net p _ ip user pass _ c)
    by (apply attemptLogin_standby; assumption).
  rewrite Hips. reflexivity.
Qed.

(** The login of two addresses, the first answered by a standby
    controller and the second by the active one, both taking the first
    credential: the second address is the active one, and nothing is
    recorded as failed. *)
Lemma Login_second_address (net : Net) (p : Params) (ip1 ip2 user pass : string)
    (more : Credential) (creds : list Credential) (c1 c2 : Connection) :
  IpAddresses p = [ip1; ip2] -> ip1 <> "" -> ip2 <> "" ->
  Credentials p = ((user, pass) :: more) :: creds ->
  CheckCredential p = true -> (0 <= Retries p)%Z ->
  finds net 0 (attempt ip1 user pass) c1 -> chassisController c1 false ->
  finds net 1 (attempt ip2 user pass) c2 -> chassisController c2 true ->
  Login net p
  = {| connection := Some c2;
       loginInfo := {| FailedCredentials := []; WorkingCredentials := {[ user := pass ]};
                       ActiveIpAddress := ip2; Attempts := 2 |};
       err := None;
       tried := [attempt ip1 user pass; attempt ip2 user pass] |}.
Proof.
  intros Hips Hip1 Hip2 Hcreds Hcheck Hretries Hf1 Hc1 Hf2 Hc2.
  unfold Login. rewrite Hcreds. cbn [credentialLoop entryLoop].
  rewrite Hips. cbn [ipLoop].
  rewrite (bool_decide_eq_false_2 _ Hip1), (bool_decide_eq_false_2 _ Hip2).
  rewrite iterations_positive by exact Hretries.
  rewrite (retryLoop_standby net p _ ip1 user pass _ c1)
    by (apply attemptLogin_standby; assumption).
  rewrite Hips. cbn [length].
  rewrite bool_decide_eq_false_2 by discriminate.
  rewrite (retryLoop_accepted net p _ ip2 user pass _ c2)
    by (apply attemptLogin_active; assumption).
  reflexivity.
Qed.

End LoginClaims.

(** ** The dispatcher *)

Section ButlerFacts.

Import Devices Butler.

Lemma counter_incr_same (key : list string) (st : State) :
  counter (metrics (incr key st)) key = counter (metrics st) key + 1.
Proof.
  unfold incr, IncrCounter. cbn [metrics]. unfold counter at 1.
  rewrite lookup_insert_eq. reflexivity.
Qed.

Lemma counter_incr_other (key key' : list string) (st : State) :
  key <> key' -> counter (metrics (incr key st)) key' = counter (metrics st) key'.
Proof.
  intros Hne. unfold incr, IncrCounter. cbn [metrics]. unfold counter at 1.
  rewrite lookup_insert_ne by exact Hne. reflexivity.
Qed.

Lemma myLocation_spec (b : Butler) (location : string) :
  myLocation b location = true <-> location ∈ Config.Locations (Config_ b).
Proof.
  unfold myLocation. induction (Config.Locations (Config_ b)) as [|l ls IH].
  - split; [discriminate|]. intros H. inversion H.
  - destruct (bool_decide (l = location)) eqn:Hl.
    + apply bool_decide_eq_true_1 in Hl. subst l. split; [|reflexivity].
      intros _. left.
    + apply bool_decide_eq_false_1 in Hl. rewrite IH. split.
      * intros H. right. exact H.
      * intros H. apply elem_of_cons in H as [->|H]; [contradiction|exact H].
Qed.

Lemma noIP_spec (ips : list string) :
  noIP ips = true <-> ips = [] \/ ips = ["0.0.0.0"].
Proof.
  unfold noIP. destruct ips as [|ip [|ip' ips]]; simpl.
  - split; auto.
  - destruct (bool_decide (Some ip = Some "0.0.0.0")) eqn:Hip.
    + apply bool_decide_eq_true_1 in Hip. injection Hip as ->. split; auto.
    + apply bool_decide_eq_false_1 in Hip. split; [discriminate|].
      intros [H|H]; [discriminate|]. injection H as ->. contradiction.
  - split; [discriminate|]. intros [H|H]; discriminate.
Qed.

(** [configureAsset] leaves the metrics alone. *)
Lemma configureAsset_metrics (w : World) (b : Butler) (config : string)
    (asset : Asset.Asset) (st : State) :
  metrics (snd (configureAsset w b config asset st)) = metrics st.
Proof.
  unfold configureAsset. destruct (Config.DryRun (Config_ b)); [reflexivity|].
  destruct (Bmclogin.err _); [reflexivity|].
  unfold afterLogin. destruct (Bmclogin.connection _) as [client|]; [|reflexivity].
  destruct (dynType client); try reflexivity;
    destruct (LoadConfigResources w config _) as [rendered|]; try reflexivity.
  destruct (Cfgresources.SetupChassis rendered); reflexivity.
Qed.

(** The switch on the action flags does not count an unmanaged location. *)
Lemma dispatch_unmanaged (w : World) (b : Butler) (msg : Msg) (st : State) :
  counter (metrics (dispatch w b msg st)) ["butler"; "asset_recvd_location_unmanaged"]
  = counter (metrics st) ["butler"; "asset_recvd_location_unmanaged"].
Proof.
  unfold dispatch. destruct (Asset.Execute (Asset_ msg)).
  - destruct (executeCommand w _ _); rewrite counter_incr_other by discriminate;
      reflexivity.
  - destruct (Asset.Configure (Asset_ msg)); [|reflexivity].
    pose proof (configureAsset_metrics w b (AssetConfig msg) (Asset_ msg)
                  (invoke (ConfigureAsset (Asset_ msg)) st)) as Hm.
    destruct (configureAsset w b (AssetConfig msg) (Asset_ msg) _) as [[e a'] st1].
    simpl in Hm.
    destruct e; rewrite counter_incr_other by discriminate; simpl; rewrite Hm;
      reflexivity.
Qed.

(** After a login without error, [configureAsset] leaves in the
    [IPAddress] of the asset the [ActiveIpAddress] of the login. *)
Lemma configureAsset_address (w : World) (b : Butler) (config : string)
    (asset : Asset.Asset) (st : State) :
  Config.DryRun (Config_ b) = false ->
  Bmclogin.err (Bmclogin.Login (net w) (bmcConn b asset)) = None ->
  Asset.IPAddress (snd (fst (configureAsset w b config asset st)))
  = Bmclogin.ActiveIpAddress
      (Bmclogin.loginInfo (Bmclogin.Login (net w) (bmcConn b asset))).
Proof.
  intros Hdry Herr. unfold configureAsset. rewrite Hdry, Herr.
  unfold afterLogin.
  destruct (Bmclogin.connection _) as [client|]; [|reflexivity].
  destruct (dynType client); try reflexivity;
    destruct (LoadConfigResources w config _) as [rendered|]; reflexivity.
Qed.

End ButlerFacts.

Section ButlerClaims.

Import Devices Butler.

Abbreviation attempt ip user pass :=
  {| Bmclogin.at_ip := ip; Bmclogin.at_user := user; Bmclogin.at_pass := pass |}.

Abbreviation noipKey := ["butler"; "asset_recvd_noip"].
Abbreviation unmanagedKey := ["butler"; "asset_recvd_location_unmanaged"].

(** C8, as stated, fails: once the interrupt flag of the butler is set,
    the handler returns at its first statement, and a message without any
    address leaves the no-IP counter as it was. *)
Lemma no_address_counterexample :
  let b := Fixtures.butlerAt [] false true in
  let msg := Fixtures.message [] "" in
  let st' := msgHandler (Fixtures.world Fixtures.nobody) b msg Fixtures.start in
  Asset.IPAddresses (Asset_ msg) = []
  /\ interrupt b = true
  /\ counter (metrics st') noipKey = counter (metrics Fixtures.start) noipKey
  /\ counter (metrics st') noipKey <> counter (metrics Fixtures.start) noipKey + 1.
Proof. vm_compute. repeat split. discriminate. Qed.

(** C8 (amended): when the interrupt flag of the butler is not set, a
    message whose asset has no address, or the single address "0.0.0.0",
    is rejected: the handler counts the message as received, logs the
    rejection, adds one to the no-IP counter and returns, without login or
    any other action and without touching any other counter. *)
Theorem no_address_rejected (w : World) (b : Butler) (msg : Msg) (st : State) :
  interrupt b = false ->
  Asset.IPAddresses (Asset_ msg) = [] \/ Asset.IPAddresses (Asset_ msg) = ["0.0.0.0"] ->
  let st' := msgHandler w b msg st in
  st' = incr noipKey
          (logged Warn "Asset was received by butler without any IP(s) info, skipped."
             (incr ["butler"; "asset_recvd"] st))
  /\ invoked st' = invoked st
  /\ counter (metrics st') noipKey = counter (metrics st) noipKey + 1
  /\ (forall key, key <> noipKey -> key <> ["butler"; "asset_recvd"] ->
      counter (metrics st') key = counter (metrics st) key).
Proof.
  intros Hrun Hips st'. subst st'. unfold msgHandler. rewrite Hrun.
  apply noIP_spec in Hips. rewrite Hips.
  split; [reflexivity|]. split; [reflexivity|]. split.
  - rewrite counter_incr_same. cbn [metrics logged].
    rewrite counter_incr_other by discriminate. reflexivity.
  - intros key Hk1 Hk2. rewrite counter_incr_other by congruence. cbn [metrics logged].
    rewrite counter_incr_other by congruence. reflexivity.
Qed.

Lemma no_address_rejected_witness :
  let w := Fixtures.world Fixtures.twoControllers in
  let b := Fixtures.butlerAt ["ams1"] false false in
  let msg := Fixtures.message ["0.0.0.0"] "ams1" in
  let st' := msgHandler w b msg Fixtures.start in
  st' = incr noipKey
          (logged Warn "Asset was received by butler without any IP(s) info, skipped."
             (incr ["butler"; "asset_recvd"] Fixtures.start))
  /\ invoked st' = invoked Fixtures.start
  /\ counter (metrics st') noipKey = counter (metrics Fixtures.start) noipKey + 1
  /\ (forall key, key <> noipKey -> key <> ["butler"; "asset_recvd"] ->
      counter (metrics st') key = counter (metrics Fixtures.start) key).
Proof.
  intros w b msg.
  apply (no_address_rejected w b msg Fixtures.start); [reflexivity|].
  right. reflexivity.
Defined.

(** C9, as stated, fails: with an empty allow-list and no override, an
    asset that has a location and a usable address is rejected, although
    the switch on its action flags would have configured it. *)
Lemma location_filter_counterexample :
  let w := Fixtures.world Fixtures.twoControllers in
  let b := Fixtures.butlerAt [] false false in
  let msg := Fixtures.message ["10.0.0.1"; "10.0.0.2"] "ams1" in
  let st' := msgHandler w b msg Fixtures.start in
  Config.Locations (Config_ b) = []
  /\ Asset.Location (Asset_ msg) = "ams1"
  /\ invoked st' = []
  /\ counter (metrics st') unmanagedKey = 1
  /\ st' <> dispatch w b msg (incr ["butler"; "asset_recvd"] Fixtures.start).
Proof.
  vm_compute. repeat split. intros H.
  apply (f_equal (fun s => length (invoked s))) in H. vm_compute in H. discriminate H.
Qed.

(** C9 (amended): for a message that is handled (the interrupt flag is not
    set and the asset has a usable address) and whose asset has a
    non-empty location, the handler rejects the asset, counting it as
    unmanaged and taking no action, exactly when the allow-list does not
    contain that location (an empty allow-list contains none) and the
    ignore-location override is not set; otherwise it goes on to the
    switch on the action flags. *)
Theorem location_filter (w : World) (b : Butler) (msg : Msg) (st : State) :
  interrupt b = false ->
  noIP (Asset.IPAddresses (Asset_ msg)) = false ->
  Asset.Location (Asset_ msg) <> "" ->
  let rejected :=
    (Asset.Location (Asset_ msg) ∉ Config.Locations (Config_ b))
    /\ Config.IgnoreLocation (Config_ b) = false in
  let st1 := incr ["butler"; "asset_recvd"] st in
  let st' := msgHandler w b msg st in
  (rejected ->
   st' = incr unmanagedKey
           (logged Warn "Butler won't manage asset based on its current location." st1)
   /\ invoked st' = invoked st)
  /\ (~ rejected -> st' = dispatch w b msg st1)
  /\ (counter (metrics st') unmanagedKey = counter (metrics st) unmanagedKey + 1
      <-> rejected).
Proof.
  intros Hrun Hips Hloc rejected st1 st'. subst rejected st1 st'.
  unfold msgHandler. rewrite Hrun, Hips.
  rewrite (bool_decide_eq_false_2 _ Hloc). cbn [negb andb].
  pose proof (myLocation_spec b (Asset.Location (Asset_ msg))) as Hmine.
  destruct (myLocation b (Asset.Location (Asset_ msg))) eqn:Hmy;
    destruct (Config.IgnoreLocation (Config_ b)) eqn:Hig; cbn [negb andb].
  all: try (assert (Hin : Asset.Location (Asset_ msg) ∈ Config.Locations (Config_ b))
              by (apply Hmine; reflexivity)).
  all: try (assert (Hout : Asset.Location (Asset_ msg) ∉ Config.Locations (Config_ b))
              by (intros Hin; apply Hmine in Hin; discriminate Hin)).
  4: { split; [intros _; split; reflexivity|]. split; [intros Hno; exfalso; auto|].
       split; [auto|]. intros _. rewrite counter_incr_same. cbn [metrics logged].
       rewrite counter_incr_other by discriminate. reflexivity. }
  all: split; [intros [Hno Hf]; first [contradiction | discriminate]|].
  all: split; [reflexivity|].
  all: rewrite dispatch_unmanaged, counter_incr_other by discriminate.
  all: split; [lia|intros [Hno Hf]; first [contradiction | discriminate]].
Qed.

Lemma location_filter_witness :
  let w := Fixtures.world Fixtures.twoControllers in
  let b := Fixtures.butlerAt ["lhr2"] false false in
  let msg := Fixtures.message ["10.0.0.1"; "10.0.0.2"] "ams1" in
  let st' := msgHandler w b msg Fixtures.start in
  st' = incr unmanagedKey
          (logged Warn "Butler won't manage asset based on its current location."
             (incr ["butler"; "asset_recvd"] Fixtures.start))
  /\ invoked st' = invoked Fixtures.start
  /\ counter (metrics st') unmanagedKey = counter (metrics Fixtures.start) unmanagedKey + 1.
Proof.
  intros w b msg st'.
  destruct (location_filter w b msg Fixtures.start) as (Hrej & _ & Hcount);
    [reflexivity | reflexivity | discriminate |].
  assert (Hout : (Asset.Location (Asset_ msg) ∉ Config.Locations (Config_ b))
                 /\ Config.IgnoreLocation (Config_ b) = false).
  { split; [|reflexivity]. intros Hin. apply list_elem_of_singleton in Hin.
    discriminate Hin. }
  destruct (Hrej Hout) as [Hst Hinv].
  split; [exact Hst|]. split; [exact Hinv|]. apply Hcount. exact Hout.
Defined.

(** C4: a chassis asset with two addresses, in the login that
    [configureAsset] starts for it.
    - Whenever an attempt meets the active controller and the credential
      is valid, [Login] returns there with a nil error and the address of
      that attempt as [ActiveIpAddress].
    - An attempt that meets a controller that is not active, the
      credential being valid, leaves no record among the failed
      credentials: they are the records of the attempts before it and of
      the attempts after it.
    - With the first address answered by a controller that is not active
      and the second by the active one, both taking the first credential,
      the login makes these two attempts, succeeds with the second address
      as [ActiveIpAddress], and records no failed credential. *)
Theorem active_controller_found (w : World) (b : Butler) (asset : Asset.Asset)
    (ip1 ip2 : string) :
  Asset.IPAddresses asset = [ip1; ip2] ->
  let r := Bmclogin.Login (net w) (bmcConn b asset) in
  (forall k a c,
      Bmclogin.tried r !! k = Some a ->
      LoginTerms.finds (net w) k a c -> LoginTerms.chassisController c true ->
      Bmclogin.err r = None
      /\ Bmclogin.connection r = Some c
      /\ Bmclogin.ActiveIpAddress (Bmclogin.loginInfo r) = Bmclogin.at_ip a)
  /\ (forall tr1 a tr2 c,
      Bmclogin.tried r = tr1 ++ a :: tr2 ->
      LoginTerms.finds (net w) (length tr1) a c ->
      LoginTerms.chassisController c false ->
      Bmclogin.FailedCredentials (Bmclogin.loginInfo r)
      = LoginTerms.failedFrom (net w) (bmcConn b asset) 0 tr1
        ++ LoginTerms.failedFrom (net w) (bmcConn b asset) (S (length tr1)) tr2)
  /\ (forall user pass more creds c1 c2,
      ip1 <> "" -> ip2 <> "" ->
      Config.Credentials (Config_ b) = ((user, pass) :: more) :: creds ->
      LoginTerms.finds (net w) 0 (attempt ip1 user pass) c1 ->
      LoginTerms.chassisController c1 false ->
      LoginTerms.finds (net w) 1 (attempt ip2 user pass) c2 ->
      LoginTerms.chassisController c2 true ->
      Bmclogin.tried r = [attempt ip1 user pass; attempt ip2 user pass]
      /\ Bmclogin.err r = None
      /\ Bmclogin.connection r = Some c2
      /\ Bmclogin.ActiveIpAddress (Bmclogin.loginInfo r) = ip2
      /\ Bmclogin.FailedCredentials (Bmclogin.loginInfo r) = []).
Proof.
  intros Hips r. subst r. split; [|split].
  - intros k a c Hk Hfinds Hchassis.
    destruct (Login_accepted (net w) (bmcConn b asset) k a (Some c) Hk)
      as (Herr & Hconn & _ & Hactive).
    + apply outcome_active; [reflexivity | assumption | assumption].
    + auto.
  - intros tr1 a tr2 c Htried Hfinds Hchassis.
    apply (Login_failed_without (net w) (bmcConn b asset) tr1 tr2 a Htried).
    rewrite (outcome_standby (net w) (bmcConn b asset) (length tr1) a c eq_refl
               Hfinds Hchassis).
    discriminate.
  - intros user pass more creds c1 c2 Hip1 Hip2 Hcreds Hf1 Hc1 Hf2 Hc2.
    rewrite (Login_second_address (net w) (bmcConn b asset) ip1 ip2 user pass more creds
               c1 c2 Hips Hip1 Hip2 Hcreds eq_refl ltac:(simpl; lia) Hf1 Hc1 Hf2 Hc2).
    repeat split.
Qed.

Lemma active_controller_found_witness :
  let w := Fixtures.world Fixtures.twoControllers in
  let b := Fixtures.butlerAt [] true false in
  let asset := Fixtures.anAsset ["10.0.0.1"; "10.0.0.2"] "ams1" in
  let r := Bmclogin.Login (net w) (bmcConn b asset) in
  (Bmclogin.err r = None
   /\ Bmclogin.connection r = Some (Fixtures.chassis true)
   /\ Bmclogin.ActiveIpAddress (Bmclogin.loginInfo r) = "10.0.0.2")
  /\ Bmclogin.FailedCredentials (Bmclogin.loginInfo r)
     = LoginTerms.failedFrom (net w) (bmcConn b asset) 0 []
       ++ LoginTerms.failedFrom (net w) (bmcConn b asset) 1
            [attempt "10.0.0.2" "admin" "pass"]
  /\ (Bmclogin.tried r
      = [attempt "10.0.0.1" "admin" "pass"; attempt "10.0.0.2" "admin" "pass"]
      /\ Bmclogin.err r = None
      /\ Bmclogin.connection r = Some (Fixtures.chassis true)
      /\ Bmclogin.ActiveIpAddress (Bmclogin.loginInfo r) = "10.0.0.2"
      /\ Bmclogin.FailedCredentials (Bmclogin.loginInfo r) = []).
Proof.
  intros w b asset r.
  destruct (active_controller_found w b asset "10.0.0.1" "10.0.0.2" eq_refl)
    as (Hactive & Hstandby & Hfirst).
  split; [|split].
  - apply (Hactive 1 (attempt "10.0.0.2" "admin" "pass") (Fixtures.chassis true)).
    + reflexivity.
    + split; reflexivity.
    + repeat split.
  - apply (Hstandby [] (attempt "10.0.0.1" "admin" "pass")
             [attempt "10.0.0.2" "admin" "pass"] (Fixtures.chassis false)).
    + reflexivity.
    + split; reflexivity.
    + repeat split.
  - apply (Hfirst "admin" "pass" [] [] (Fixtures.chassis false) (Fixtures.chassis true)).
    + discriminate.
    + discriminate.
    + reflexivity.
    + split; reflexivity.
    + repeat split.
    + split; reflexivity.
    + repeat split.
Defined.

(** C5: a chassis asset with exactly one address. Whenever the login that
    [configureAsset] starts for the asset makes an attempt at which the
    credential check succeeds and the controller reports itself as not
    active, [Login] returns that connection with a nil error. With the
    address not empty and the first credential taken by such a
    controller, this is what the first attempt meets. *)
Theorem single_standby_accepted (w : World) (b : Butler) (asset : Asset.Asset)
    (ip : string) :
  Asset.IPAddresses asset = [ip] ->
  let r := Bmclogin.Login (net w) (bmcConn b asset) in
  (forall k a c,
      Bmclogin.tried r !! k = Some a ->
      LoginTerms.finds (net w) k a c -> LoginTerms.chassisController c false ->
      Bmclogin.connection r = Some c /\ Bmclogin.err r = None)
  /\ (forall user pass more creds c,
      ip <> "" ->
      Config.Credentials (Config_ b) = ((user, pass) :: more) :: creds ->
      LoginTerms.finds (net w) 0 (attempt ip user pass) c ->
      LoginTerms.chassisController c false ->
      Bmclogin.tried r = [attempt ip user pass]
      /\ Bmclogin.connection r = Some c /\ Bmclogin.err r = None).
Proof.
  intros Hips r. subst r. split.
  - intros k a c Hk Hfinds Hchassis.
    destruct (Login_standby_single (net w) (bmcConn b asset) k a (Some c))
      as (Herr & Hconn & _); try assumption.
    + simpl. rewrite Hips. reflexivity.
    + apply outcome_standby; [reflexivity | assumption | assumption].
    + split; assumption.
  - intros user pass more creds c Hip Hcreds Hfinds Hchassis.
    rewrite (Login_last_resort (net w) (bmcConn b asset) ip user pass more creds c
               Hips Hip Hcreds eq_refl ltac:(simpl; lia) Hfinds Hchassis).
    repeat split.
Qed.

Lemma single_standby_accepted_witness :
  let w := Fixtures.world Fixtures.standbyOnly in
  let b := Fixtures.butlerAt [] true false in
  let asset := Fixtures.anAsset ["10.0.0.1"] "ams1" in
  let r := Bmclogin.Login (net w) (bmcConn b asset) in
  (Bmclogin.connection r = Some (Fixtures.chassis false) /\ Bmclogin.err r = None)
  /\ (Bmclogin.tried r = [attempt "10.0.0.1" "admin" "pass"]
      /\ Bmclogin.connection r = Some (Fixtures.chassis false)
      /\ Bmclogin.err r = None).
Proof.
  intros w b asset r.
  destruct (single_standby_accepted w b asset "10.0.0.1" eq_refl) as [Hany Hfirst].
  split.
  - apply (Hany 0 (attempt "10.0.0.1" "admin" "pass") (Fixtures.chassis false)).
    + reflexivity.
    + split; reflexivity.
    + repeat split.
  - apply (Hfirst "admin" "pass" [] [] (Fixtures.chassis false)).
    + discriminate.
    + reflexivity.
    + split; reflexivity.
    + repeat split.
Defined.

(** C10: a chassis asset with a single address. Whenever the login that
    [configureAsset] starts for the asset ends on the last resort (an
    attempt at which the credential check succeeds and the controller
    reports itself as not active), its [LoginInfo] has the working
    credential set and the active address empty, and [configureAsset]
    then leaves the empty string in the [IPAddress] of the asset, although
    the login returned no error. With the address not empty and the first
    credential taken by such a controller, this is how the login ends. *)
Theorem last_resort_clears_address (w : World) (b : Butler) (config : string)
    (asset : Asset.Asset) (st : State) (ip : string) :
  Config.DryRun (Config_ b) = false ->
  Asset.IPAddresses asset = [ip] ->
  let r := Bmclogin.Login (net w) (bmcConn b asset) in
  (forall k a c,
      Bmclogin.tried r !! k = Some a ->
      LoginTerms.finds (net w) k a c -> LoginTerms.chassisController c false ->
      Bmclogin.err r = None
      /\ Bmclogin.WorkingCredentials (Bmclogin.loginInfo r)
         = {[ Bmclogin.at_user a := Bmclogin.at_pass a ]}
      /\ Bmclogin.ActiveIpAddress (Bmclogin.loginInfo r) = ""
      /\ Asset.IPAddress (snd (fst (configureAsset w b config asset st))) = "")
  /\ (forall user pass more creds c,
      ip <> "" ->
      Config.Credentials (Config_ b) = ((user, pass) :: more) :: creds ->
      LoginTerms.finds (net w) 0 (attempt ip user pass) c ->
      LoginTerms.chassisController c false ->
      Bmclogin.err r = None
      /\ Bmclogin.WorkingCredentials (Bmclogin.loginInfo r) = {[ user := pass ]}
      /\ Bmclogin.ActiveIpAddress (Bmclogin.loginInfo r) = ""
      /\ Asset.IPAddress (snd (fst (configureAsset w b config asset st))) = "").
Proof.
  intros Hdry Hips r. subst r. split.
  - intros k a c Hk Hfinds Hchassis.
    destruct (Login_standby_single (net w) (bmcConn b asset) k a (Some c))
      as (Herr & _ & Hw & Ha); try assumption.
    + simpl. rewrite Hips. reflexivity.
    + apply outcome_standby; [reflexivity | assumption | assumption].
    + split; [exact Herr|]. split; [exact Hw|]. split; [exact Ha|].
      rewrite (configureAsset_address w b config asset st Hdry Herr). exact Ha.
  - intros user pass more creds c Hip Hcreds Hfinds Hchassis.
    assert (Hlogin := Login_last_resort (net w) (bmcConn b asset) ip user pass more
                        creds c Hips Hip Hcreds eq_refl ltac:(simpl; lia)
                        Hfinds Hchassis).
    assert (Herr : Bmclogin.err (Bmclogin.Login (net w) (bmcConn b asset)) = None)
      by (rewrite Hlogin; reflexivity).
    rewrite (configureAsset_address w b config asset st Hdry Herr).
    rewrite Hlogin. repeat split.
Qed.

Lemma last_resort_clears_address_witness :
  let w := Fixtures.world Fixtures.standbyOnly in
  let b := Fixtures.butlerAt [] true false in
  let asset := Fixtures.anAsset ["10.0.0.1"] "ams1" in
  let r := Bmclogin.Login (net w) (bmcConn b asset) in
  Asset.IPAddress asset = "10.0.0.1"
  /\ (Bmclogin.err r = None
      /\ Bmclogin.WorkingCredentials (Bmclogin.loginInfo r) = {[ "admin" := "pass" ]}
      /\ Bmclogin.ActiveIpAddress (Bmclogin.loginInfo r) = ""
      /\ Asset.IPAddress (snd (fst (configureAsset w b "" asset Fixtures.start))) = "")
  /\ (Bmclogin.err r = None
      /\ Bmclogin.WorkingCredentials (Bmclogin.loginInfo r) = {[ "admin" := "pass" ]}
      /\ Bmclogin.ActiveIpAddress (Bmclogin.loginInfo r) = ""
      /\ Asset.IPAddress (snd (fst (configureAsset w b "" asset Fixtures.start))) = "").
Proof.
  intros w b asset r. split; [reflexivity|].
  destruct (last_resort_clears_address w b "" asset Fixtures.start "10.0.0.1"
              eq_refl eq_refl) as [Hany Hfirst].
  split.
  - apply (Hany 0 (attempt "10.0.0.1" "admin" "pass") (Fixtures.chassis false)).
    + reflexivity.
    + split; reflexivity.
    + repeat split.
  - apply (Hfirst "admin" "pass" [] [] (Fixtures.chassis false)).
    + discriminate.
    + reflexivity.
    + split; reflexivity.
    + repeat split.
Defined.

End ButlerClaims.

(** ** Runs on concrete inputs *)

Section Runs.

Import Devices.

(** The catalog of [ScanAndConnect] with the hint ["hpcl100"]: the last
    probe and the first change places. *)
Example swapProbe_catalog :
  Discover.swapProbe Discover.order "hpcl100"
  = ["hpcl100"; "idrac8"; "idrac9"; "supermicrox11"; "supermicrox"; "hpc7000";
     "m1000e"; "quanta"; "hpilo"].
Proof. reflexivity. Qed.

(** A hint outside the catalog changes nothing. *)
Example swapProbe_unknown_hint :
  Discover.swapProbe Discover.order "ilo9000" = Discover.order.
Proof. reflexivity. Qed.

(** A scan that finds the chassis with the seventh probe. *)
Example ScanAndConnect_m1000e :
  let scan := Discover.ScanAndConnect
                (Fixtures.recognised Discover.ProbeM1000e (Fixtures.chassis true)) [] in
  Discover.bmcConnection scan = Some (Fixtures.chassis true)
  /\ Discover.err scan = None
  /\ Discover.probed scan
     = ["hpilo"; "idrac8"; "idrac9"; "supermicrox11"; "supermicrox"; "hpc7000"; "m1000e"].
Proof. vm_compute. repeat split. Qed.

(** [Retries] 0 is read as 1, which makes two attempts per pair; the empty
    address is left out. *)
Example Login_retries_default :
  let r := Bmclogin.Login Fixtures.nobody
             (Fixtures.params ["10.0.0.1"; ""; "10.0.0.2"] 0) in
  Bmclogin.Attempts (Bmclogin.loginInfo r) = 4
  /\ length (Bmclogin.FailedCredentials (Bmclogin.loginInfo r)) = 4
  /\ Bmclogin.err r = Some "All attempts to login failed.".
Proof. vm_compute. repeat split. Qed.

(** A negative retry count makes no attempt at all. *)
Example Login_negative_retries :
  let r := Bmclogin.Login Fixtures.twoControllers
             (Fixtures.params ["10.0.0.1"; "10.0.0.2"] (-1)) in
  Bmclogin.tried r = [] /\ Bmclogin.err r = Some "All attempts to login failed.".
Proof. vm_compute. repeat split. Qed.

(** A failing lookup of extra groups is logged and changes neither list. *)
Example Apply_lookup_fails :
  let b := Fixtures.cmc Fixtures.silent ["ldap_group"] Fixtures.ldapSections in
  let out := Configure.Apply Fixtures.lookupFails b in
  Configure.success out = ["ldap_group"]
  /\ Configure.failed out = []
  /\ {| level := Warn; message := "Trying to fetch more LDAP groups has failed." |}
     ∈ Configure.log out.
Proof.
  vm_compute. repeat split. apply list_elem_of_In. vm_compute. tauto.
Qed.

(** On the same input the earlier revision of the ["ldap_group"] case hands
    the error of the device to the loop. *)
Example applyLdapGroupEarlier_error :
  let b := Fixtures.cmc Fixtures.refusesLdapGroups ["ldap_group"] Fixtures.ldapSections in
  fst (Configure.applyLdapGroupEarlier b (Configure.initialState b))
  = Some "ldap groups rejected"
  /\ fst (Configure.applyResource Fixtures.neverStopped b "ldap_group"
            (Configure.initialState b)) = None.
Proof. vm_compute. split; reflexivity. Qed.

(** A device that refuses [Ntp]: the resource is recorded as failed and the
    remaining resources are still applied. *)
Example Apply_ntp_refused :
  let b := Fixtures.cmc Fixtures.refusesNtp [] Fixtures.ldapSections in
  let out := Configure.Apply Fixtures.neverStopped b in
  Configure.success out = ["user"; "syslog"; "ldap"; "ldap_group"; "license"; "network"]
  /\ Configure.failed out = ["ntp"].
Proof. vm_compute. repeat split. Qed.

(** An asset in a managed location is configured: login on the active
    address, then the chassis configurator. *)
Example msgHandler_configures :
  let st := Butler.msgHandler (Fixtures.world Fixtures.twoControllers)
              (Fixtures.butlerAt ["ams1"] false false)
              (Fixtures.message ["10.0.0.1"; "10.0.0.2"] "ams1") Fixtures.start in
  Butler.counter (Butler.metrics st) ["butler"; "configure_success"] = 1
  /\ length (Butler.invoked st) = 5.
Proof. vm_compute. repeat split. Qed.

End Runs.

(** * Further properties *)

(** ** The discovery prober *)

Section DiscoverMore.

Import Devices Discover DiscoverTerms.

Lemma probeLoop_miss (env : ScanEnv) (opts : Options) (probeID : string)
    (rest done : list string) :
  misses env opts probeID ->
  probeLoop env opts (probeID :: rest) done = probeLoop env opts rest (done ++ [probeID]).
Proof.
  intros [Hfail|[Hnil Hcb]].
  - apply probeLoop_skip. exact Hfail.
  - simpl. rewrite Hnil, Hcb. reflexivity.
Qed.

Lemma probeLoop_misses (env : ScanEnv) (opts : Options) (pre rest done : list string) :
  (forall q, q ∈ pre -> misses env opts q) ->
  probeLoop env opts (pre ++ rest) done = probeLoop env opts rest (done ++ pre).
Proof.
  revert done. induction pre as [|q pre IH]; intros done Hpre.
  - simpl. rewrite app_nil_r. reflexivity.
  - change ((q :: pre) ++ rest) with (q :: (pre ++ rest)).
    rewrite probeLoop_miss by (apply Hpre; left).
    rewrite IH by (intros q' Hq'; apply Hpre; right; exact Hq').
    rewrite <- app_assoc. reflexivity.
Qed.

Lemma tryOrder_Permutation (catalog : list string) (opts : Options) :
  tryOrder catalog opts ≡ₚ catalog.
Proof.
  unfold tryOrder. destruct (bool_decide (Hint opts = "")); [reflexivity|].
  apply swapProbe_Permutation.
Qed.

Lemma tryOrder_hint_first (catalog : list string) (opts : Options) :
  Hint opts <> "" -> Hint opts ∈ catalog ->
  head (tryOrder catalog opts) = Some (Hint opts).
Proof.
  intros Hne Hin. unfold tryOrder. rewrite bool_decide_eq_false_2 by exact Hne.
  apply swapProbe_hint_first. exact Hin.
Qed.

(** X1: whatever the hint, the try order of a scan holds the probes of the
    catalog, each as often as the catalog does; a hint that names a probe
    of the catalog puts it first, and any other hint leaves the catalog
    order as it is. *)
Theorem tryOrder_keeps_catalog (catalog : list string) (opts : Options) :
  tryOrder catalog opts ≡ₚ catalog
  /\ length (tryOrder catalog opts) = length catalog
  /\ (Hint opts <> "" -> Hint opts ∈ catalog ->
      head (tryOrder catalog opts) = Some (Hint opts))
  /\ (Hint opts ∉ catalog -> tryOrder catalog opts = catalog).
Proof.
  split; [apply tryOrder_Permutation|].
  split; [rewrite tryOrder_Permutation; reflexivity|]. split.
  - apply tryOrder_hint_first.
  - intros Hout. unfold tryOrder. destruct (bool_decide (Hint opts = "")); [reflexivity|].
    apply swapProbe_absent. exact Hout.
Qed.

Lemma tryOrder_keeps_catalog_witness :
  head (tryOrder order (WithProbeHint "m1000e" defaultOptions)) = Some "m1000e"
  /\ tryOrder order (WithProbeHint "ilo9000" defaultOptions) = order.
Proof.
  split.
  - apply (tryOrder_keeps_catalog order (WithProbeHint "m1000e" defaultOptions)).
    + discriminate.
    + apply list_elem_of_In. vm_compute. tauto.
  - apply (tryOrder_keeps_catalog order (WithProbeHint "ilo9000" defaultOptions)).
    intros Hin. apply list_elem_of_In in Hin. vm_compute in Hin.
    repeat (destruct Hin as [Hin|Hin]; [discriminate Hin|]). exact Hin.
Defined.

Lemma probeLoop_shape (env : ScanEnv) (opts : Options) (l done : list string) :
  (is_Some (bmcConnection (probeLoop env opts l done))
   <-> err (probeLoop env opts l done) = None)
  /\ exists l1, probed (probeLoop env opts l done) = done ++ l1 /\ l1 `prefix_of` l.
Proof.
  revert done. induction l as [|probeID rest IH]; intros done.
  - simpl. split.
    + split; [intros [c Hc]; discriminate Hc|discriminate].
    + exists []. rewrite app_nil_r. split; [reflexivity|apply prefix_nil].
  - simpl. destruct (devices env probeID) as [conn e].
    assert (Hnext : (is_Some (bmcConnection (probeLoop env opts rest (done ++ [probeID])))
                     <-> err (probeLoop env opts rest (done ++ [probeID])) = None)
                    /\ exists l1, probed (probeLoop env opts rest (done ++ [probeID]))
                                  = done ++ l1 /\ l1 `prefix_of` probeID :: rest).
    { destruct (IH (done ++ [probeID])) as (Hiff & l1 & Hp & Hpre).
      split; [exact Hiff|]. exists (probeID :: l1).
      rewrite Hp, <- app_assoc. split; [reflexivity|].
      apply prefix_cons. exact Hpre. }
    assert (Hhere : [probeID] `prefix_of` probeID :: rest).
    { exists rest. reflexivity. }
    destruct e as [e|]; [exact Hnext|].
    destruct (HintCallback opts probeID) as [hintErr|].
    + simpl. split.
      * split; [intros [c Hc]; discriminate Hc|discriminate].
      * exists [probeID]. split; [reflexivity|exact Hhere].
    + destruct conn as [c|]; [|exact Hnext]. simpl. split.
      * split; [reflexivity|intros _; eexists; reflexivity].
      * exists [probeID]. split; [reflexivity|exact Hhere].
Qed.

(** X2: outside the test mode, a scan returns a connection exactly when it
    returns no error, whatever the probes answer; and the probes it has
    run are an initial part of its try order. *)
Theorem scan_connection_or_error (catalog : list string) (env : ScanEnv)
    (opts : Options) :
  bmclibTest env = false ->
  (is_Some (bmcConnection (scanCatalog catalog env opts))
   <-> err (scanCatalog catalog env opts) = None)
  /\ probed (scanCatalog catalog env opts) `prefix_of` tryOrder catalog opts.
Proof.
  intros Htest. unfold scanCatalog. rewrite Htest.
  destruct (httpBuild env) as [e|].
  - simpl. split; [|apply prefix_nil].
    split; [intros [c Hc]; discriminate Hc|discriminate].
  - destruct (probeLoop_shape env opts (tryOrder catalog opts) [])
      as (Hiff & l1 & Hp & Hpre).
    split; [exact Hiff|]. rewrite Hp. exact Hpre.
Qed.

Lemma scan_connection_or_error_witness :
  (is_Some (bmcConnection (ScanAndConnect
              (Fixtures.recognised ProbeM1000e (Fixtures.chassis true)) []))
   <-> err (ScanAndConnect
              (Fixtures.recognised ProbeM1000e (Fixtures.chassis true)) []) = None)
  /\ probed (ScanAndConnect
               (Fixtures.recognised ProbeM1000e (Fixtures.chassis true)) [])
     `prefix_of` order.
Proof.
  apply (scan_connection_or_error order
           (Fixtures.recognised ProbeM1000e (Fixtures.chassis true)) defaultOptions).
  reflexivity.
Defined.

(** X3: the first probe of the try order that answers with a connection
    and no error wins: when every probe before it misses and the hint
    callback takes its name, the scan returns its connection, and the
    probes after it are not run. *)
Theorem first_matching_probe_wins (catalog : list string) (env : ScanEnv)
    (opts : Options) (pre post : list string) (probeID : string) (c : Connection) :
  bmclibTest env = false -> httpBuild env = None ->
  tryOrder catalog opts = pre ++ probeID :: post ->
  (forall q, q ∈ pre -> misses env opts q) ->
  devices env probeID = (Some c, None) ->
  HintCallback opts probeID = None ->
  scanCatalog catalog env opts
  = {| bmcConnection := Some c; err := None; probed := pre ++ [probeID] |}.
Proof.
  intros Htest Hbuild Horder Hpre Hdev Hcb. unfold scanCatalog.
  rewrite Htest, Hbuild, Horder, (probeLoop_misses env opts pre _ [] Hpre).
  simpl. rewrite Hdev, Hcb. reflexivity.
Qed.

Lemma first_matching_probe_wins_witness :
  ScanAndConnect (Fixtures.recognised ProbeIdrac9 Fixtures.server) []
  = {| bmcConnection := Some Fixtures.server; err := None;
       probed := ["hpilo"; "idrac8"; "idrac9"] |}.
Proof.
  apply (first_matching_probe_wins order
           (Fixtures.recognised ProbeIdrac9 Fixtures.server) defaultOptions
           ["hpilo"; "idrac8"] ["supermicrox11"; "supermicrox"; "hpc7000"; "m1000e";
                                "quanta"; "hpcl100"] "idrac9" Fixtures.server);
    try reflexivity.
  intros q Hq. left. apply list_elem_of_In in Hq. simpl in Hq.
  destruct Hq as [<-|[<-|[]]]; eexists; reflexivity.
Defined.

(** X4: when the hint callback refuses the name of the probe that
    answered without error, the scan returns that error and no
    connection, even if the probe had returned one; the probes after it
    are not run. *)
Theorem hint_callback_error_drops_connection (catalog : list string) (env : ScanEnv)
    (opts : Options) (pre post : list string) (probeID : string)
    (conn : option Connection) (hintErr : error) :
  bmclibTest env = false -> httpBuild env = None ->
  tryOrder catalog opts = pre ++ probeID :: post ->
  (forall q, q ∈ pre -> misses env opts q) ->
  devices env probeID = (conn, None) ->
  HintCallback opts probeID = Some hintErr ->
  scanCatalog catalog env opts
  = {| bmcConnection := None; err := Some hintErr; probed := pre ++ [probeID] |}.
Proof.
  intros Htest Hbuild Horder Hpre Hdev Hcb. unfold scanCatalog.
  rewrite Htest, Hbuild, Horder, (probeLoop_misses env opts pre _ [] Hpre).
  simpl. rewrite Hdev, Hcb. reflexivity.
Qed.

Lemma hint_callback_error_drops_connection_witness :
  ScanAndConnect (Fixtures.recognised ProbeHpIlo Fixtures.server)
    [WithHintCallBack (fun _ => Some "cannot store the hint")]
  = {| bmcConnection := None; err := Some "cannot store the hint"; probed := ["hpilo"] |}.
Proof.
  apply (hint_callback_error_drops_connection order
           (Fixtures.recognised ProbeHpIlo Fixtures.server)
           (WithHintCallBack (fun _ => Some "cannot store the hint") defaultOptions)
           [] ["idrac8"; "idrac9"; "supermicrox11"; "supermicrox"; "hpc7000"; "m1000e";
               "quanta"; "hpcl100"] "hpilo" (Some Fixtures.server) "cannot store the hint");
    try reflexivity.
  intros q Hq. inversion Hq.
Defined.

Lemma probeLoop_only_match (env : ScanEnv) (opts : Options) (probeID : string)
    (c : Connection) (l done : list string) :
  probeID ∈ l ->
  (forall q, q ∈ l -> q <> probeID -> is_Some (snd (devices env q))) ->
  devices env probeID = (Some c, None) ->
  HintCallback opts probeID = None ->
  bmcConnection (probeLoop env opts l done) = Some c
  /\ err (probeLoop env opts l done) = None.
Proof.
  intros Hin Hothers Hdev Hcb. revert done.
  induction l as [|q l IH]; intros done; [inversion Hin|].
  destruct (decide (q = probeID)) as [->|Hne].
  - simpl. rewrite Hdev, Hcb. auto.
  - rewrite probeLoop_skip by (apply Hothers; [left|exact Hne]).
    apply IH.
    + apply elem_of_cons in Hin as [->|Hin]; [contradiction|exact Hin].
    + intros q' Hq'. apply Hothers. right. exact Hq'.
Qed.

(** X5: the hint only saves probes. When one probe of the catalog answers
    with a connection and every other probe answers with an error, the
    scan returns that connection whatever the hint is; with that probe as
    the hint it is the only probe run. *)
Theorem hint_does_not_change_the_device (catalog : list string) (env : ScanEnv)
    (opts : Options) (probeID : string) (c : Connection) :
  bmclibTest env = false -> httpBuild env = None ->
  probeID ∈ catalog ->
  (forall q, q ∈ catalog -> q <> probeID -> is_Some (snd (devices env q))) ->
  devices env probeID = (Some c, None) ->
  HintCallback opts probeID = None ->
  bmcConnection (scanCatalog catalog env opts) = Some c
  /\ err (scanCatalog catalog env opts) = None
  /\ (Hint opts = probeID -> probeID <> "" ->
      probed (scanCatalog catalog env opts) = [probeID]).
Proof.
  intros Htest Hbuild Hin Hothers Hdev Hcb.
  pose proof (tryOrder_Permutation catalog opts) as Hperm.
  pose proof (tryOrder_hint_first catalog opts) as Hfirst.
  unfold scanCatalog. rewrite Htest, Hbuild.
  destruct (probeLoop_only_match env opts probeID c (tryOrder catalog opts) [])
    as [Hconn Herr]; try assumption.
  - rewrite Hperm. exact Hin.
  - intros q Hq. apply Hothers. rewrite <- Hperm. exact Hq.
  - split; [exact Hconn|]. split; [exact Herr|].
    intros Hhint Hne. rewrite Hhint in Hfirst. specialize (Hfirst Hne Hin).
    destruct (tryOrder catalog opts) as [|q l]; [discriminate Hfirst|].
    injection Hfirst as ->. simpl. rewrite Hdev, Hcb. reflexivity.
Qed.

Lemma hint_does_not_change_the_device_witness :
  let env := Fixtures.recognised ProbeM1000e (Fixtures.chassis true) in
  (bmcConnection (ScanAndConnect env [WithProbeHint "quanta"])
   = Some (Fixtures.chassis true)
   /\ err (ScanAndConnect env [WithProbeHint "quanta"]) = None)
  /\ probed (ScanAndConnect env [WithProbeHint "m1000e"]) = ["m1000e"].
Proof.
  intros env.
  assert (Hin : "m1000e" ∈ order) by (apply list_elem_of_In; vm_compute; tauto).
  assert (Hothers : forall q, q ∈ order -> q <> "m1000e" -> is_Some (snd (devices env q))).
  { intros q _ Hq. unfold env, Fixtures.recognised, ProbeM1000e. cbn [devices].
    destruct (String.eqb q "m1000e") eqn:Heq.
    - apply String.eqb_eq in Heq. contradiction.
    - eexists. reflexivity. }
  split.
  - destruct (hint_does_not_change_the_device order env
                (WithProbeHint "quanta" defaultOptions) "m1000e" (Fixtures.chassis true)
                eq_refl eq_refl Hin Hothers eq_refl eq_refl) as (Hc & He & _).
    split; assumption.
  - destruct (hint_does_not_change_the_device order env
                (WithProbeHint "m1000e" defaultOptions) "m1000e" (Fixtures.chassis true)
                eq_refl eq_refl Hin Hothers eq_refl eq_refl) as (_ & _ & Hp).
    apply Hp; [reflexivity|discriminate].
Defined.

(** X6: when every probe of the catalog answers with an error, the scan
    fails with the vendor-unknown error and no connection, after running
    every probe of the catalog exactly as often as the catalog names it. *)
Theorem scan_vendor_unknown (catalog : list string) (env : ScanEnv) (opts : Options) :
  bmclibTest env = false -> httpBuild env = None ->
  (forall q, q ∈ catalog -> is_Some (snd (devices env q))) ->
  bmcConnection (scanCatalog catalog env opts) = None
  /\ err (scanCatalog catalog env opts) = Some ErrVendorUnknown
  /\ probed (scanCatalog catalog env opts) = tryOrder catalog opts
  /\ probed (scanCatalog catalog env opts) ≡ₚ catalog.
Proof.
  intros Htest Hbuild Hall.
  pose proof (tryOrder_Permutation catalog opts) as Hperm.
  unfold scanCatalog. rewrite Htest, Hbuild.
  rewrite probeLoop_all_fail by (intros q Hq; apply Hall; rewrite <- Hperm; exact Hq).
  simpl. auto.
Qed.

Lemma scan_vendor_unknown_witness :
  bmcConnection (ScanAndConnect Fixtures.unreachable [WithProbeHint "quanta"]) = None
  /\ err (ScanAndConnect Fixtures.unreachable [WithProbeHint "quanta"])
     = Some ErrVendorUnknown
  /\ probed (ScanAndConnect Fixtures.unreachable [WithProbeHint "quanta"])
     = tryOrder order (WithProbeHint "quanta" defaultOptions)
  /\ probed (ScanAndConnect Fixtures.unreachable [WithProbeHint "quanta"]) ≡ₚ order.
Proof.
  apply (scan_vendor_unknown order Fixtures.unreachable
           (WithProbeHint "quanta" defaultOptions)); try reflexivity.
  intros q _. eexists. reflexivity.
Defined.

End DiscoverMore.

(** ** The login engine *)

Section LoginMore.

Import Devices Bmclogin LoginTerms LoginMoreTerms.

Abbreviation attempt ip user pass := {| at_ip := ip; at_user := user; at_pass := pass |}.

(** X7: what [attemptLogin] can answer. It reports an inactive controller
    only with the credential check on, for a chassis that took the
    credentials, and then with a nil error. A nil error means that the
    scan succeeded and hands back its connection; with the credential
    check on it also means a server or an active chassis that took the
    credentials. With the credential check off, the answer is that of the
    scan. *)
Theorem attemptLogin_answers (net : Net) (p : Params) (k : nat)
    (ip user pass : string) (conn : option Connection) (inactive : bool)
    (e : option error) :
  attemptLogin net p k ip user pass = (conn, inactive, e) ->
  let scan := Discover.ScanAndConnect (net k ip user pass) [] in
  (inactive = true ->
   CheckCredential p = true /\ e = None
   /\ exists c, conn = Some c /\ chassisController c false)
  /\ (e = None -> Discover.err scan = None /\ conn = Discover.bmcConnection scan)
  /\ (e = None -> inactive = false -> CheckCredential p = true ->
      exists c, conn = Some c /\ CheckCredentials c = None
                /\ (dynType c = Bmc \/ (dynType c = BmcChassis /\ IsActive c = true)))
  /\ (CheckCredential p = false ->
      inactive = false /\ conn = Discover.bmcConnection scan
      /\ (e = None <-> Discover.err scan = None)).
Proof.
  unfold attemptLogin. cbv zeta.
  destruct (Discover.err (Discover.ScanAndConnect (net k ip user pass) [])) as [scanErr|].
  { intros [= <- <- <-]. repeat split; try discriminate; try reflexivity. }
  destruct (CheckCredential p); cbn [negb].
  2: { intros [= <- <- <-]. repeat split; try discriminate; try reflexivity. }
  destruct (Discover.bmcConnection (Discover.ScanAndConnect (net k ip user pass) []))
    as [c|].
  2: { intros [= <- <- <-]. repeat split; try discriminate; try reflexivity. }
  destruct (dynType c) eqn:Hty; destruct (CheckCredentials c) eqn:Hcred;
    try destruct (IsActive c) eqn:Hact; cbn [negb];
    intros [= <- <- <-];
    repeat split; try discriminate; try reflexivity;
    try (intros; exists c; repeat split; auto; fail).
Qed.

Lemma attemptLogin_answers_witness :
  CheckCredential (Fixtures.params ["10.0.0.1"] 1) = true
  /\ None = (None : option error)
  /\ exists c, Some (Fixtures.chassis false) = Some c /\ chassisController c false.
Proof.
  apply (attemptLogin_answers Fixtures.standbyOnly (Fixtures.params ["10.0.0.1"] 1) 0
           "10.0.0.1" "admin" "pass" (Some (Fixtures.chassis false)) true None);
    reflexivity.
Defined.

Lemma sublist_replicate_le {A} (x : A) (m n : nat) :
  m <= n -> replicate m x `sublist_of` replicate n x.
Proof.
  revert m. induction n as [|n IH]; intros m Hle.
  - replace m with 0 by lia. constructor.
  - destruct m as [|m]; simpl.
    + apply sublist_nil_l.
    + apply sublist_skip, IH. lia.
Qed.

Lemma retryLoop_within (net : Net) (p : Params) (n : nat) (ip user pass : string)
    (st : LoopState) :
  exists l,
    attemptsOf (retryLoop net p n ip user pass st) = made st ++ l
    /\ l `sublist_of` replicate n (attempt ip user pass).
Proof.
  revert st. induction n as [|n IH]; intros st.
  - exists []. simpl. rewrite app_nil_r. split; [reflexivity|constructor].
  - cbn [retryLoop].
    destruct (attemptLogin net p (Attempts (info st)) ip user pass)
      as [[conn inactive] e].
    assert (Hone : [attempt ip user pass]
                   `sublist_of` replicate (S n) (attempt ip user pass)).
    { apply (sublist_replicate_le _ 1 (S n)). lia. }
    destruct inactive.
    + destruct (bool_decide (length (IpAddresses p) = 1)); simpl;
        exists [attempt ip user pass]; split; [reflexivity|exact Hone|reflexivity|exact Hone].
    + destruct e as [e|].
      * destruct (IH (Bmclogin.withFailed (withAttempt st (attempt ip user pass)) user pass))
          as (l & Hl & Hsub).
        exists (attempt ip user pass :: l). rewrite Hl. simpl.
        rewrite <- app_assoc. split; [reflexivity|]. apply sublist_skip. exact Hsub.
      * simpl. exists [attempt ip user pass]. split; [reflexivity|exact Hone].
Qed.

Lemma ipLoop_within (net : Net) (p : Params) (retries : Z) (ips : list string)
    (user pass : string) (st : LoopState) :
  exists l,
    attemptsOf (ipLoop net p retries ips user pass st) = made st ++ l
    /\ l `sublist_of`
         flat_map (fun ip => replicate (iterations retries) (attempt ip user pass))
           (filter (fun ip : string => ip <> "") ips).
Proof.
  revert st. induction ips as [|ip ips IH]; intros st.
  - exists []. simpl. rewrite app_nil_r. split; [reflexivity|constructor].
  - cbn [ipLoop]. destruct (bool_decide (ip = "")) eqn:Hip.
    + apply bool_decide_eq_true_1 in Hip.
      rewrite filter_cons_False by (intros H; exact (H Hip)). apply IH.
    + apply bool_decide_eq_false_1 in Hip. rewrite filter_cons_True by exact Hip.
      destruct (retryLoop_within net p (iterations retries) ip user pass st)
        as (l1 & Hl1 & Hsub1).
      destruct (retryLoop net p (iterations retries) ip user pass st) as [st1|r].
      * destruct (IH st1) as (l2 & Hl2 & Hsub2). simpl in Hl1.
        exists (l1 ++ l2). rewrite Hl2, Hl1, <- app_assoc. split; [reflexivity|].
        simpl. apply sublist_app; assumption.
      * exists l1. split; [exact Hl1|]. simpl. apply sublist_inserts_r. exact Hsub1.
Qed.

Lemma entryLoop_within (net : Net) (p : Params) (retries : Z) (entries : Credential)
    (st : LoopState) :
  exists l,
    attemptsOf (entryLoop net p retries entries st) = made st ++ l
    /\ l `sublist_of`
         flat_map (fun entry : string * string =>
           flat_map (fun ip => replicate (iterations retries)
                                 (attempt ip (fst entry) (snd entry)))
             (filter (fun ip : string => ip <> "") (IpAddresses p)))
           entries.
Proof.
  revert st. induction entries as [|[user pass] entries IH]; intros st.
  - exists []. simpl. rewrite app_nil_r. split; [reflexivity|constructor].
  - cbn [entryLoop].
    destruct (ipLoop_within net p retries (IpAddresses p) user pass st)
      as (l1 & Hl1 & Hsub1).
    destruct (ipLoop net p retries (IpAddresses p) user pass st) as [st1|r].
    + destruct (IH st1) as (l2 & Hl2 & Hsub2). simpl in Hl1.
      exists (l1 ++ l2). rewrite Hl2, Hl1, <- app_assoc. split; [reflexivity|].
      simpl. apply sublist_app; assumption.
    + exists l1. split; [exact Hl1|]. simpl. apply sublist_inserts_r. exact Hsub1.
Qed.

Lemma credentialLoop_within (net : Net) (p : Params) (retries : Z)
    (creds : list Credential) (st : LoopState) :
  exists l,
    attemptsOf (credentialLoop net p retries creds st) = made st ++ l
    /\ l `sublist_of`
         flat_map (fun credentials : Credential =>
           flat_map (fun entry : string * string =>
             flat_map (fun ip => replicate (iterations retries)
                                   (attempt ip (fst entry) (snd entry)))
               (filter (fun ip : string => ip <> "") (IpAddresses p)))
             credentials)
           creds.
Proof.
  revert st. induction creds as [|credentials creds IH]; intros st.
  - exists []. simpl. rewrite app_nil_r. split; [reflexivity|constructor].
  - cbn [credentialLoop].
    destruct (entryLoop_within net p retries credentials st) as (l1 & Hl1 & Hsub1).
    destruct (entryLoop net p retries credentials st) as [st1|r].
    + destruct (IH st1) as (l2 & Hl2 & Hsub2). simpl in Hl1.
      exists (l1 ++ l2). rewrite Hl2, Hl1, <- app_assoc. split; [reflexivity|].
      simpl. apply sublist_app; assumption.
    + exists l1. split; [exact Hl1|]. simpl. apply sublist_inserts_r. exact Hsub1.
Qed.

Lemma Login_tried_sublist (net : Net) (p : Params) :
  tried (Login net p) `sublist_of` matrix p.
Proof.
  destruct (credentialLoop_within net p (effectiveRetries p) (Credentials p)
              {| info := zeroLoginInfo; made := [] |}) as (l & Hl & Hsub).
  unfold Login. destruct (credentialLoop net p _ _ _) as [st|r];
    simpl in Hl |- *; rewrite Hl; exact Hsub.
Qed.

(** X8: [Login] never leaves the matrix. The attempts it makes are attempts
    of the matrix of credentials, non-empty addresses and retries, in the
    order of the matrix and each at most once; so their number, which is
    the [Attempts] it reports, is at most the size of the matrix. *)
Theorem Login_within_matrix (net : Net) (p : Params) :
  tried (Login net p) `sublist_of` matrix p
  /\ Attempts (loginInfo (Login net p)) <= length (matrix p).
Proof.
  split; [apply Login_tried_sublist|].
  assert (Hn : Attempts (loginInfo (Login net p)) = length (tried (Login net p))).
  { destruct (Login_cases net p) as [Hfound|(st & (Hn & _) & Heq)].
    - destruct Hfound as (tr & a0 & _ & _ & Hn & _). exact Hn.
    - rewrite Heq. exact Hn. }
  rewrite Hn. apply sublist_length, Login_tried_sublist.
Qed.

Lemma flat_map_all_nil {A B} (f : A -> list B) (l : list A) :
  (forall x, f x = []) -> flat_map f l = [].
Proof.
  intros Hf. induction l as [|x l IH]; [reflexivity|]. simpl. rewrite Hf, IH. reflexivity.
Qed.

Lemma matrix_nothing (p : Params) :
  Credentials p = [] \/ (forall ip, ip ∈ IpAddresses p -> ip = "") \/ (Retries p < 0)%Z ->
  matrix p = [].
Proof.
  unfold matrix. intros [Hc|[Hips|Hneg]].
  - rewrite Hc. reflexivity.
  - assert (Hf : filter (fun ip : string => ip <> "") (IpAddresses p) = []).
    { induction (IpAddresses p) as [|ip ips IH]; [reflexivity|].
      rewrite filter_cons_False by (intros H; apply H, Hips; left).
      apply IH. intros ip' Hin. apply Hips. right. exact Hin. }
    rewrite Hf. apply flat_map_all_nil. intros c. apply flat_map_all_nil.
    intros entry. reflexivity.
  - assert (Hit : iterations (effectiveRetries p) = 0).
    { unfold iterations, effectiveRetries.
      rewrite bool_decide_eq_false_2 by lia. lia. }
    rewrite Hit. apply flat_map_all_nil. intros c. apply flat_map_all_nil.
    intros entry. apply flat_map_all_nil. intros ip. reflexivity.
Qed.

(** X9: with nothing to try (no credential, no address other than the
    empty string, or a negative retry count) [Login] fails at once: it
    makes no attempt, and returns the all-attempts-failed error with no
    connection and the zero value of the login record. *)
Theorem Login_nothing_to_try (net : Net) (p : Params) :
  Credentials p = [] \/ (forall ip, ip ∈ IpAddresses p -> ip = "") \/ (Retries p < 0)%Z ->
  Login net p
  = {| connection := None; loginInfo := zeroLoginInfo;
       err := Some "All attempts to login failed."; tried := [] |}.
Proof.
  intros Hnothing. pose proof (Login_tried_sublist net p) as Hsub.
  rewrite (matrix_nothing p Hnothing) in Hsub. apply sublist_nil_r in Hsub.
  destruct (Login_cases net p) as [Hfound|(st & (Hn & Hw & Ha & Hf & _) & Heq)].
  - destruct Hfound as (tr & a0 & Htried & _). rewrite Htried in Hsub.
    destruct tr; discriminate Hsub.
  - rewrite Heq in Hsub |- *. simpl in Hsub. rewrite Hsub in Hn, Hf. simpl in Hn, Hf.
    rewrite Hsub. destruct (info st) as [fc wc ac n]. simpl in *. subst. reflexivity.
Qed.

Lemma Login_nothing_to_try_witness :
  Login Fixtures.twoControllers (Fixtures.params [""; ""] 1)
  = {| connection := None; loginInfo := zeroLoginInfo;
       err := Some "All attempts to login failed."; tried := [] |}
  /\ Login Fixtures.twoControllers (Fixtures.params ["10.0.0.1"; "10.0.0.2"] (-3))
     = {| connection := None; loginInfo := zeroLoginInfo;
          err := Some "All attempts to login failed."; tried := [] |}.
Proof.
  split.
  - apply (Login_nothing_to_try Fixtures.twoControllers (Fixtures.params [""; ""] 1)).
    right. left. intros ip Hin. apply list_elem_of_In in Hin. simpl in Hin.
    destruct Hin as [<-|[<-|[]]]; reflexivity.
  - apply (Login_nothing_to_try Fixtures.twoControllers
             (Fixtures.params ["10.0.0.1"; "10.0.0.2"] (-3))).
    right. right. simpl. lia.
Defined.

Lemma outcome_rejected_inv (net : Net) (p : Params) (k : nat) (ip user pass : string) :
  outcome net p k (attempt ip user pass) = Rejected ->
  exists c e, attemptLogin net p k ip user pass = (c, false, Some e).
Proof.
  unfold outcome. cbn [at_ip at_user at_pass].
  destruct (attemptLogin net p k ip user pass) as [[c inactive] e].
  destruct inactive; [discriminate|]. destruct e as [e|]; [|discriminate].
  intros _. exists c, e. reflexivity.
Qed.

Lemma outcome_accepted_inv (net : Net) (p : Params) (k : nat) (ip user pass : string)
    (conn : option Connection) :
  outcome net p k (attempt ip user pass) = Accepted conn ->
  attemptLogin net p k ip user pass = (conn, false, None).
Proof.
  unfold outcome. cbn [at_ip at_user at_pass].
  destruct (attemptLogin net p k ip user pass) as [[c inactive] e].
  destruct inactive; [discriminate|]. destruct e as [e|]; [discriminate|].
  intros [= ->]. reflexivity.
Qed.

(** The retry loop goes on after rejected attempts and returns at the
    first accepted one. *)
Lemma retryLoop_retries (net : Net) (p : Params) (ip user pass : string)
    (conn : option Connection) (k : nat) :
  forall (n : nat) (st : LoopState),
  k < n ->
  (forall j, j < k ->
     outcome net p (Attempts (info st) + j) (attempt ip user pass) = Rejected) ->
  outcome net p (Attempts (info st) + k) (attempt ip user pass) = Accepted conn ->
  retryLoop net p n ip user pass st
  = Return {| connection := conn;
              loginInfo :=
                {| FailedCredentials :=
                     FailedCredentials (info st) ++ replicate k {[ user := pass ]};
                   WorkingCredentials := {[ user := pass ]};
                   ActiveIpAddress := ip;
                   Attempts := Attempts (info st) + S k |};
              err := None;
              tried := made st ++ replicate (S k) (attempt ip user pass) |}.
Proof.
  induction k as [|k IH]; intros n st Hlt Hrej Hacc.
  - destruct n as [|n]; [lia|]. cbn [retryLoop].
    rewrite Nat.add_0_r in Hacc. rewrite (outcome_accepted_inv _ _ _ _ _ _ _ Hacc).
    simpl. rewrite app_nil_r. reflexivity.
  - destruct n as [|n]; [lia|]. cbn [retryLoop].
    destruct (outcome_rejected_inv net p (Attempts (info st)) ip user pass) as (c & e & Hat).
    { rewrite <- (Nat.add_0_r (Attempts (info st))). apply Hrej. lia. }
    rewrite Hat.
    rewrite (IH n (Bmclogin.withFailed (withAttempt st (attempt ip user pass)) user pass)).
    + simpl. rewrite <- !app_assoc. simpl.
      replace (Attempts (info st) + 1 + S k) with (Attempts (info st) + S (S k)) by lia.
      reflexivity.
    + lia.
    + intros j Hj. simpl.
      replace (Attempts (info st) + 1 + j) with (Attempts (info st) + S j) by lia.
      apply Hrej. lia.
    + simpl.
      replace (Attempts (info st) + 1 + k) with (Attempts (info st) + S k) by lia.
      exact Hacc.
Qed.

(** X10: retries, and the history they leave. When the first attempts on
    the first pair are rejected and one of the retries is accepted,
    [Login] succeeds on that pair; the failed credentials it returns hold
    one record for each rejected attempt, although the login succeeded,
    and [Attempts] counts them all. *)
Theorem Login_retry_history (net : Net) (p : Params) (ip user pass : string)
    (ips : list string) (more : Credential) (creds : list Credential)
    (conn : option Connection) (k : nat) :
  IpAddresses p = ip :: ips -> ip <> "" ->
  Credentials p = ((user, pass) :: more) :: creds ->
  k < iterations (effectiveRetries p) ->
  (forall j, j < k -> outcome net p j (attempt ip user pass) = Rejected) ->
  outcome net p k (attempt ip user pass) = Accepted conn ->
  Login net p
  = {| connection := conn;
       loginInfo := {| FailedCredentials := replicate k {[ user := pass ]};
                       WorkingCredentials := {[ user := pass ]};
                       ActiveIpAddress := ip;
                       Attempts := S k |};
       err := None;
       tried := replicate (S k) (attempt ip user pass) |}.
Proof.
  intros Hips Hip Hcreds Hk Hrej Hacc.
  unfold Login. rewrite Hcreds. cbn [credentialLoop entryLoop].
  rewrite Hips. cbn [ipLoop]. rewrite bool_decide_eq_false_2 by exact Hip.
  rewrite (retryLoop_retries net p ip user pass conn k); try assumption.
  reflexivity.
Qed.

Lemma Login_retry_history_witness :
  let net : Net := fun k _ _ _ =>
    if Nat.eqb k 0 then Fixtures.unreachable
    else Fixtures.recognised Discover.ProbeIdrac9 Fixtures.server in
  Login net (Fixtures.params ["10.0.0.1"] 0)
  = {| connection := Some Fixtures.server;
       loginInfo := {| FailedCredentials := [{[ "admin" := "pass" ]}];
                       WorkingCredentials := {[ "admin" := "pass" ]};
                       ActiveIpAddress := "10.0.0.1";
                       Attempts := 2 |};
       err := None;
       tried := [attempt "10.0.0.1" "admin" "pass"; attempt "10.0.0.1" "admin" "pass"] |}.
Proof.
  intros net.
  apply (Login_retry_history net (Fixtures.params ["10.0.0.1"] 0)
           "10.0.0.1" "admin" "pass" [] [] [] (Some Fixtures.server) 1).
  - reflexivity.
  - discriminate.
  - reflexivity.
  - vm_compute. lia.
  - intros j Hj. replace j with 0 by lia. reflexivity.
  - reflexivity.
Defined.

(** X11: with the credential check off, the first scan that succeeds ends
    the login: [Login] returns the connection of that scan, with the
    address as the active one and the credential as the working one,
    whatever the device would answer to a credential check. *)
Theorem Login_without_check (net : Net) (p : Params) (ip user pass : string)
    (ips : list string) (more : Credential) (creds : list Credential) :
  CheckCredential p = false ->
  IpAddresses p = ip :: ips -> ip <> "" ->
  Credentials p = ((user, pass) :: more) :: creds ->
  (0 <= Retries p)%Z ->
  Discover.err (Discover.ScanAndConnect (net 0 ip user pass) []) = None ->
  Login net p
  = {| connection := Discover.bmcConnection (Discover.ScanAndConnect (net 0 ip user pass) []);
       loginInfo := {| FailedCredentials := [];
                       WorkingCredentials := {[ user := pass ]};
                       ActiveIpAddress := ip;
                       Attempts := 1 |};
       err := None;
       tried := [attempt ip user pass] |}.
Proof.
  intros Hcheck Hips Hip Hcreds Hretries Hscan.
  unfold Login. rewrite Hcreds. cbn [credentialLoop entryLoop].
  rewrite Hips. cbn [ipLoop]. rewrite bool_decide_eq_false_2 by exact Hip.
  rewrite (retryLoop_retries net p ip user pass
             (Discover.bmcConnection (Discover.ScanAndConnect (net 0 ip user pass) [])) 0).
  - reflexivity.
  - rewrite iterations_positive by exact Hretries. lia.
  - intros j Hj. lia.
  - unfold outcome, attemptLogin. cbn [at_ip at_user at_pass info Attempts zeroLoginInfo].
    cbn [Nat.add]. rewrite Hscan, Hcheck. reflexivity.
Qed.

Lemma Login_without_check_witness :
  let refuses : Connection :=
    {| dynType := OtherDevice; CheckCredentials := Some "wrong password";
       IsActive := false; BmcType := ""; Vendor := ""; Serial := "";
       configure := Fixtures.silent |} in
  let net : Net := fun _ _ _ _ => Fixtures.recognised Discover.ProbeQuanta refuses in
  let p := {| IpAddresses := ["10.0.0.9"]; Credentials := [Fixtures.admin];
              CheckCredential := false; Retries := 1 |} in
  Login net p
  = {| connection := Discover.bmcConnection
                       (Discover.ScanAndConnect (net 0 "10.0.0.9" "admin" "pass") []);
       loginInfo := {| FailedCredentials := [];
                       WorkingCredentials := {[ "admin" := "pass" ]};
                       ActiveIpAddress := "10.0.0.9";
                       Attempts := 1 |};
       err := None;
       tried := [attempt "10.0.0.9" "admin" "pass"] |}.
Proof.
  intros refuses net p.
  apply (Login_without_check net p "10.0.0.9" "admin" "pass" [] [] []).
  - reflexivity.
  - reflexivity.
  - discriminate.
  - reflexivity.
  - simpl. lia.
  - reflexivity.
Defined.

End LoginMore.

(** ** The chassis configurator, both revisions *)

Section ApplyMore.

Import Cfgresources Devices Configure ApplyTerms ApplyMoreTerms.

Ltac by_resource resource :=
  repeat match goal with
    | |- context [String.eqb resource ?s] =>
        let H := fresh "Hname" in destruct (String.eqb resource s) eqn:H
    end.

Lemma applySection_switched (drops : bool) (b : Cmc) (resource : string)
    (section : option Section_) (mk : Section_ -> Call) (st : ApplyState) :
  (forall s, callResource (mk s) = resource) ->
  (forall s, isLdapGroups (mk s) = false) ->
  switched drops (configure b) resource st
    (fst (applySection b section mk st)) (snd (applySection b section mk st)).
Proof.
  intros Hname Hldap. destruct section as [s|]; simpl.
  - split; [reflexivity|]. split; [reflexivity|]. right. exists (mk s).
    rewrite Hname, Hldap, andb_false_r. auto.
  - split; [reflexivity|]. split; [reflexivity|]. left. auto.
Qed.

Lemma switched_nothing (drops : bool) (device : Configure) (resource : string)
    (st st1 : ApplyState) :
  success st1 = success st -> failed st1 = failed st -> calls st1 = calls st ->
  switched drops device resource st None st1.
Proof. intros Hs Hf Hc. split; [exact Hs|]. split; [exact Hf|]. left. auto. Qed.

(** The switch of the later revision. *)
Lemma applyResource_switched (env : ApplyEnv) (b : Cmc) (resource : string)
    (st : ApplyState) :
  switched true (configure b) resource st
    (fst (applyResource env b resource st)) (snd (applyResource env b resource st)).
Proof.
  unfold applyResource. by_resource resource;
    try match goal with
      | H : String.eqb resource ?s = true |- _ => apply String.eqb_eq in H; subst resource
      end;
    try (apply applySection_switched; intros s; reflexivity).
  - destruct (LdapGroups_ (cfg st)) as [lg|], (Ldap (cfg st)) as [ldap|];
      try (apply switched_nothing; reflexivity).
    destruct (GetExtraGroups env lg _ _) as [[o innerErr] lg'].
    destruct innerErr; simpl;
      (split; [reflexivity|]; split; [reflexivity|]; right;
       exists (CallLdapGroups (Groups lg') ldap); auto).
  - apply switched_nothing; reflexivity.
Qed.

(** The switch of the earlier revision. *)
Lemma applyResourceEarlier_switched (b : Cmc) (resource : string) (st : ApplyState) :
  switched false (configure b) resource st
    (fst (ConfigureEarlier.applyResource b resource st))
    (snd (ConfigureEarlier.applyResource b resource st)).
Proof.
  unfold ConfigureEarlier.applyResource. by_resource resource;
    try match goal with
      | H : String.eqb resource ?s = true |- _ => apply String.eqb_eq in H; subst resource
      end;
    try (apply applySection_switched; intros s; reflexivity).
  - unfold applyLdapGroupEarlier.
    destruct (LdapGroups_ (cfg st)) as [lg|], (Ldap (cfg st)) as [ldap|];
      try (apply switched_nothing; reflexivity).
    simpl. split; [reflexivity|]. split; [reflexivity|]. right.
    exists (CallLdapGroups (Groups lg) ldap). auto.
  - apply switched_nothing; reflexivity.
Qed.

Lemma refusedFrom_snoc (device : Configure) (history cs : list Call) (c : Call) :
  refusedFrom device history (cs ++ [c])
  = refusedFrom device history cs
    ++ match answer device (history ++ cs) c with
       | Some _ => [c]
       | None => []
       end.
Proof.
  revert history. induction cs as [|c' cs IH]; intros history.
  - simpl. rewrite app_nil_r. destruct (answer device history c); reflexivity.
  - simpl. rewrite IH, <- app_assoc. simpl.
    destruct (answer device history c'); reflexivity.
Qed.

(** One turn of the loop keeps the failed list in step with the refused
    calls. *)
Lemma classify_records (drops : bool) (device : Configure) (resource : string)
    (st st1 : ApplyState) (e : option error) :
  switched drops device resource st e st1 ->
  failedAreRefused drops device st ->
  failedAreRefused drops device (classify resource e st1).
Proof.
  intros (_ & Hf & Hcalls) Hinv. unfold failedAreRefused in *.
  destruct (classify_lists resource e st1) as (_ & -> & -> & _).
  destruct Hcalls as [[Hc ->]|(c & Hc & Hname & He)].
  - rewrite Hf, Hc. exact Hinv.
  - rewrite Hc, (refusedFrom_snoc device [] (calls st) c), filter_app, map_app, <- Hinv.
    change ([] ++ calls st) with (calls st). rewrite Hf. subst e.
    destruct (drops && isLdapGroups c) eqn:Hdrop.
    + destruct (answer device (calls st) c);
        [rewrite filter_cons_False by (rewrite Hdrop; discriminate)|];
        simpl; rewrite app_nil_r; reflexivity.
    + destruct (answer device (calls st) c).
      * rewrite filter_cons_True by exact Hdrop. simpl. rewrite Hname. reflexivity.
      * simpl. rewrite app_nil_r. reflexivity.
Qed.

Lemma applyLoop_records (env : ApplyEnv) (b : Cmc) (resources : list string) :
  forall (i : nat) (st : ApplyState),
  failedAreRefused true (configure b) st ->
  failedAreRefused true (configure b) (applyLoop env b i resources st).
Proof.
  induction resources as [|resource rest IH]; intros i st Hinv; [exact Hinv|].
  rewrite applyLoop_cons. destruct (interrupt env i); [exact Hinv|].
  apply IH. rewrite turn_unfold.
  exact (classify_records true _ resource st _ _
           (applyResource_switched env b resource st) Hinv).
Qed.

Lemma applyLoopEarlier_records (env : ApplyEnv) (b : Cmc) (resources : list string) :
  forall (i : nat) (st : ApplyState),
  failedAreRefused false (configure b) st ->
  failedAreRefused false (configure b) (ConfigureEarlier.applyLoop env b i resources st).
Proof.
  induction resources as [|resource rest IH]; intros i st Hinv; [exact Hinv|].
  cbn [ConfigureEarlier.applyLoop]. destruct (interrupt env i); [exact Hinv|].
  apply IH. unfold ConfigureEarlier.turn.
  pose proof (applyResourceEarlier_switched b resource st) as Hsw.
  destruct (ConfigureEarlier.applyResource b resource st) as [e st1].
  exact (classify_records false _ resource st st1 e Hsw Hinv).
Qed.

Lemma filter_not_LdapGroups (l : list Call) :
  filter (fun c => true && isLdapGroups c = false) l
  = filter (fun c => isLdapGroups c = false) l.
Proof. apply list_filter_iff. intros c. reflexivity. Qed.

Lemma filter_keeps_all (l : list Call) :
  filter (fun c => false && isLdapGroups c = false) l = l.
Proof.
  induction l as [|c l IH]; [reflexivity|].
  rewrite filter_cons_True by reflexivity. rewrite IH. reflexivity.
Qed.

(** X12: the later revision reports as failed, in their order, exactly the
    resources whose call on the device was answered with an error, the
    [LdapGroups] call excepted; a resource for which no call was made (nil
    section, unknown name) is never reported as failed. *)
Theorem Apply_failed_are_refused (env : ApplyEnv) (b : Cmc) :
  failed (Apply env b)
  = map callResource
      (filter (fun c => isLdapGroups c = false)
         (refusedFrom (configure b) [] (calls (Apply env b)))).
Proof.
  destruct (Apply_lists env b) as (_ & -> & ->).
  rewrite <- filter_not_LdapGroups.
  apply (applyLoop_records env b (applyList b) 0 (initialState b)). reflexivity.
Qed.

(** X13: the earlier revision reports as failed, in their order, exactly
    the resources whose call on the device was answered with an error,
    the call for ["ldap_group"] included. *)
Theorem ApplyEarlier_failed_are_refused (env : ApplyEnv) (b : Cmc) :
  failed (ConfigureEarlier.Apply env b)
  = map callResource (refusedFrom (configure b) [] (calls (ConfigureEarlier.Apply env b))).
Proof.
  unfold ConfigureEarlier.Apply. cbn [failed calls withLog].
  pose proof (applyLoopEarlier_records env b (applyList b) 0 (initialState b) eq_refl)
    as Hinv.
  unfold failedAreRefused in Hinv. rewrite filter_keeps_all in Hinv. exact Hinv.
Qed.

(** One turn of the loop adds at most one call, for the resource of the
    turn, and adds that resource to one of the two lists. *)
Lemma classify_grows (drops : bool) (device : Configure) (resource : string)
    (st st1 : ApplyState) (e : option error) :
  switched drops device resource st e st1 ->
  exists lc ls lf,
    calls (classify resource e st1) = calls st ++ lc
    /\ map callResource lc `sublist_of` [resource]
    /\ success (classify resource e st1) = success st ++ ls
    /\ failed (classify resource e st1) = failed st ++ lf
    /\ ls `sublist_of` [resource] /\ lf `sublist_of` [resource].
Proof.
  intros (Hs & Hf & Hcalls).
  destruct (classify_lists resource e st1) as (-> & -> & -> & _). rewrite Hs, Hf.
  assert (Hlists : exists ls lf,
             match e with Some _ => success st | None => success st ++ [resource] end
             = success st ++ ls
             /\ match e with Some _ => failed st ++ [resource] | None => failed st end
                = failed st ++ lf
             /\ ls `sublist_of` [resource] /\ lf `sublist_of` [resource]).
  { destruct e.
    - exists [], [resource]. rewrite app_nil_r. repeat split; [apply sublist_nil_l|].
      reflexivity.
    - exists [resource], []. rewrite app_nil_r. repeat split; [reflexivity|].
      apply sublist_nil_l. }
  destruct Hlists as (ls & lf & Hls & Hlf & Hsub1 & Hsub2).
  destruct Hcalls as [[Hc _]|(c & Hc & Hname & _)].
  - exists [], ls, lf. rewrite Hc, app_nil_r. repeat split; try assumption.
    apply sublist_nil_l.
  - exists [c], ls, lf. rewrite Hc. repeat split; try assumption.
    simpl. rewrite Hname. reflexivity.
Qed.

Lemma applyLoop_grows (env : ApplyEnv) (b : Cmc) (resources : list string) :
  forall (i : nat) (st : ApplyState),
  exists lc ls lf,
    calls (applyLoop env b i resources st) = calls st ++ lc
    /\ map callResource lc `sublist_of` resources
    /\ success (applyLoop env b i resources st) = success st ++ ls
    /\ failed (applyLoop env b i resources st) = failed st ++ lf
    /\ ls `sublist_of` resources /\ lf `sublist_of` resources.
Proof.
  induction resources as [|resource rest IH]; intros i st.
  - exists [], [], []. simpl. rewrite !app_nil_r. repeat split; constructor.
  - rewrite applyLoop_cons. destruct (interrupt env i).
    + exists [], [], []. simpl. rewrite !app_nil_r. repeat split; apply sublist_nil_l.
    + destruct (classify_grows true _ resource st _ _
                  (applyResource_switched env b resource st))
        as (lc1 & ls1 & lf1 & Hc1 & Hsc1 & Hs1 & Hf1 & Hss1 & Hsf1).
      rewrite <- turn_unfold in Hc1, Hs1, Hf1.
      destruct (IH (S i) (turn env b resource st))
        as (lc2 & ls2 & lf2 & Hc2 & Hsc2 & Hs2 & Hf2 & Hss2 & Hsf2).
      exists (lc1 ++ lc2), (ls1 ++ ls2), (lf1 ++ lf2).
      rewrite Hc2, Hs2, Hf2, Hc1, Hs1, Hf1, <- !app_assoc, map_app.
      repeat split; apply (sublist_app _ [resource] _ rest); assumption.
Qed.

(** X14: the later revision makes at most one call on the device for each
    resource of the apply list, in the order of the list, and no call for
    anything that the list does not name: the resources of its calls are
    the apply list with some names left out. *)
Theorem Apply_calls_follow_list (env : ApplyEnv) (b : Cmc) :
  map callResource (calls (Apply env b)) `sublist_of` applyList b.
Proof.
  destruct (Apply_lists env b) as (_ & _ & ->).
  destruct (applyLoop_grows env b (applyList b) 0 (initialState b))
    as (lc & _ & _ & Hc & Hsub & _).
  rewrite Hc. exact Hsub.
Qed.

(** X15: the two lists of the later revision are made of the apply list:
    each holds resources of the list in the order of the list, and when
    the loop is not interrupted every resource of the list is in exactly
    one of them, a failure of one resource keeping none of the others from
    being applied. *)
Theorem Apply_one_outcome_per_resource (env : ApplyEnv) (b : Cmc) :
  success (Apply env b) `sublist_of` applyList b
  /\ failed (Apply env b) `sublist_of` applyList b
  /\ ((forall j, interrupt env j = false) ->
      success (Apply env b) ++ failed (Apply env b) ≡ₚ applyList b).
Proof.
  destruct (Apply_lists env b) as (-> & -> & _).
  destruct (applyLoop_grows env b (applyList b) 0 (initialState b))
    as (_ & ls & lf & _ & _ & Hs & Hf & Hss & Hsf).
  split; [rewrite Hs; exact Hss|]. split; [rewrite Hf; exact Hsf|].
  intros Hrun.
  rewrite (applyLoop_partition env b (applyList b) 0 (initialState b) Hrun). reflexivity.
Qed.

Lemma Apply_one_outcome_per_resource_witness :
  let b := Fixtures.cmc Fixtures.refusesNtp ["ntp"; "bogus"; "ldap"] Fixtures.ldapSections in
  success (Apply Fixtures.neverStopped b) ++ failed (Apply Fixtures.neverStopped b)
  ≡ₚ ["ntp"; "bogus"; "ldap"].
Proof.
  intros b.
  apply (Apply_one_outcome_per_resource Fixtures.neverStopped b). reflexivity.
Defined.

Lemma applySection_sameButLog (b : Cmc) (section : option Section_)
    (mk : Section_ -> Call) (st st' : ApplyState) :
  sameButLog st st' ->
  fst (applySection b section mk st) = fst (applySection b section mk st')
  /\ sameButLog (snd (applySection b section mk st)) (snd (applySection b section mk st')).
Proof.
  intros (Hs & Hf & Hc & Hcfg). destruct section as [s|]; simpl.
  - rewrite Hs, Hf, Hc, Hcfg. repeat split.
  - repeat split; assumption.
Qed.

(** The switch reads the state but not its log. *)
Lemma applyResource_sameButLog (env env' : ApplyEnv) (b : Cmc) (resource : string)
    (st st' : ApplyState) :
  (forall lg serial vendor,
     snd (GetExtraGroups env lg serial vendor) = snd (GetExtraGroups env' lg serial vendor)) ->
  sameButLog st st' ->
  fst (applyResource env b resource st) = fst (applyResource env' b resource st')
  /\ sameButLog (snd (applyResource env b resource st))
       (snd (applyResource env' b resource st')).
Proof.
  intros Hgroups Hsame. pose proof Hsame as (Hs & Hf & Hc & Hcfg).
  unfold applyResource. rewrite Hcfg.
  by_resource resource; try (apply applySection_sameButLog; exact Hsame).
  - destruct (LdapGroups_ (cfg st')) as [lg|], (Ldap (cfg st')) as [ldap|];
      try (split; [reflexivity|exact Hsame]).
    specialize (Hgroups lg (Asset.Serial (asset b)) (Asset.Vendor (asset b))).
    destruct (GetExtraGroups env lg _ _) as [[o1 e1] lg1],
             (GetExtraGroups env' lg _ _) as [[o2 e2] lg2].
    simpl in Hgroups. subst lg2.
    destruct e1, e2; simpl; rewrite Hs, Hf, Hc, Hcfg; repeat split.
  - simpl. repeat split; assumption.
Qed.

Lemma turn_sameButLog (env env' : ApplyEnv) (b : Cmc) (resource : string)
    (st st' : ApplyState) :
  (forall lg serial vendor,
     snd (GetExtraGroups env lg serial vendor) = snd (GetExtraGroups env' lg serial vendor)) ->
  sameButLog st st' ->
  sameButLog (turn env b resource st) (turn env' b resource st').
Proof.
  intros Hgroups Hsame. rewrite !turn_unfold.
  destruct (applyResource_sameButLog env env' b resource st st' Hgroups Hsame)
    as (He & Hs & Hf & Hc & Hcfg).
  rewrite He.
  destruct (classify_lists resource (fst (applyResource env' b resource st'))
              (snd (applyResource env b resource st))) as (Hs1 & Hf1 & Hc1 & Hcfg1).
  destruct (classify_lists resource (fst (applyResource env' b resource st'))
              (snd (applyResource env' b resource st'))) as (Hs2 & Hf2 & Hc2 & Hcfg2).
  unfold sameButLog. rewrite Hs1, Hf1, Hc1, Hcfg1, Hs2, Hf2, Hc2, Hcfg2, Hs, Hf, Hc, Hcfg.
  auto.
Qed.

Lemma applyLoop_sameButLog (env env' : ApplyEnv) (b : Cmc) (resources : list string) :
  (forall j, interrupt env j = interrupt env' j) ->
  (forall lg serial vendor,
     snd (GetExtraGroups env lg serial vendor) = snd (GetExtraGroups env' lg serial vendor)) ->
  forall (i : nat) (st st' : ApplyState),
  sameButLog st st' ->
  sameButLog (applyLoop env b i resources st) (applyLoop env' b i resources st').
Proof.
  intros Hint Hgroups. induction resources as [|resource rest IH]; intros i st st' Hsame.
  - exact Hsame.
  - rewrite !applyLoop_cons, <- Hint. destruct (interrupt env i); [exact Hsame|].
    apply IH, turn_sameButLog; assumption.
Qed.

(** X16: what the lookup of extra groups returns besides the groups, its
    output and its error, reaches the log only. Two runs of the later
    revision that see the same interrupts and get the same groups from the
    lookup end with the same two lists, the same calls on the device and
    the same configuration. *)
Theorem Apply_lookup_error_only_logged (env env' : ApplyEnv) (b : Cmc) :
  (forall j, interrupt env j = interrupt env' j) ->
  (forall lg serial vendor,
     snd (GetExtraGroups env lg serial vendor) = snd (GetExtraGroups env' lg serial vendor)) ->
  sameButLog (Apply env b) (Apply env' b).
Proof.
  intros Hint Hgroups.
  pose proof (applyLoop_sameButLog env env' b (applyList b) Hint Hgroups 0
                (initialState b) (initialState b)) as Hsame.
  destruct Hsame as (Hs & Hf & Hc & Hcfg); [repeat split|].
  unfold Apply, sameButLog. rewrite <- Hf.
  destruct (bool_decide _); cbn [success failed calls cfg withLog]; auto.
Qed.

Lemma Apply_lookup_error_only_logged_witness :
  let b := Fixtures.cmc Fixtures.refusesNtp [] Fixtures.ldapSections in
  sameButLog (Apply Fixtures.neverStopped b) (Apply Fixtures.lookupFails b).
Proof.
  intros b.
  apply (Apply_lookup_error_only_logged Fixtures.neverStopped Fixtures.lookupFails b).
  - intros j. reflexivity.
  - intros lg serial vendor. reflexivity.
Defined.

Lemma turn_unknown (env : ApplyEnv) (b : Cmc) (resource : string) (st : ApplyState) :
  resource ∉ caseNames ->
  turn env b resource st
  = withLog Trace "Resource configuration applied."
      (withSuccess resource (withLog Warn "Unknown resource." st)).
Proof.
  intros Hno. rewrite turn_unfold. unfold applyResource.
  assert (Hne : forall name, name ∈ caseNames -> String.eqb resource name = false).
  { intros name Hin. apply String.eqb_neq. intros ->. contradiction. }
  unfold caseNames in Hne.
  rewrite !Hne by (apply list_elem_of_In; simpl; tauto). reflexivity.
Qed.

Lemma applyLoop_unknown (env : ApplyEnv) (b : Cmc) (resources : list string) :
  (forall j, interrupt env j = false) ->
  Forall (fun resource => resource ∉ caseNames) resources ->
  forall (i : nat) (st : ApplyState),
  success (applyLoop env b i resources st) = success st ++ resources
  /\ failed (applyLoop env b i resources st) = failed st
  /\ calls (applyLoop env b i resources st) = calls st
  /\ exists l,
       log (applyLoop env b i resources st) = log st ++ l
       /\ (resources <> [] -> {| level := Warn; message := "Unknown resource." |} ∈ l).
Proof.
  intros Hrun Hall. induction Hall as [|resource rest Hno _ IH]; intros i st.
  - simpl. rewrite app_nil_r. repeat split. exists []. rewrite app_nil_r.
    split; [reflexivity|]. intros H. contradiction.
  - rewrite applyLoop_cons, Hrun, (turn_unknown env b resource st Hno).
    destruct (IH (S i) (withLog Trace "Resource configuration applied."
                          (withSuccess resource (withLog Warn "Unknown resource." st))))
      as (Hs & Hf & Hc & l & Hl & _).
    rewrite Hs, Hf, Hc, Hl. simpl. unfold logAt. rewrite <- !app_assoc.
    split; [reflexivity|]. split; [reflexivity|]. split; [reflexivity|].
    eexists. split; [reflexivity|]. intros _. left.
Qed.

(** X17: a name for which the switch of [Apply] has no case is only logged
    as unknown: no call is made for it, and it is reported as a success.
    A run over such names alone, without interrupt, reports all of them as
    applied with success, none as failed, and has not called the device. *)
Theorem Apply_unknown_names_succeed (env : ApplyEnv) (b : Cmc) :
  (forall j, interrupt env j = false) ->
  resources b <> [] ->
  Forall (fun resource => resource ∉ caseNames) (resources b) ->
  success (Apply env b) = resources b
  /\ failed (Apply env b) = []
  /\ calls (Apply env b) = []
  /\ {| level := Warn; message := "Unknown resource." |} ∈ log (Apply env b)
  /\ {| level := Info; message := "CMC configuration actions successful." |}
     ∈ log (Apply env b).
Proof.
  intros Hrun Hne Hall.
  assert (Hlist : applyList b = resources b).
  { unfold applyList. destruct (resources b); [contradiction|reflexivity]. }
  destruct (applyLoop_unknown env b (resources b) Hrun Hall 0 (initialState b))
    as (Hs & Hf & Hc & l & Hl & Hin).
  destruct (Apply_lists env b) as (Hs' & Hf' & Hc').
  rewrite Hs', Hf', Hc', Hlist, Hs, Hf, Hc.
  split; [reflexivity|]. split; [reflexivity|]. split; [reflexivity|].
  unfold Apply. rewrite Hlist, Hf. simpl. rewrite Hl. unfold logAt. split.
  - rewrite !elem_of_app. left. right. exact (Hin Hne).
  - rewrite !elem_of_app. right. left.
Qed.

Lemma Apply_unknown_names_succeed_witness :
  let b := Fixtures.cmc Fixtures.refusesNtp ["syslog "; "NTP"] Fixtures.ldapSections in
  let out := Apply Fixtures.neverStopped b in
  success out = ["syslog "; "NTP"] /\ failed out = [] /\ calls out = [].
Proof.
  intros b out.
  destruct (Apply_unknown_names_succeed Fixtures.neverStopped b) as (Hs & Hf & Hc & _).
  - intros j. reflexivity.
  - discriminate.
  - repeat constructor; intros Hin; apply list_elem_of_In in Hin; simpl in Hin;
      intuition discriminate.
  - split; [exact Hs|]. split; [exact Hf|exact Hc].
Defined.

End ApplyMore.

(** ** The dispatcher *)

Section ButlerMore.

Import Devices Butler ButlerMoreTerms.

Abbreviation recvdKey := ["butler"; "asset_recvd"].

Lemma msgHandler_admitted (w : World) (b : Butler) (msg : Msg) (st : State) :
  interrupt b = false -> admitted b msg ->
  msgHandler w b msg st = dispatch w b msg (incr recvdKey st).
Proof.
  intros Hrun [Hips Hloc]. unfold msgHandler. rewrite Hrun, Hips.
  destruct (bool_decide (Asset.Location (Asset_ msg) = "")) eqn:Hempty; [reflexivity|].
  apply bool_decide_eq_false_1 in Hempty. cbn [negb andb].
  destruct Hloc as [Hloc|[Hloc|Hloc]].
  - contradiction.
  - apply myLocation_spec in Hloc. rewrite Hloc. reflexivity.
  - rewrite Hloc, andb_false_r. reflexivity.
Qed.

(** What [configureAsset] starts after a login without error. *)
Lemma afterLogin_invoked (w : World) (b : Butler) (config : string)
    (r : Bmclogin.LoginResult) (asset : Asset.Asset) (st : State) :
  exists l,
    invoked (snd (afterLogin w b config r asset st)) = invoked st ++ l
    /\ (fst (fst (afterLogin w b config r asset st)) = None <-> Close ∈ l)
    /\ MeasureRuntime ∉ l.
Proof.
  unfold afterLogin.
  assert (Hnone : forall (e : error) (a : Asset.Asset) (st' : State),
             invoked st' = invoked st ->
             exists l, invoked (snd (Some e, a, st')) = invoked st ++ l
                       /\ (fst (fst (Some e, a, st')) = None <-> Close ∈ l)
                       /\ MeasureRuntime ∉ l).
  { intros e a st' Hinv. exists []. simpl. rewrite app_nil_r.
    split; [exact Hinv|]. split; [|apply not_elem_of_nil].
    split; [discriminate|]. intros H. inversion H. }
  destruct (Bmclogin.connection r) as [client|]; [|apply Hnone; reflexivity].
  destruct (dynType client); [| |apply Hnone; reflexivity];
    (destruct (LoadConfigResources w config _) as [rendered|];
     [|apply Hnone; reflexivity]).
  - eexists [_; _]. simpl. rewrite <- app_assoc. split; [reflexivity|]. split.
    + split; [intros _; right; left|reflexivity].
    + intros H. apply list_elem_of_In in H. simpl in H.
      destruct H as [H|[H|[]]]; discriminate H.
  - destruct (Cfgresources.SetupChassis rendered) as [setup|]; simpl.
    + eexists [_; _; _]. rewrite <- !app_assoc. split; [reflexivity|]. split.
      * split; [intros _; right; right; left|reflexivity].
      * intros H. apply list_elem_of_In in H. simpl in H.
        destruct H as [H|[H|[H|[]]]]; discriminate H.
    + eexists [_; _]. rewrite <- !app_assoc. split; [reflexivity|]. split.
      * split; [intros _; right; left|reflexivity].
      * intros H. apply list_elem_of_In in H. simpl in H.
        destruct H as [H|[H|[]]]; discriminate H.
Qed.

(** X18: outside a dry run, [configureAsset] starts with one login and
    ends with the measure of its run time. It closes the connection
    exactly when it returns a nil error: when the login fails nothing
    else is started, and when the login succeeds but the device type is
    unknown or no configuration is rendered, it returns its error without
    closing the connection that the login opened. *)
Theorem configureAsset_closes_iff_applied (w : World) (b : Butler) (config : string)
    (asset : Asset.Asset) (st : State) :
  Config.DryRun (Config_ b) = false ->
  let login := Bmclogin.Login (net w) (bmcConn b asset) in
  let out := configureAsset w b config asset st in
  exists l,
    invoked (snd out)
    = invoked st ++ [LoginCall (bmcConn b asset) (Bmclogin.tried login)] ++ l
      ++ [MeasureRuntime]
    /\ (fst (fst out) = None <-> Close ∈ l)
    /\ (forall e, Bmclogin.err login = Some e -> fst (fst out) = Some e /\ l = []).
Proof.
  intros Hdry login out. subst login out. unfold configureAsset. rewrite Hdry.
  destruct (Bmclogin.err (Bmclogin.Login (net w) (bmcConn b asset))) as [e|] eqn:Herr.
  - exists []. simpl. rewrite <- app_assoc. split; [reflexivity|]. split.
    + split; [discriminate|]. intros H. inversion H.
    + intros e' [= <-]. auto.
  - destruct (afterLogin_invoked w b config (Bmclogin.Login (net w) (bmcConn b asset))
                asset (invoke (LoginCall (bmcConn b asset)
                                 (Bmclogin.tried (Bmclogin.Login (net w) (bmcConn b asset))))
                         (logged Debug "Connecting to asset." st)))
      as (l & Hl & Hclose & _).
    destruct (afterLogin w b config _ asset _) as [[e a'] st3].
    exists l. simpl in *. rewrite Hl, <- !app_assoc. split; [reflexivity|].
    split; [exact Hclose|]. intros e' He'. discriminate He'.
Qed.

Lemma configureAsset_closes_iff_applied_witness :
  let w : World :=
    {| net := Fixtures.twoControllers; applyEnv := Fixtures.neverStopped;
       LoadConfigResources := fun _ _ => None;
       executeCommand := fun _ _ => None |} in
  let b := Fixtures.butlerAt [] true false in
  let asset := Fixtures.anAsset ["10.0.0.1"; "10.0.0.2"] "ams1" in
  let out := configureAsset w b "" asset Fixtures.start in
  Bmclogin.err (Bmclogin.Login (net w) (bmcConn b asset)) = None
  /\ fst (fst out) = Some "No BMC configuration to be applied"
  /\ exists l,
       invoked (snd out)
       = invoked Fixtures.start
         ++ [LoginCall (bmcConn b asset)
               (Bmclogin.tried (Bmclogin.Login (net w) (bmcConn b asset)))]
         ++ l ++ [MeasureRuntime]
       /\ Close ∉ l.
Proof.
  intros w b asset out. split; [reflexivity|]. split; [reflexivity|].
  destruct (configureAsset_closes_iff_applied w b "" asset Fixtures.start eq_refl)
    as (l & Hl & Hclose & _).
  exists l. split; [exact Hl|]. intros Hin. apply Hclose in Hin. discriminate Hin.
Defined.

(** X19: what a nil error of [configureAsset] means outside a dry run: the
    login returned a connection that is a server or a chassis, and the
    asset now carries the identity that the device reports (vendor, model,
    serial and type) and the active address of the login. *)
Theorem configureAsset_backfills_identity (w : World) (b : Butler) (config : string)
    (asset : Asset.Asset) (st : State) :
  Config.DryRun (Config_ b) = false ->
  fst (fst (configureAsset w b config asset st)) = None ->
  let login := Bmclogin.Login (net w) (bmcConn b asset) in
  let asset' := snd (fst (configureAsset w b config asset st)) in
  exists c,
    Bmclogin.connection login = Some c
    /\ Asset.IPAddress asset' = Bmclogin.ActiveIpAddress (Bmclogin.loginInfo login)
    /\ Asset.Vendor asset' = Vendor c
    /\ Asset.Model asset' = BmcType c
    /\ Asset.Serial asset' = Serial c
    /\ ((dynType c = Bmc /\ Asset.Type_ asset' = "server")
        \/ (dynType c = BmcChassis /\ Asset.Type_ asset' = "chassis")).
Proof.
  intros Hdry. unfold configureAsset. rewrite Hdry.
  destruct (Bmclogin.err _) as [e|]; [discriminate|].
  unfold afterLogin.
  destruct (Bmclogin.connection _) as [client|]; [|discriminate].
  destruct (dynType client) eqn:Hty; [| |discriminate];
    (destruct (LoadConfigResources w config _) as [rendered|]; [|discriminate]);
    intros _; exists client; simpl; repeat split; auto.
Qed.

Lemma configureAsset_backfills_identity_witness :
  let w := Fixtures.world Fixtures.twoControllers in
  let b := Fixtures.butlerAt [] true false in
  let asset := Fixtures.anAsset ["10.0.0.1"; "10.0.0.2"] "" in
  let asset' := snd (fst (configureAsset w b "" asset Fixtures.start)) in
  exists c,
    Bmclogin.connection (Bmclogin.Login (net w) (bmcConn b asset)) = Some c
    /\ Asset.IPAddress asset'
       = Bmclogin.ActiveIpAddress
           (Bmclogin.loginInfo (Bmclogin.Login (net w) (bmcConn b asset)))
    /\ Asset.Vendor asset' = Vendor c
    /\ Asset.Model asset' = BmcType c
    /\ Asset.Serial asset' = Serial c
    /\ ((dynType c = Bmc /\ Asset.Type_ asset' = "server")
        \/ (dynType c = BmcChassis /\ Asset.Type_ asset' = "chassis")).
Proof.
  intros w b asset asset'.
  apply (configureAsset_backfills_identity w b "" asset Fixtures.start); reflexivity.
Defined.


(** Outside a dry run, what [configureAsset] starts. *)
Lemma configureAsset_invoked (w : World) (b : Butler) (config : string)
    (asset : Asset.Asset) (st : State) :
  Config.DryRun (Config_ b) = false ->
  exists l,
    invoked (snd (configureAsset w b config asset st)) = invoked st ++ l
    /\ forall command a', ExecuteCommand command a' ∉ l.
Proof.
  intros Hdry. unfold configureAsset. rewrite Hdry.
  assert (Hno : forall (l : list Invocation),
             Forall (fun i => match i with ExecuteCommand _ _ => False | _ => True end) l ->
             forall command a', ExecuteCommand command a' ∉ l).
  { intros l Hall command a' Hin. rewrite Forall_forall in Hall.
    apply (Hall _ Hin). }
  destruct (Bmclogin.err _) as [e|].
  - eexists [_; _]. simpl. rewrite <- app_assoc. split; [reflexivity|].
    apply Hno. repeat constructor.
  - unfold afterLogin.
    destruct (Bmclogin.connection _) as [client|];
      [|eexists [_; _]; simpl; rewrite <- app_assoc; split;
        [reflexivity|apply Hno; repeat constructor]].
    destruct (dynType client);
      [| |eexists [_; _]; simpl; rewrite <- app_assoc; split;
          [reflexivity|apply Hno; repeat constructor]];
      (destruct (LoadConfigResources w config _) as [rendered|];
       [|eexists [_; _]; simpl; rewrite <- app_assoc; split;
         [reflexivity|apply Hno; repeat constructor]]).
    + eexists [_; _; _; _]. simpl. rewrite <- !app_assoc. split; [reflexivity|].
      apply Hno. repeat constructor.
    + destruct (Cfgresources.SetupChassis rendered) as [setup|]; simpl.
      * eexists [_; _; _; _; _]. rewrite <- !app_assoc. split; [reflexivity|].
        apply Hno. repeat constructor.
      * eexists [_; _; _; _]. rewrite <- !app_assoc. split; [reflexivity|].
        apply Hno. repeat constructor.
Qed.

(** The counters after the switch on the action flags. *)
Lemma dispatch_metrics (w : World) (b : Butler) (msg : Msg) (st : State) :
  (Asset.Execute (Asset_ msg) = false /\ Asset.Configure (Asset_ msg) = false
   /\ metrics (dispatch w b msg st) = metrics st)
  \/ exists key,
       key ∈ outcomeKeys /\ metrics (dispatch w b msg st) = IncrCounter key 1 (metrics st).
Proof.
  unfold dispatch, outcomeKeys. destruct (Asset.Execute (Asset_ msg)).
  - right. destruct (executeCommand w _ _); eexists; (split; [|reflexivity]);
      apply list_elem_of_In; simpl; tauto.
  - destruct (Asset.Configure (Asset_ msg)); [|left; auto].
    right.
    pose proof (configureAsset_metrics w b (AssetConfig msg) (Asset_ msg)
                  (invoke (ConfigureAsset (Asset_ msg)) st)) as Hm.
    destruct (configureAsset w b (AssetConfig msg) (Asset_ msg) _) as [[e a'] st1].
    simpl in Hm.
    destruct e; eexists; (split; [|cbn [metrics incr logged]; rewrite Hm; reflexivity]);
      apply list_elem_of_In; simpl; tauto.
Qed.

(** The counters after the handler. *)
Lemma msgHandler_metrics (w : World) (b : Butler) (msg : Msg) (st : State) :
  interrupt b = false ->
  let st' := msgHandler w b msg st in
  (exists key,
      key ∈ outcomeKeys
      /\ metrics st' = IncrCounter key 1 (IncrCounter recvdKey 1 (metrics st)))
  \/ (admitted b msg
      /\ Asset.Execute (Asset_ msg) = false /\ Asset.Configure (Asset_ msg) = false
      /\ metrics st' = IncrCounter recvdKey 1 (metrics st)).
Proof.
  intros Hrun st'. subst st'. unfold msgHandler. rewrite Hrun.
  destruct (noIP (Asset.IPAddresses (Asset_ msg))) eqn:Hips.
  { left. eexists. split; [|reflexivity]. apply list_elem_of_In. simpl. tauto. }
  destruct (negb (bool_decide (Asset.Location (Asset_ msg) = ""))
            && (negb (myLocation b (Asset.Location (Asset_ msg)))
                && negb (Config.IgnoreLocation (Config_ b)))) eqn:Hloc.
  { left. eexists. split; [|reflexivity]. apply list_elem_of_In. simpl. tauto. }
  destruct (dispatch_metrics w b msg (incr recvdKey st)) as [(He & Hc & Hm)|(key & Hk & Hm)].
  - right. split; [|auto]. split; [exact Hips|].
    destruct (bool_decide (Asset.Location (Asset_ msg) = "")) eqn:Hempty.
    + left. apply bool_decide_eq_true_1 in Hempty. exact Hempty.
    + right. cbn [negb andb] in Hloc.
      destruct (myLocation b (Asset.Location (Asset_ msg))) eqn:Hmy.
      * left. apply myLocation_spec. exact Hmy.
      * right. cbn [negb andb] in Hloc. destruct (Config.IgnoreLocation (Config_ b));
          [reflexivity|discriminate Hloc].
  - left. exists key. split; [exact Hk|]. exact Hm.
Qed.

Lemma counter_IncrCounter_same (key : list string) (n : nat) (m : Metrics) :
  counter (IncrCounter key n m) key = counter m key + n.
Proof. unfold IncrCounter. unfold counter at 1. rewrite lookup_insert_eq. reflexivity. Qed.

Lemma counter_IncrCounter_other (key key' : list string) (n : nat) (m : Metrics) :
  key <> key' -> counter (IncrCounter key n m) key' = counter m key'.
Proof.
  intros Hne. unfold IncrCounter. unfold counter at 1.
  rewrite lookup_insert_ne by exact Hne. reflexivity.
Qed.

Lemma outcomeKeys_not_recvd (key : list string) : key ∈ outcomeKeys -> key <> recvdKey.
Proof.
  intros Hin ->. apply list_elem_of_In in Hin. simpl in Hin.
  repeat (destruct Hin as [Hin|Hin]; [discriminate Hin|]). exact Hin.
Qed.

(** X20: the seven counters that [msgHandler] increments itself: the
    counter of received messages and the six counters of outcomes (no-IP,
    unmanaged location, execute failed or succeeded, configure failed or
    succeeded). A handler that is not interrupted adds one to the counter
    of received messages and to at most one counter of outcomes, and
    leaves the other counters of outcomes as they were. The only message
    that gets no count of outcome is one that passes both filters and
    asks neither for a command nor for its configuration.

    The statement is about these seven counters and the calls of
    [metrics.IncrCounter] of [msgHandler]. What the functions it starts
    emit themselves, as the run time [butler.configure_runtime] that
    [configureAsset] measures on its way out, is kept as an invocation
    and is no part of the statement. *)
Theorem msgHandler_counts_one_outcome (w : World) (b : Butler) (msg : Msg) (st : State) :
  interrupt b = false ->
  let st' := msgHandler w b msg st in
  counter (metrics st') recvdKey = counter (metrics st) recvdKey + 1
  /\ ((exists key,
          key ∈ outcomeKeys
          /\ counter (metrics st') key = counter (metrics st) key + 1
          /\ forall key', key' ∈ outcomeKeys -> key' <> key ->
               counter (metrics st') key' = counter (metrics st) key')
      \/ (admitted b msg
          /\ Asset.Execute (Asset_ msg) = false /\ Asset.Configure (Asset_ msg) = false
          /\ forall key', key' ∈ outcomeKeys ->
               counter (metrics st') key' = counter (metrics st) key')).
Proof.
  intros Hrun st'. subst st'.
  destruct (msgHandler_metrics w b msg st Hrun) as [(key & Hk & ->)|(Hadm & He & Hc & ->)].
  - pose proof (outcomeKeys_not_recvd key Hk) as Hne. split.
    + rewrite counter_IncrCounter_other by exact Hne. apply counter_IncrCounter_same.
    + left. exists key. split; [exact Hk|]. split.
      * rewrite counter_IncrCounter_same, counter_IncrCounter_other by congruence.
        reflexivity.
      * intros key' Hk' Hne'.
        rewrite !counter_IncrCounter_other;
          [reflexivity| |congruence].
        intros Heq. apply (outcomeKeys_not_recvd key' Hk'). symmetry. exact Heq.
  - split; [apply counter_IncrCounter_same|].
    right. split; [exact Hadm|]. split; [exact He|]. split; [exact Hc|].
    intros key' Hk'. apply counter_IncrCounter_other.
    intros Heq. apply (outcomeKeys_not_recvd key' Hk'). symmetry. exact Heq.
Qed.

Lemma msgHandler_counts_one_outcome_witness :
  let w := Fixtures.world Fixtures.twoControllers in
  let b := Fixtures.butlerAt ["ams1"] false false in
  let msg := Fixtures.message ["10.0.0.1"; "10.0.0.2"] "ams1" in
  let st' := msgHandler w b msg Fixtures.start in
  counter (metrics st') recvdKey = counter (metrics Fixtures.start) recvdKey + 1
  /\ exists key,
       key ∈ outcomeKeys
       /\ counter (metrics st') key = counter (metrics Fixtures.start) key + 1
       /\ forall key', key' ∈ outcomeKeys -> key' <> key ->
            counter (metrics st') key' = counter (metrics Fixtures.start) key'.
Proof.
  intros w b msg st'.
  destruct (msgHandler_counts_one_outcome w b msg Fixtures.start eq_refl)
    as [Hrecvd [Hone|(_ & _ & Hc & _)]].
  - split; [exact Hrecvd|exact Hone].
  - discriminate Hc.
Defined.

(** X21: the order of the actions. A message that passes the filters and
    asks for a command gets the command and nothing else, also when it
    asks for its configuration as well; one that asks only for its
    configuration is handed to [configureAsset], and no command is run;
    one that asks for neither starts nothing and is logged as an unknown
    request. *)
Theorem msgHandler_action_priority (w : World) (b : Butler) (msg : Msg) (st : State) :
  interrupt b = false ->
  admitted b msg ->
  let a := Asset_ msg in
  let st' := msgHandler w b msg st in
  (Asset.Execute a = true ->
   invoked st' = invoked st ++ [ExecuteCommand (AssetExecute msg) a])
  /\ (Asset.Execute a = false -> Asset.Configure a = true ->
      exists l, invoked st' = invoked st ++ ConfigureAsset a :: l
                /\ forall command a', ExecuteCommand command a' ∉ l)
  /\ (Asset.Execute a = false -> Asset.Configure a = false ->
      st' = logged Warn "Unknown action request on asset." (incr recvdKey st)).
Proof.
  intros Hrun Hadm a st'. subst a st'.
  rewrite (msgHandler_admitted w b msg st Hrun Hadm).
  unfold dispatch. split; [|split].
  - intros ->. destruct (executeCommand w _ _); reflexivity.
  - intros -> ->.
    destruct (Config.DryRun (Config_ b)) eqn:Hdry.
    + unfold configureAsset. rewrite Hdry. exists []. split; [reflexivity|].
      intros command a'. apply not_elem_of_nil.
    + destruct (configureAsset_invoked w b (AssetConfig msg) (Asset_ msg)
                  (invoke (ConfigureAsset (Asset_ msg)) (incr recvdKey st)) Hdry)
        as (l & Hl & Hno).
      destruct (configureAsset w b (AssetConfig msg) (Asset_ msg) _) as [[e a'] st1].
      simpl in Hl. exists l. split; [|exact Hno].
      destruct e; cbn [invoked incr logged]; rewrite Hl, <- app_assoc; reflexivity.
  - intros -> ->. reflexivity.
Qed.

Lemma msgHandler_action_priority_witness :
  let w := Fixtures.world Fixtures.twoControllers in
  let b := Fixtures.butlerAt [] false false in
  let a := Fixtures.anAsset ["10.0.0.1"; "10.0.0.2"] "" in
  let both :=
    {| Asset.IPAddresses := Asset.IPAddresses a; Asset.IPAddress := Asset.IPAddress a;
       Asset.Serial := Asset.Serial a; Asset.Vendor := Asset.Vendor a;
       Asset.HardwareType := Asset.HardwareType a; Asset.Type_ := Asset.Type_ a;
       Asset.Model := Asset.Model a; Asset.Location := Asset.Location a;
       Asset.Setup := false; Asset.Configure := true; Asset.Execute := true;
       Asset.Extra := Asset.Extra a |} in
  let msg := {| Asset_ := both; AssetConfig := ""; AssetSetup := "";
                AssetExecute := "powercycle" |} in
  Asset.Configure both = true
  /\ invoked (msgHandler w b msg Fixtures.start) = [ExecuteCommand "powercycle" both].
Proof.
  intros w b a both msg. split; [reflexivity|].
  assert (Hadm : admitted b msg) by (split; [reflexivity|left; reflexivity]).
  exact (proj1 (msgHandler_action_priority w b msg Fixtures.start eq_refl Hadm) eq_refl).
Defined.

(** X22: a dry run counts every asset that asks for its configuration as
    configured with success: the handler starts [configureAsset], which
    makes no login and starts nothing else, and the success counter goes
    up by one. *)
Theorem msgHandler_dry_run (w : World) (b : Butler) (msg : Msg) (st : State) :
  interrupt b = false ->
  admitted b msg ->
  Config.DryRun (Config_ b) = true ->
  Asset.Execute (Asset_ msg) = false ->
  Asset.Configure (Asset_ msg) = true ->
  let st' := msgHandler w b msg st in
  invoked st' = invoked st ++ [ConfigureAsset (Asset_ msg)]
  /\ counter (metrics st') ["butler"; "configure_success"]
     = counter (metrics st) ["butler"; "configure_success"] + 1
  /\ counter (metrics st') ["butler"; "configure_fail"]
     = counter (metrics st) ["butler"; "configure_fail"].
Proof.
  intros Hrun Hadm Hdry He Hc st'. subst st'.
  rewrite (msgHandler_admitted w b msg st Hrun Hadm).
  unfold dispatch. rewrite He, Hc. unfold configureAsset. rewrite Hdry.
  split; [reflexivity|]. split.
  - rewrite counter_incr_same. cbn [metrics logged invoke].
    rewrite counter_incr_other by discriminate. reflexivity.
  - rewrite counter_incr_other by discriminate. cbn [metrics logged invoke].
    rewrite counter_incr_other by discriminate. reflexivity.
Qed.

Lemma msgHandler_dry_run_witness :
  let w := Fixtures.world Fixtures.nobody in
  let b :=
    {| Config_ :=
         {| Config.Locations := ["ams1"]; Config.IgnoreLocation := false;
            Config.DryRun := true; Config.Credentials := [Fixtures.admin];
            Config.Resources := [] |};
       interrupt := false |} in
  let msg := Fixtures.message ["10.0.0.1"] "ams1" in
  let st' := msgHandler w b msg Fixtures.start in
  invoked st' = invoked Fixtures.start ++ [ConfigureAsset (Asset_ msg)]
  /\ counter (metrics st') ["butler"; "configure_success"]
     = counter (metrics Fixtures.start) ["butler"; "configure_success"] + 1
  /\ counter (metrics st') ["butler"; "configure_fail"]
     = counter (metrics Fixtures.start) ["butler"; "configure_fail"].
Proof.
  intros w b msg.
  apply (msgHandler_dry_run w b msg Fixtures.start); try reflexivity.
  split; [reflexivity|]. right. left. apply list_elem_of_In. simpl. tauto.
Defined.

End ButlerMore.

(** ** The receive loop *)

Section RunnerMore.

Import Butler ButlerRunner RunnerTerms.

Lemma loop_received (pre rest : list Event) (rs : RunnerState) :
  Forall (fun e => isReceived e = true) pre ->
  exists l,
    loop (pre ++ rest) rs
    = loop rest {| butler := butler rs; log := l;
                   effects := effects rs ++ map Submit (messages pre) |}.
Proof.
  intros Hpre. revert rs. induction Hpre as [|e pre He _ IH]; intros rs.
  - exists (log rs). simpl. rewrite app_nil_r. destruct rs; reflexivity.
  - destruct e as [msg waits| |]; try discriminate He. simpl.
    destruct (IH {| butler := butler rs; log := waitLoop waits (log rs);
                    effects := effects rs ++ [Submit msg] |}) as (l & Hl).
    exists l. rewrite Hl. simpl. rewrite <- app_assoc. reflexivity.
Qed.

(** X23: when the stop channel fires, [Runner] has handed to the pool the
    messages received so far, in their order, and hands over no message
    that comes later; it stops the pool, then waits for it and releases
    the wait group. The interrupt flag of the butler is set from then on,
    so that every task of the pool that starts afterwards returns without
    counting or handling its message. *)
Theorem Runner_stop_signal (pre post : list Event) (b : Butler) :
  Forall (fun e => isReceived e = true) pre ->
  exists rs,
    Runner (pre ++ StopSignal :: post) b = Some rs
    /\ effects rs = map Submit (messages pre) ++ [Stop; StopWait; Done]
    /\ Config_ (butler rs) = Config_ b
    /\ forall w msg st, msgHandler w (butler rs) msg st = st.
Proof.
  intros Hpre. unfold Runner.
  destruct (loop_received pre (StopSignal :: post)
              {| butler := b; log := []; effects := [] |} Hpre) as (l & Hl).
  rewrite Hl. simpl. eexists. split; [reflexivity|]. simpl.
  split; [rewrite <- app_assoc; reflexivity|]. split; [reflexivity|].
  intros w msg st. reflexivity.
Qed.

Lemma Runner_stop_signal_witness :
  let b := Fixtures.butlerAt ["ams1"] false false in
  let first := Fixtures.message ["10.0.0.1"] "ams1" in
  let second := Fixtures.message ["10.0.0.2"] "ams1" in
  let late := Fixtures.message ["10.0.0.3"] "ams1" in
  exists rs,
    Runner ([Received first 0; Received second 2] ++ StopSignal :: [Received late 0]) b
    = Some rs
    /\ effects rs = [Submit first; Submit second; Stop; StopWait; Done]
    /\ msgHandler (Fixtures.world Fixtures.twoControllers) (butler rs) first Fixtures.start
       = Fixtures.start.
Proof.
  intros b first second late.
  destruct (Runner_stop_signal [Received first 0; Received second 2] [Received late 0] b)
    as (rs & Hrs & Heff & _ & Hnoop).
  - repeat constructor.
  - exists rs. split; [exact Hrs|]. split; [exact Heff|]. apply Hnoop.
Defined.

(** X24: when the channel of messages is closed, [Runner] has handed to
    the pool the messages received before, in their order; it does not
    stop the pool but waits for it, then releases the wait group, and
    leaves the butler, with its interrupt flag, as it was. *)
Theorem Runner_channel_closed (pre post : list Event) (b : Butler) :
  Forall (fun e => isReceived e = true) pre ->
  exists rs,
    Runner (pre ++ ChannelClosed :: post) b = Some rs
    /\ effects rs = map Submit (messages pre) ++ [StopWait; Done]
    /\ butler rs = b.
Proof.
  intros Hpre. unfold Runner.
  destruct (loop_received pre (ChannelClosed :: post)
              {| butler := b; log := []; effects := [] |} Hpre) as (l & Hl).
  rewrite Hl. simpl. eexists. split; [reflexivity|]. simpl.
  split; reflexivity.
Qed.

Lemma Runner_channel_closed_witness :
  let b := Fixtures.butlerAt ["ams1"] false false in
  let first := Fixtures.message ["10.0.0.1"] "ams1" in
  let second := Fixtures.message ["10.0.0.2"] "ams1" in
  exists rs,
    Runner ([Received first 1; Received second 0] ++ ChannelClosed :: [StopSignal]) b
    = Some rs
    /\ effects rs = [Submit first; Submit second; StopWait; Done]
    /\ butler rs = b.
Proof.
  intros b first second.
  destruct (Runner_channel_closed [Received first 1; Received second 0] [StopSignal] b)
    as (rs & Hrs & Heff & Hb).
  - repeat constructor.
  - exists rs. split; [exact Hrs|]. split; [exact Heff|exact Hb].
Defined.

End RunnerMore.

(** ** The Dora inventory *)

Section InventoryMore.

Import Butler Inventory InventoryTerms.

Lemma withLocation_same (a : Asset.Asset) : withLocation (Asset.Location a) a = a.
Proof. destruct a; reflexivity. Qed.

Lemma sameButLocation_refl (a : Asset.Asset) : sameButLocation a a.
Proof. unfold sameButLocation. rewrite withLocation_same. reflexivity. Qed.

Lemma sameButLocation_withLocation (site : string) (a a' : Asset.Asset) :
  sameButLocation a a' -> sameButLocation a (withLocation site a').
Proof. unfold sameButLocation. intros ->. reflexivity. Qed.

Lemma locate_sameButLocation (entry : DoraAssetData) (assets assets' : list Asset.Asset) :
  Forall2 sameButLocation assets assets' ->
  Forall2 sameButLocation assets (locate entry assets').
Proof.
  intros H. induction H as [|a a' assets assets' Ha _ IH]; [constructor|].
  simpl. constructor; [|exact IH].
  destruct (String.eqb _ _); [apply sameButLocation_withLocation|]; exact Ha.
Qed.

Lemma fold_locate_sameButLocation (scanned : list DoraAssetData) :
  forall assets assets' : list Asset.Asset,
  Forall2 sameButLocation assets assets' ->
  Forall2 sameButLocation assets
    (fold_left (fun l entry => locate entry l) scanned assets').
Proof.
  induction scanned as [|entry rest IH]; intros assets assets' H; [exact H|].
  simpl. apply IH. apply locate_sameButLocation. exact H.
Qed.

Lemma Forall2_sameButLocation_refl (assets : list Asset.Asset) :
  Forall2 sameButLocation assets assets.
Proof. induction assets; constructor; [apply sameButLocation_refl|assumption]. Qed.

(** What [setLocation] can do. *)
Lemma setLocation_cases (web : Web) (d : Dora) (assets : list Asset.Asset) (st : State) :
  let out := setLocation web d assets st in
  requests (snd out) = requests st ++ [locationURL d assets]
  /\ metrics (snd out) = metrics st
  /\ sent (snd out) = sent st
  /\ closed (snd out) = closed st
  /\ ((fst out = Panicked /\ fst (Get web (length (requests st)) (locationURL d assets)) = None)
      \/ exists e assets',
           fst out = Returned (e, assets')
           /\ Forall2 sameButLocation assets assets'
           /\ (e <> None -> assets' = assets)).
Proof.
  unfold setLocation, get, locationURL.
  destruct (Get web _ _) as [[r|] [e|]]; simpl.
  - repeat split. right. exists (Some e), assets. split; [reflexivity|].
    split; [apply Forall2_sameButLocation_refl|reflexivity].
  - destruct (bool_decide (StatusCode r <> 200%Z)); simpl.
    + repeat split. right. exists None, assets. split; [reflexivity|].
      split; [apply Forall2_sameButLocation_refl|reflexivity].
    + destruct (Unmarshal web (fst (ReadAll r))) as [scanned [e|]]; simpl.
      * repeat split. right. exists (Some e), assets. split; [reflexivity|].
        split; [apply Forall2_sameButLocation_refl|reflexivity].
      * repeat split. right. eexists None, _. split; [reflexivity|].
        split; [|intros H; contradiction].
        apply fold_locate_sameButLocation, Forall2_sameButLocation_refl.
  - repeat split. left. auto.
  - repeat split. left. auto.
Qed.

(** X25: the error of [setLocation]. It is the error of the request, or,
    after an answer with status 200, the error of the decoding. An answer
    with another status and no error of the request is logged as a
    failure and returned as a nil error, with the assets as they were. *)
Theorem setLocation_error (web : Web) (d : Dora) (assets : list Asset.Asset)
    (st : State) (r : Response) (requestErr : option error) :
  Get web (length (requests st)) (locationURL d assets) = (Some r, requestErr) ->
  exists e assets',
    fst (setLocation web d assets st) = Returned (e, assets')
    /\ (requestErr <> None -> e = requestErr /\ assets' = assets)
    /\ (requestErr = None -> StatusCode r <> 200%Z ->
        e = None /\ assets' = assets
        /\ {| level := Warn; message := "Unable to query Dora for IP location info." |}
           ∈ log (snd (setLocation web d assets st)))
    /\ (requestErr = None -> StatusCode r = 200%Z ->
        e = snd (Unmarshal web (fst (ReadAll r)))).
Proof.
  intros Hget. unfold setLocation, get. fold (locationURL d assets). rewrite Hget.
  destruct requestErr as [e|].
  - exists (Some e), assets. split; [reflexivity|]. split; [auto|].
    split; intros H; discriminate H.
  - destruct (bool_decide (StatusCode r <> 200%Z)) eqn:Hstatus.
    + apply bool_decide_eq_true_1 in Hstatus.
      exists None, assets. split; [reflexivity|]. split; [intros H; contradiction|].
      split; [|intros _ H; contradiction].
      intros _ _. split; [reflexivity|]. split; [reflexivity|].
      simpl. unfold logAt. apply elem_of_app. right. left.
    + apply bool_decide_eq_false_1 in Hstatus.
      destruct (Unmarshal web (fst (ReadAll r))) as [scanned [e|]].
      * exists (Some e), assets. split; [reflexivity|]. split; [intros H; contradiction|].
        split; [intros _ H; contradiction|]. reflexivity.
      * eexists None, _. split; [reflexivity|]. split; [intros H; contradiction|].
        split; [intros _ H; contradiction|]. reflexivity.
Qed.

Lemma setLocation_error_witness :
  let assets := [InventoryFixtures.assetAt "10.0.0.1"] in
  exists e assets',
    fst (setLocation InventoryFixtures.webRefusing InventoryFixtures.dora assets
           InventoryFixtures.start)
    = Returned (e, assets')
    /\ e = None /\ assets' = assets.
Proof.
  intros assets.
  destruct (setLocation_error InventoryFixtures.webRefusing InventoryFixtures.dora assets
              InventoryFixtures.start
              {| StatusCode := 500; ReadAll := ("", None) |} None eq_refl)
    as (e & assets' & Hret & _ & Hrefused & _).
  exists e, assets'. split; [exact Hret|].
  destruct (Hrefused eq_refl) as (He & Ha & _); [discriminate|]. auto.
Defined.

Lemma fold_locate_map (scanned : list DoraAssetData) :
  forall assets : list Asset.Asset,
  fold_left (fun l entry => locate entry l) scanned assets
  = map (fun a => fold_left (fun a' entry => 
                    if String.eqb (ScannedAddress (Attributes entry)) (Asset.IPAddress a')
                    then withLocation (Site (Attributes entry)) a' else a') scanned a)
      assets.
Proof.
  induction scanned as [|entry rest IH]; intros assets; simpl.
  - rewrite map_id. reflexivity.
  - rewrite IH. unfold locate. rewrite map_map. reflexivity.
Qed.

Lemma fold_located (scanned : list DoraAssetData) :
  forall a : Asset.Asset,
  fold_left (fun a' entry => 
               if String.eqb (ScannedAddress (Attributes entry)) (Asset.IPAddress a')
               then withLocation (Site (Attributes entry)) a' else a') scanned a
  = located scanned a.
Proof.
  induction scanned as [|entry rest IH]; intros a; [reflexivity|].
  simpl. rewrite IH. unfold located. simpl.
  destruct (String.eqb (ScannedAddress (Attributes entry)) (Asset.IPAddress a)) eqn:Hhere;
    simpl.
  - destruct (lastSite rest (Asset.IPAddress a)); reflexivity.
  - destruct (lastSite rest (Asset.IPAddress a)); reflexivity.
Qed.

(** X26: after an answer with status 200 that decodes, every asset has
    the site of the last scanned entry for its address; an asset whose
    address is in no scanned entry keeps its location. *)
Theorem setLocation_last_site_wins (web : Web) (d : Dora) (assets : list Asset.Asset)
    (st : State) (r : Response) (scanned : DoraAsset) :
  Get web (length (requests st)) (locationURL d assets) = (Some r, None) ->
  StatusCode r = 200%Z ->
  Unmarshal web (fst (ReadAll r)) = (scanned, None) ->
  fst (setLocation web d assets st)
  = Returned (None, map (located (Data scanned)) assets).
Proof.
  intros Hget Hstatus Hdecode. unfold setLocation, get. fold (locationURL d assets).
  rewrite Hget, Hdecode.
  rewrite bool_decide_eq_false_2 by (intros H; contradiction).
  simpl. rewrite fold_locate_map. f_equal. f_equal.
  apply map_ext. intros a. apply fold_located.
Qed.

Lemma setLocation_last_site_wins_witness :
  let near := InventoryFixtures.assetAt "10.0.0.1" in
  let far := InventoryFixtures.assetAt "10.0.0.4" in
  fst (setLocation InventoryFixtures.web InventoryFixtures.dora [near; far]
         InventoryFixtures.start)
  = Returned (None, [withLocation "lhr2" near; far]).
Proof.
  intros near far.
  exact (setLocation_last_site_wins InventoryFixtures.web InventoryFixtures.dora
           [near; far] InventoryFixtures.start
           {| StatusCode := 200; ReadAll := ("ports", None) |}
           {| Data := [InventoryFixtures.scannedAt "10.0.0.1" "ams1";
                       InventoryFixtures.scannedAt "10.9.9.9" "fra3";
                       InventoryFixtures.scannedAt "10.0.0.1" "lhr2"];
              Links := InventoryFixtures.noLinks |}
           eq_refl eq_refl eq_refl).
Defined.

Lemma madeFor_sameButLocation (assetType : string) (a a' : Asset.Asset) :
  sameButLocation a a' -> madeFor assetType a -> madeFor assetType a'.
Proof. unfold sameButLocation, madeFor. intros -> H. exact H. Qed.

Lemma Forall_madeFor_sameButLocation (assetType : string) (assets assets' : list Asset.Asset) :
  Forall2 sameButLocation assets assets' ->
  Forall (madeFor assetType) assets -> Forall (madeFor assetType) assets'.
Proof.
  intros H. induction H as [|a a' assets assets' Ha _ IH]; intros Hall; [constructor|].
  inversion Hall; subst. constructor; [|apply IH; assumption].
  eapply madeFor_sameButLocation; eassumption.
Qed.

Lemma collectBySerial_spec (assetType : string) (items : list DoraAssetData) :
  forall (assets : list Asset.Asset) (st : State),
  exists kept,
    fst (collectBySerial assetType items assets st) = assets ++ kept
    /\ Forall (madeFor assetType) kept
    /\ requests (snd (collectBySerial assetType items assets st)) = requests st
    /\ sent (snd (collectBySerial assetType items assets st)) = sent st
    /\ closed (snd (collectBySerial assetType items assets st)) = closed st.
Proof.
  induction items as [|item rest IH]; intros assets st.
  - exists []. simpl. rewrite app_nil_r. repeat split. constructor.
  - simpl. destruct (String.eqb (BmcAddress (Attributes item)) "") eqn:Hno.
    + destruct (IH assets
                  (logged Warn
                     "Asset location could not be determined, since the asset has no IP."
                     st)) as (kept & Hk & Hall & Hr & Hs & Hc).
      exists kept. auto.
    + destruct (IH (assets ++ [fromItem assetType item]) st)
        as (kept & Hk & Hall & Hr & Hs & Hc).
      exists (fromItem assetType item :: kept). rewrite Hk, <- app_assoc.
      split; [reflexivity|]. split; [|auto].
      constructor; [|exact Hall]. split; [reflexivity|]. split; [|reflexivity].
      simpl. apply String.eqb_neq. exact Hno.
Qed.

(** One turn of the loop of [AssetIterBySerial]. *)
Lemma bySerialTurn_spec (web : Web) (d : Dora) (assetType : string) (st : State) :
  let st' := match bySerialTurn web d assetType st with
             | Next st' => st'
             | Return r => snd r
             end in
  closed st' = closed st
  /\ (length (requests st') <= length (requests st) + 2)%nat
  /\ match bySerialTurn web d assetType st with
     | Next _ =>
         sent st' = sent st
         \/ exists batch, sent st' = sent st ++ [batch] /\ Forall (madeFor assetType) batch
     | Return _ => sent st' = sent st
     end.
Proof.
  unfold bySerialTurn, get.
  destruct (Get web _ _) as [[r|] [e|]]; cbn [fst snd];
    try (simpl; rewrite length_app; simpl; split; [reflexivity|split; [lia|reflexivity]]).
  destruct (ReadAll r) as [body [e1|]];
    [simpl; rewrite length_app; simpl; split; [reflexivity|split; [lia|reflexivity]]|].
  destruct (Unmarshal web body) as [doraAssets [e2|]];
    [simpl; rewrite length_app; simpl; split; [reflexivity|split; [lia|reflexivity]]|].
  destruct (bool_decide (length (Data doraAssets) = 0));
    [simpl; rewrite length_app; simpl; split; [reflexivity|split; [lia|left; reflexivity]]|].
  destruct (collectBySerial_spec assetType (Data doraAssets) []
              (logged Debug "Asset located in dora inventory."
                 (requested
                    ((URL d +:+ "/v1/" +:+ path assetType +:+ "?filter[serial]=")
                     +:+ ToLower web (Serials d)) st)))
    as (kept & Hk & Hall & Hr & Hs & Hc).
  destruct (collectBySerial assetType (Data doraAssets) [] _) as [assets st3].
  cbn [fst snd] in Hk, Hr, Hs, Hc. simpl in Hk. subst assets.
  destruct (setLocation_cases web d kept st3)
    as (Hr' & _ & Hs' & Hc' & [[Hp _]|(e & assets' & Hret & Hsame & _)]).
  - destruct (setLocation web d kept st3) as [o st4]. cbn [fst snd] in *. subst o.
    cbv beta iota. cbn [snd].
    rewrite Hc', Hc, Hr', Hr, Hs', Hs. simpl. rewrite !length_app. simpl.
    split; [reflexivity|]. split; [lia|reflexivity].
  - destruct (setLocation web d kept st3) as [o st4]. cbn [fst snd] in *. subst o.
    destruct e as [e|]; cbv beta iota; cbn [snd closed requests sent logged send];
      rewrite Hc', Hc, Hr', Hr, Hs', Hs; simpl; rewrite !length_app; simpl.
    + split; [reflexivity|]. split; [lia|reflexivity].
    + split; [reflexivity|]. split; [lia|]. right. exists assets'.
      split; [reflexivity|].
      eapply Forall_madeFor_sameButLocation; eassumption.
Qed.

Lemma bySerialLoop_spec (web : Web) (d : Dora) (types : list string) :
  forall st : State,
  let out := bySerialLoop web d types st in
  exists tys batches,
    tys `sublist_of` types
    /\ sent (snd out) = sent st ++ batches
    /\ Forall2 (fun assetType batch => Forall (madeFor assetType) batch) tys batches
    /\ (length (requests (snd out)) <= length (requests st) + 2 * length types)%nat
    /\ closed (snd out) = closed st.
Proof.
  induction types as [|assetType rest IH]; intros st.
  - exists [], []. simpl. rewrite app_nil_r. split; [apply sublist_nil_l|].
    split; [reflexivity|]. split; [constructor|]. split; [lia|reflexivity].
  - simpl. pose proof (bySerialTurn_spec web d assetType st) as Hturn.
    destruct (bySerialTurn web d assetType st) as [st1|r].
    + destruct Hturn as (Hc & Hr & Hs).
      destruct (IH st1) as (tys & batches & Hsub & Hsent & Hall & Hreq & Hcl).
      destruct Hs as [Hs|(batch & Hs & Hbatch)].
      * exists tys, batches. split; [apply sublist_cons; exact Hsub|].
        split; [rewrite Hsent, Hs; reflexivity|]. split; [exact Hall|].
        split; [lia|]. rewrite Hcl. exact Hc.
      * exists (assetType :: tys), (batch :: batches).
        split; [apply sublist_skip; exact Hsub|].
        split; [rewrite Hsent, Hs, <- app_assoc; reflexivity|].
        split; [constructor; assumption|]. split; [lia|]. rewrite Hcl. exact Hc.
    + destruct Hturn as (Hc & Hr & Hs). exists [], []. rewrite app_nil_r.
      split; [apply sublist_nil_l|]. split; [exact Hs|]. split; [constructor|].
      split; [lia|exact Hc].
Qed.

(** X27: [AssetIterBySerial] asks Dora at most twice for each asset type
    of the filter. What it sends over the channel is at most one batch
    for each asset type, in the order of the filter, and every asset of a
    batch has the type of the batch, a non-empty address in [IPAddress]
    and no address in [IPAddresses]. It closes the channel unless the
    process exits. *)
Theorem AssetIterBySerial_sends (web : Web) (d : Dora) (st : State) :
  let out := AssetIterBySerial web d st in
  exists tys batches,
    tys `sublist_of` FilterAssetType d
    /\ sent (snd out) = sent st ++ batches
    /\ Forall2 (fun assetType batch => Forall (madeFor assetType) batch) tys batches
    /\ (length (requests (snd out))
        <= length (requests st) + 2 * length (FilterAssetType d))%nat
    /\ match fst out with
       | Exited _ => closed (snd out) = closed st
       | _ => closed (snd out) = true
       end.
Proof.
  intros out. subst out. unfold AssetIterBySerial.
  destruct (bySerialLoop_spec web d (FilterAssetType d) st)
    as (tys & batches & Hsub & Hsent & Hall & Hreq & Hcl).
  exists tys, batches.
  destruct (bySerialLoop web d (FilterAssetType d) st) as [[[]|msg|] st'];
    cbn [fst snd deferredClose close sent requests closed] in *; auto 10.
Qed.

Lemma counter_counted_same (key : list string) (n : nat) (st : State) :
  counter (metrics (counted key n st)) key = counter (metrics st) key + n.
Proof.
  unfold counted, IncrCounter. cbn [metrics]. unfold counter at 1.
  rewrite lookup_insert_eq. reflexivity.
Qed.

Lemma counter_counted_other (key key' : list string) (n : nat) (st : State) :
  key <> key' -> counter (metrics (counted key n st)) key' = counter (metrics st) key'.
Proof.
  intros Hne. unfold counted, IncrCounter. cbn [metrics]. unfold counter at 1.
  rewrite lookup_insert_ne by exact Hne. reflexivity.
Qed.

Lemma goodIn_sameButLocation (types : list string) (assets assets' : list Asset.Asset) :
  Forall2 sameButLocation assets assets' ->
  Forall (goodIn types) assets -> Forall (goodIn types) assets'.
Proof.
  intros H. induction H as [|a a' assets assets' Ha _ IH]; intros Hall; [constructor|].
  inversion Hall as [|? ? (assetType & Hin & Hmade & Hzero) Hrest]; subst.
  constructor; [|apply IH; exact Hrest].
  exists assetType. split; [exact Hin|]. split.
  - eapply madeFor_sameButLocation; eassumption.
  - unfold sameButLocation in Ha. rewrite Ha. exact Hzero.
Qed.

Lemma collect_spec (assetType : string) (items : list DoraAssetData) :
  forall (assets : list Asset.Asset) (st : State),
  exists kept,
    fst (collect assetType items assets st) = assets ++ kept
    /\ Forall (goodIn [assetType]) kept
    /\ requests (snd (collect assetType items assets st)) = requests st
    /\ sent (snd (collect assetType items assets st)) = sent st
    /\ closed (snd (collect assetType items assets st)) = closed st
    /\ counter (metrics (snd (collect assetType items assets st))) noipKey + length kept
       = counter (metrics st) noipKey + length items
    /\ forall key, key <> noipKey ->
         counter (metrics (snd (collect assetType items assets st))) key
         = counter (metrics st) key.
Proof.
  induction items as [|item rest IH]; intros assets st.
  - exists []. simpl. rewrite app_nil_r. repeat split. constructor.
  - simpl.
    destruct (String.eqb (BmcAddress (Attributes item)) "") eqn:Hno;
      [|destruct (String.eqb (BmcAddress (Attributes item)) "0.0.0.0") eqn:Hzero];
      cbn [orb].
    1, 2: destruct (IH assets
                  (counted ["inventory"; "assets_noip_dora"] 1
                     (logged Warn
                        "Asset location could not be determined, since the asset has no IP."
                        st))) as (kept & Hk & Hall & Hr & Hs & Hc & Hn & Ho);
      exists kept; rewrite Hk, Hr, Hs, Hc;
      (split; [reflexivity|]); (split; [exact Hall|]); (split; [reflexivity|]);
      (split; [reflexivity|]); (split; [reflexivity|]); split;
      [rewrite Hn; change ["inventory"; "assets_noip_dora"] with noipKey;
       rewrite counter_counted_same; cbn [metrics logged]; lia
      |intros key Hkey; rewrite (Ho key Hkey),
         counter_counted_other by (intros Heq; apply Hkey; symmetry; exact Heq);
       reflexivity].
    destruct (IH (assets ++ [fromItem assetType item]) st)
      as (kept & Hk & Hall & Hr & Hs & Hc & Hn & Ho).
    exists (fromItem assetType item :: kept). rewrite Hk, <- app_assoc.
    split; [reflexivity|]. split.
    { constructor; [|exact Hall]. exists assetType. split; [left|].
      split; [split; [reflexivity|split; [|reflexivity]]|].
      - simpl. apply String.eqb_neq. exact Hno.
      - simpl. apply String.eqb_neq. exact Hzero. }
    split; [exact Hr|]. split; [exact Hs|]. split; [exact Hc|]. split.
    + cbn [length]. lia.
    + exact Ho.
Qed.

Lemma progress_refl (types : list string) (st st' : State) :
  sent st' = sent st ->
  (forall key, counter (metrics st') key = counter (metrics st) key) ->
  progress types st st'.
Proof.
  intros Hs Hm. exists []. rewrite app_nil_r, !Hm. simpl.
  split; [exact Hs|]. split; [constructor|]. split; lia.
Qed.

Lemma progress_trans (types : list string) (st1 st2 st3 : State) :
  progress types st1 st2 -> progress types st2 st3 -> progress types st1 st3.
Proof.
  intros (b1 & Hs1 & Hg1 & Hr1 & Hi1) (b2 & Hs2 & Hg2 & Hr2 & Hi2).
  exists (b1 ++ b2). rewrite Hs2, Hs1, <- app_assoc. split; [reflexivity|].
  split; [apply Forall_app; auto|]. rewrite concat_app, length_app.
  split; lia.
Qed.

Lemma goodIn_weaken (types types' : list string) (a : Asset.Asset) :
  types ⊆ types' -> goodIn types a -> goodIn types' a.
Proof.
  intros Hsub (assetType & Hin & H). exists assetType. split; [apply Hsub, Hin|exact H].
Qed.

Lemma progress_weaken (types types' : list string) (st st' : State) :
  types ⊆ types' -> progress types st st' -> progress types' st st'.
Proof.
  intros Hsub (batches & Hs & Hg & Hr). exists batches. split; [exact Hs|].
  split; [|exact Hr].
  eapply Forall_impl; [exact Hg|]. intros batch Hbatch.
  eapply Forall_impl; [exact Hbatch|]. intros a. apply goodIn_weaken. exact Hsub.
Qed.

(** One iteration of the loop over the pages, up to the point where it
    goes on or returns: the state [st5] reached, and whether a batch was
    sent. *)
Lemma pages_turn (web : Web) (d : Dora) (assetType : string) (st1 : State)
    (doraAssets : DoraAsset) :
  let st2 := counted ["inventory"; "assets_fetched_dora"] (length (Data doraAssets)) st1 in
  let collected := collect assetType (Data doraAssets) [] st2 in
  let located := setLocation web d (fst collected) (snd collected) in
  closed (snd located) = closed st1
  /\ (forall e assets',
        fst located = Returned (Some e, assets') ->
        progress [assetType] st1
          (counted ["inventory"; "assets_nolocation_dora"] 1
             (logged Warn "Asset location could not be determined, ignoring assets"
                (snd located))))
  /\ (forall assets',
        fst located = Returned (None, assets') ->
        progress [assetType] st1
          (send assets'
             (counted ["inventory"; "assets_returned_dora"] (length assets')
                (snd located))))
  /\ progress [assetType] st1 (snd located)
  /\ (forall msg, fst located <> Exited msg).
Proof.
  intros st2 collected located. subst located collected.
  destruct (collect_spec assetType (Data doraAssets) [] st2)
    as (kept & Hk & Hall & Hr & Hs & Hc & Hn & Ho).
  destruct (collect assetType (Data doraAssets) [] st2) as [assets st3].
  cbn [fst snd] in *. simpl in Hk. subst assets.
  destruct (setLocation_cases web d kept st3) as (_ & Hm & Hs' & Hc' & Hcases).
  destruct (setLocation web d kept st3) as [o st4]. cbn [fst snd] in *.
  assert (HF : counter (metrics st3) fetchedKey
               = counter (metrics st1) fetchedKey + length (Data doraAssets)).
  { rewrite Ho by discriminate. subst st2. apply counter_counted_same. }
  assert (HR : counter (metrics st3) returnedKey = counter (metrics st1) returnedKey).
  { rewrite Ho by discriminate. subst st2. apply counter_counted_other. discriminate. }
  assert (HN : counter (metrics st3) noipKey + length kept
               = counter (metrics st1) noipKey + length (Data doraAssets)).
  { rewrite Hn. subst st2. rewrite counter_counted_other by discriminate. reflexivity. }
  split; [rewrite Hc', Hc; reflexivity|].
  split; [|split; [|split]].
  - intros e assets' _. exists []. cbn [sent counted logged metrics].
    rewrite app_nil_r, Hs', Hs.
    split; [reflexivity|]. split; [constructor|].
    change ["inventory"; "assets_nolocation_dora"] with nolocationKey.
    pose proof (counter_counted_other nolocationKey returnedKey 1
                  (logged Warn "Asset location could not be determined, ignoring assets"
                     st4)) as H1.
    pose proof (counter_counted_other nolocationKey noipKey 1
                  (logged Warn "Asset location could not be determined, ignoring assets"
                     st4)) as H2.
    pose proof (counter_counted_other nolocationKey fetchedKey 1
                  (logged Warn "Asset location could not be determined, ignoring assets"
                     st4)) as H3.
    cbn [counted logged metrics] in H1, H2, H3.
    rewrite H1, H2, H3 by discriminate. rewrite Hm. simpl. split; lia.
  - intros assets' Hret.
    destruct Hcases as [[Hp _]|(e & assets'' & Hret' & Hsame & _)];
      [rewrite Hp in Hret; discriminate Hret|].
    rewrite Hret' in Hret. injection Hret as -> ->.
    exists [assets']. cbn [sent send counted metrics]. rewrite Hs', Hs.
    split; [reflexivity|].
    split; [constructor; [|constructor]; eapply goodIn_sameButLocation; eassumption|].
    change ["inventory"; "assets_returned_dora"] with returnedKey.
    pose proof (counter_counted_same returnedKey (length assets') st4) as H1.
    pose proof (counter_counted_other returnedKey noipKey (length assets') st4) as H2.
    pose proof (counter_counted_other returnedKey fetchedKey (length assets') st4) as H3.
    cbn [counted metrics] in H1, H2, H3.
    rewrite H1, H2, H3 by discriminate. rewrite Hm. simpl. rewrite app_nil_r.
    pose proof (Forall2_length _ _ _ Hsame) as Hlen.
    split; lia.
  - exists []. rewrite app_nil_r, Hs', Hs, Hm. simpl.
    split; [reflexivity|]. split; [constructor|]. split; lia.
  - intros msg Hex.
    destruct Hcases as [[Hp _]|(e & assets'' & Hret' & _)]; congruence.
Qed.

Lemma progress_requested (types : list string) (url : string) (st : State) :
  progress types st (requested url st).
Proof. apply progress_refl; reflexivity. Qed.

Lemma pages_progress (web : Web) (d : Dora) (assetType : string) (fuel : nat) :
  forall (queryURL : string) (st : State) (out : Outcome unit * State),
  pages web d fuel assetType queryURL st = Some out ->
  progress [assetType] st (snd out) /\ closed (snd out) = closed st.
Proof.
  induction fuel as [|fuel IH]; intros queryURL st out H; [discriminate H|].
  cbn [pages] in H. unfold get in H.
  assert (Hstop : forall o, Some (o, requested queryURL st) = Some out ->
                  progress [assetType] st (snd out) /\ closed (snd out) = closed st).
  { intros o [= <-]. split; [apply progress_requested|reflexivity]. }
  destruct (Get web _ _) as [[r|] [e|]]; try (exact (Hstop _ H)).
  destruct (bool_decide (StatusCode r <> 200%Z)); [exact (Hstop _ H)|].
  destruct (ReadAll r) as [body [e1|]]; [exact (Hstop _ H)|].
  destruct (Unmarshal web body) as [doraAssets [e2|]]; [exact (Hstop _ H)|].
  clear Hstop.
  destruct (pages_turn web d assetType (requested queryURL st) doraAssets)
    as (Hc & Hagain & Hsent & Hstay & Hnoexit).
  destruct (collect assetType (Data doraAssets) [] _) as [assets st3].
  cbn [fst snd] in *.
  destruct (setLocation web d assets st3) as [[[[e|] assets']|msg|] st4];
    cbn [fst snd] in *.
  - apply IH in H as [Hp Hcl]. split.
    + eapply progress_trans; [apply (progress_requested _ queryURL)|].
      eapply progress_trans; [exact (Hagain e assets' eq_refl)|exact Hp].
    + rewrite Hcl. exact Hc.
  - pose proof (Hsent assets' eq_refl) as Hp1.
    destruct (String.eqb (Next_ (Links doraAssets)) "").
    + injection H as <-. split.
      * eapply progress_trans; [apply (progress_requested _ queryURL)|].
        eapply progress_trans; [exact Hp1|]. apply progress_refl; reflexivity.
      * exact Hc.
    + apply IH in H as [Hp Hcl]. split.
      * eapply progress_trans; [apply (progress_requested _ queryURL)|].
        eapply progress_trans; [exact Hp1|exact Hp].
      * rewrite Hcl. exact Hc.
  - exfalso. exact (Hnoexit msg eq_refl).
  - injection H as <-. split; [|exact Hc].
    eapply progress_trans; [apply (progress_requested _ queryURL)|exact Hstay].
Qed.

Lemma iterLoop_progress (web : Web) (d : Dora) (fuel : nat) (all types : list string) :
  types ⊆ all ->
  forall (st : State) (out : Outcome unit * State),
  iterLoop web d fuel types st = Some out ->
  progress all st (snd out) /\ closed (snd out) = closed st.
Proof.
  induction types as [|assetType rest IH]; intros Hsub st out H.
  - injection H as <-. split; [apply progress_refl; reflexivity|reflexivity].
  - cbn [iterLoop] in H.
    destruct (pages web d fuel assetType _ st) as [[o st']|] eqn:Hpages; [|discriminate H].
    apply pages_progress in Hpages as [Hp Hc]. cbn [snd] in Hp, Hc.
    assert (Hp' : progress all st st').
    { eapply progress_weaken; [|exact Hp]. intros ty Hty.
      apply list_elem_of_singleton in Hty as ->. apply Hsub. left. }
    destruct o as [[]|msg|].
    + apply IH in H as [Hp2 Hc2]; [|intros ty Hty; apply Hsub; right; exact Hty].
      split; [eapply progress_trans; eassumption|]. rewrite Hc2. exact Hc.
    + injection H as <-. auto.
    + injection H as <-. auto.
Qed.

(** X28: whenever [AssetIter] comes to an end, whether it returns, exits
    or panics, every asset it has sent has one of the asset types of the
    filter and an address other than the empty one and 0.0.0.0, the
    counter of returned assets has grown by the number of assets sent, and
    the counter of fetched assets has grown by at least the growth of the
    counters of returned assets and of assets without address together.
    The channel is closed unless the process exits. *)
Theorem AssetIter_accounts (web : Web) (d : Dora) (fuel : nat) (st : State)
    (out : Outcome unit * State) :
  AssetIter web d fuel st = Some out ->
  progress (FilterAssetType d) st (snd out)
  /\ match fst out with
     | Exited _ => closed (snd out) = closed st
     | _ => closed (snd out) = true
     end.
Proof.
  unfold AssetIter. intros H.
  destruct (iterLoop web d fuel (FilterAssetType d) st) as [[o st']|] eqn:Hloop;
    [|discriminate H].
  apply (iterLoop_progress web d fuel (FilterAssetType d)) in Hloop as [Hp Hc];
    [|intros ty Hty; exact Hty].
  injection H as <-. cbn [snd] in Hp, Hc.
  destruct o as [[]|msg|]; cbn [deferredClose fst snd]; split; auto;
    destruct Hp as (batches & Hp); exists batches; exact Hp.
Qed.

Lemma AssetIter_accounts_witness :
  exists out,
    AssetIter InventoryFixtures.web InventoryFixtures.dora 1 InventoryFixtures.start
    = Some out
    /\ fst out = Returned tt
    /\ progress ["chassis"] InventoryFixtures.start (snd out)
    /\ closed (snd out) = true.
Proof.
  destruct (AssetIter InventoryFixtures.web InventoryFixtures.dora 1
              InventoryFixtures.start) as [out|] eqn:Hrun;
    [|vm_compute in Hrun; discriminate Hrun].
  exists out. split; [reflexivity|].
  assert (Hfst : fst out = Returned tt).
  { apply (f_equal (option_map fst)) in Hrun. vm_compute in Hrun.
    injection Hrun as Hrun. symmetry. exact Hrun. }
  destruct (AssetIter_accounts _ _ _ _ _ Hrun) as [Hp Hc].
  split; [exact Hfst|]. split; [exact Hp|]. rewrite Hfst in Hc. exact Hc.
Defined.

Lemma collect_usable (assetType : string) (items : list DoraAssetData) :
  forall (assets : list Asset.Asset) (st : State),
  fst (collect assetType items assets st) = assets ++ usableItems assetType items.
Proof.
  unfold usableItems.
  induction items as [|item rest IH]; intros assets st.
  - simpl. rewrite app_nil_r. reflexivity.
  - simpl.
    destruct (String.eqb (BmcAddress (Attributes item)) "") eqn:Hno;
      [|destruct (String.eqb (BmcAddress (Attributes item)) "0.0.0.0") eqn:Hzero];
      cbn [orb].
    + apply String.eqb_eq in Hno. rewrite IH.
      rewrite filter_cons_False by (intros [H _]; contradiction). reflexivity.
    + apply String.eqb_eq in Hzero. rewrite IH.
      rewrite filter_cons_False by (intros [_ H]; contradiction). reflexivity.
    + apply String.eqb_neq in Hno, Hzero. rewrite IH.
      rewrite filter_cons_True by (split; assumption).
      simpl. rewrite <- app_assoc. reflexivity.
Qed.

Lemma collect_pair (assetType : string) (items : list DoraAssetData) (st : State) :
  collect assetType items [] st
  = (usableItems assetType items, snd (collect assetType items [] st)).
Proof.
  pose proof (collect_usable assetType items [] st) as H. cbn [app] in H.
  destruct (collect assetType items [] st) as [assets st']. cbn [fst snd] in *.
  rewrite H. reflexivity.
Qed.

(** X29: what [AssetIter] does when the location lookup for the assets of
    its first page fails.
    - While the lookup comes back with a response that [setLocation]
      turns into an error (the request has an error, or the status is 200
      and the body does not decode), [AssetIter] asks for the same page
      again, without pause and without bound: whatever the number of
      iterations allowed, it has not come to an end, so that it has
      neither gone on to the next page or asset type nor closed the
      channel.
    - When the lookup comes back without a response, as [http.Get] does
      when the request itself fails, [setLocation] panics on
      [resp.StatusCode] and [AssetIter] ends in its first iteration: it
      has made the two requests and sent nothing, and the deferred call
      has closed the channel. *)
Theorem AssetIter_when_lookup_fails (web : Web) (d : Dora)
    (assetType : string) (rest : list string) (page : Response) (body : string)
    (doraAssets : DoraAsset) :
  FilterAssetType d = assetType :: rest ->
  (forall n, Get web n (firstPage d assetType) = (Some page, None)) ->
  StatusCode page = 200%Z ->
  ReadAll page = (body, None) ->
  Unmarshal web body = (doraAssets, None) ->
  let lookup := locationURL d (usableItems assetType (Data doraAssets)) in
  ((forall n, lookupFails web (Get web n lookup)) ->
   forall (fuel : nat) (st : State), AssetIter web d fuel st = None)
  /\ (forall (fuel : nat) (st : State),
        fst (Get web (length (requests st) + 1) lookup) = None ->
        exists st',
          AssetIter web d (S fuel) st = Some (Panicked, st')
          /\ requests st' = requests st ++ [firstPage d assetType; lookup]
          /\ sent st' = sent st
          /\ closed st' = true).
Proof.
  intros Htypes Hpage Hstatus Hread Hdecode lookup. subst lookup. split.
  - intros Hlookup fuel st.
    assert (Hpages : forall st',
               pages web d fuel assetType (firstPage d assetType) st' = None).
    { induction fuel as [|fuel IH]; intros st'; [reflexivity|].
      cbn [pages]. unfold get. rewrite Hpage.
      rewrite bool_decide_eq_false_2 by (intros H; contradiction).
      rewrite Hread, Hdecode, collect_pair.
      unfold setLocation, get.
      fold (locationURL d (usableItems assetType (Data doraAssets))).
      destruct (Hlookup (length (requests (snd (collect assetType (Data doraAssets) []
                  (counted ["inventory"; "assets_fetched_dora"] (length (Data doraAssets))
                     (requested (firstPage d assetType) st')))))))
        as (r & Hresp & Hcase).
      destruct (Get web _ (locationURL d (usableItems assetType (Data doraAssets))))
        as [resp requestErr].
      cbn [fst snd] in Hresp, Hcase. subst resp.
      destruct requestErr as [e|]; [apply IH|].
      destruct Hcase as [Hcase|[Hok Hbody]]; [contradiction|].
      rewrite bool_decide_eq_false_2 by (intros H; contradiction).
      destruct (Unmarshal web (fst (ReadAll r))) as [scanned [e|]];
        [apply IH|contradiction]. }
    unfold AssetIter. rewrite Htypes. cbn [iterLoop].
    fold (firstPage d assetType). rewrite Hpages. reflexivity.
  - intros fuel st Hnone.
    unfold AssetIter. rewrite Htypes. cbn [iterLoop pages].
    fold (firstPage d assetType). unfold get. rewrite Hpage.
    rewrite bool_decide_eq_false_2 by (intros H; contradiction).
    rewrite Hread, Hdecode, collect_pair.
    pose proof (collect_spec assetType (Data doraAssets) []
                  (counted ["inventory"; "assets_fetched_dora"] (length (Data doraAssets))
                     (requested (firstPage d assetType) st)))
      as (kept & _ & _ & Hr & Hs & _).
    set (st3 := snd (collect assetType (Data doraAssets) [] _)) in *.
    cbn [requests sent counted requested] in Hr, Hs.
    unfold setLocation, get.
    fold (locationURL d (usableItems assetType (Data doraAssets))).
    rewrite Hr, length_app. cbn [length].
    destruct (Get web (length (requests st) + 1)
                (locationURL d (usableItems assetType (Data doraAssets))))
      as [resp requestErr].
    cbn [fst] in Hnone. subst resp.
    destruct requestErr as [e|]; cbn [option_map deferredClose];
      eexists; (split; [reflexivity|]);
      cbn [requests sent closed close requested]; rewrite Hr, Hs, <- app_assoc;
      repeat split.
Qed.

Lemma AssetIter_when_lookup_fails_witness :
  AssetIter InventoryFixtures.webFailing InventoryFixtures.dora 1000 InventoryFixtures.start
  = None
  /\ AssetIter InventoryFixtures.webGarbled InventoryFixtures.dora 1000
       InventoryFixtures.start
     = None
  /\ exists st',
       AssetIter InventoryFixtures.webDown InventoryFixtures.dora 1 InventoryFixtures.start
       = Some (Panicked, st')
       /\ sent st' = []
       /\ closed st' = true.
Proof.
  split; [|split].
  - apply (AssetIter_when_lookup_fails InventoryFixtures.webFailing
             InventoryFixtures.dora "chassis" []
             {| StatusCode := 200; ReadAll := ("assets", None) |} "assets"
             (fst (InventoryFixtures.decode "assets")) eq_refl (fun _ => eq_refl)
             eq_refl eq_refl eq_refl).
    intros n. exists {| StatusCode := 500; ReadAll := ("", None) |}.
    split; [reflexivity|]. left. discriminate.
  - apply (AssetIter_when_lookup_fails InventoryFixtures.webGarbled
             InventoryFixtures.dora "chassis" []
             {| StatusCode := 200; ReadAll := ("assets", None) |} "assets"
             (fst (InventoryFixtures.decode "assets")) eq_refl (fun _ => eq_refl)
             eq_refl eq_refl eq_refl).
    intros n. exists {| StatusCode := 200; ReadAll := ("<html>", None) |}.
    split; [reflexivity|]. right. split; [reflexivity|discriminate].
  - destruct (proj2 (AssetIter_when_lookup_fails InventoryFixtures.webDown
                       InventoryFixtures.dora "chassis" []
                       {| StatusCode := 200; ReadAll := ("assets", None) |} "assets"
                       (fst (InventoryFixtures.decode "assets")) eq_refl
                       (fun _ => eq_refl) eq_refl eq_refl eq_refl)
                0 InventoryFixtures.start eq_refl)
      as (st' & Hrun & _ & Hsent & Hclosed).
    exists st'. split; [exact Hrun|]. split; [exact Hsent|exact Hclosed].
Defined.

(** X30: one page that is the last one. When Dora answers the request for
    the first page of the only asset type with a page without successor,
    and the location lookup with a response and no error, which
    decodes if its status is 200, [AssetIter] returns after one
    iteration: it has sent one batch and closed the channel. The batch holds the items of the page that have an address
    other than the empty one and 0.0.0.0, with the sites of the lookup
    when the lookup has status 200; when it has another status the same
    assets are sent without location. *)
Theorem AssetIter_single_page (web : Web) (d : Dora) (assetType : string)
    (page lookup : Response) (body : string) (doraAssets : DoraAsset)
    (fuel : nat) (st : State) :
  FilterAssetType d = [assetType] ->
  (forall n, Get web n (firstPage d assetType) = (Some page, None)) ->
  StatusCode page = 200%Z ->
  ReadAll page = (body, None) ->
  Unmarshal web body = (doraAssets, None) ->
  Next_ (Links doraAssets) = "" ->
  (forall n, Get web n (locationURL d (usableItems assetType (Data doraAssets)))
             = (Some lookup, None)) ->
  (StatusCode lookup = 200%Z -> snd (Unmarshal web (fst (ReadAll lookup))) = None) ->
  let batch :=
    if bool_decide (StatusCode lookup = 200%Z)
    then map (located (Data (fst (Unmarshal web (fst (ReadAll lookup))))))
           (usableItems assetType (Data doraAssets))
    else usableItems assetType (Data doraAssets) in
  exists st',
    AssetIter web d (S fuel) st = Some (Returned tt, st')
    /\ sent st' = sent st ++ [batch]
    /\ closed st' = true
    /\ requests st'
       = requests st ++ [firstPage d assetType;
                         locationURL d (usableItems assetType (Data doraAssets))].
Proof.
  intros Htypes Hpage Hstatus Hread Hdecode Hlast Hlookup Hscanned batch.
  unfold AssetIter. rewrite Htypes. cbn [iterLoop pages].
  fold (firstPage d assetType). unfold get. rewrite Hpage.
  rewrite bool_decide_eq_false_2 by (intros H; contradiction).
  rewrite Hread, Hdecode, collect_pair.
  pose proof (collect_spec assetType (Data doraAssets) []
                (counted ["inventory"; "assets_fetched_dora"] (length (Data doraAssets))
                   (requested (firstPage d assetType) st)))
    as (kept & _ & _ & Hr & Hs & _).
  set (st3 := snd (collect assetType (Data doraAssets) [] _)) in *.
  unfold setLocation, get. fold (locationURL d (usableItems assetType (Data doraAssets))).
  rewrite Hlookup. subst batch.
  destruct (bool_decide (StatusCode lookup = 200%Z)) eqn:Hok.
  - apply bool_decide_eq_true_1 in Hok. specialize (Hscanned Hok).
    rewrite bool_decide_eq_false_2 by (intros H; contradiction).
    destruct (Unmarshal web (fst (ReadAll lookup))) as [scanned e].
    cbn [fst snd] in *. subst e. rewrite Hlast. cbn [String.eqb option_map deferredClose].
    eexists. split; [reflexivity|].
    cbn [sent closed requests close logged send counted requested].
    rewrite Hs, Hr. cbn [sent requests counted requested].
    rewrite fold_locate_map, <- app_assoc. split; [|split; reflexivity].
    f_equal. f_equal. apply map_ext. intros a. apply fold_located.
  - apply bool_decide_eq_false_1 in Hok.
    rewrite bool_decide_eq_true_2 by exact Hok.
    rewrite Hlast. cbn [String.eqb option_map deferredClose].
    eexists. split; [reflexivity|].
    cbn [sent closed requests close logged send counted requested].
    rewrite Hs, Hr. cbn [sent requests counted requested].
    rewrite <- app_assoc. split; [|split]; reflexivity.
Qed.

Lemma AssetIter_single_page_witness :
  exists st',
    AssetIter InventoryFixtures.webRefusing InventoryFixtures.dora 1 InventoryFixtures.start
    = Some (Returned tt, st')
    /\ sent st' = [[InventoryFixtures.assetAt "10.0.0.1";
                    fromItem "chassis" (InventoryFixtures.item "10.0.0.4" "S4")]]
    /\ closed st' = true.
Proof.
  destruct (AssetIter_single_page InventoryFixtures.webRefusing InventoryFixtures.dora
              "chassis" {| StatusCode := 200; ReadAll := ("assets", None) |}
              {| StatusCode := 500; ReadAll := ("", None) |} "assets"
              (fst (InventoryFixtures.decode "assets")) 0 InventoryFixtures.start
              eq_refl (fun _ => eq_refl) eq_refl eq_refl eq_refl eq_refl
              (fun _ => eq_refl))
    as (st' & Hrun & Hsent & Hclosed & _); [intros H; discriminate H|].
  exists st'. split; [exact Hrun|]. split; [exact Hsent|exact Hclosed].
Defined.

End InventoryMore.
